(** * peri / cbamf: a shallow embedding of the sphere renderer, the
      Levenberg-Marquardt engine and the legacy 2-D PSF

    Sources embedded here:
    - [src/peri/comp/objs.py]     edge kernels, [PlatonicSpheresCollection]
    - [src/peri/opt/optimize.py]  [get_num_px_jtj], [LMEngine], [LMParticles]
    - [src/cbamf/comp/psf2d.py]   [PSF2D.execute], [guess_psf_width]

    Conventions.  Python floats are idealised as real numbers ([R]): no
    rounding, no NaN, and the one place where the code divides by a float
    that may be zero ([frac_err]) carries the IEEE outcome explicitly.
    Python integers are [Z] (or [nat] for indices), arrays are lists, and a
    Python exception is a [Raise] in the [result] type below. *)

From Stdlib Require Import Reals Lra Lia ZArith QArith Qround Qminmax.
From Stdlib Require Import List Ascii String Bool.
From Stdlib Require Import Psatz Permutation.
Import ListNotations.

Set Implicit Arguments.

(* ===================================================================== *)
(** * Part I: definitions                                                 *)
(* ===================================================================== *)

(** ** Python runtime: exceptions and the few numpy primitives used *)

Module Py.

Inductive exn : Type :=
| NameError | UnboundLocalError | TypeError | KeyError | IndexError
| ValueError | ZeroDivisionError | FloatingPointError
| RuntimeError (msg : string).

Inductive result (A : Type) : Type :=
| Ok (a : A)
| Raise (e : exn).
Arguments Ok {A} a.
Arguments Raise {A} e.

Definition bind {A B} (m : result A) (k : A -> result B) : result B :=
  match m with
  | Ok a => k a
  | Raise e => Raise e
  end.

(** [try: m  except Exception: h] -- every exception above derives from
    [Exception]. *)
Definition try_except {A} (m : result A) (h : exn -> result A) : result A :=
  match m with
  | Ok a => Ok a
  | Raise e => h e
  end.

Open Scope R_scope.

Definition Rltb (x y : R) : bool := if Rlt_dec x y then true else false.
Definition Rleb (x y : R) : bool := if Rle_dec x y then true else false.
Definition Reqb (x y : R) : bool := if Req_dec_T x y then true else false.

(** A numpy boolean used in arithmetic: [True] is 1, [False] is 0. *)
Definition as_float (b : bool) : R := if b then 1 else 0.

(** [np.clip(x, lo, hi)] is [minimum(maximum(x, lo), hi)]. *)
Definition clip (x lo hi : R) : R := Rmin (Rmax x lo) hi.

(** [np.sign]. *)
Definition sign (x : R) : R :=
  if Rltb x 0 then -1 else if Rltb 0 x then 1 else 0.

(** [np.floor], [np.ceil] and [np.round] (round half to even), with their
    integer value. *)
Definition floor (x : R) : Z := Int_part x.
Definition ceil (x : R) : Z := (- floor (- x))%Z.
Definition round (x : R) : Z :=
  let f := floor x in
  let d := x - IZR f in
  if Rltb d (1/2) then f
  else if Rltb (1/2) d then (f + 1)%Z
  else if Z.even f then f else (f + 1)%Z.

(** Elementwise array arithmetic on equal-length vectors. *)
Fixpoint vadd (u v : list R) : list R :=
  match u, v with
  | x :: u', y :: v' => (x + y) :: vadd u' v'
  | _, _ => []
  end.
Definition vscale (c : R) (v : list R) : list R := map (fun x => c * x) v.
Definition vsub (u v : list R) : list R := vadd u (vscale (-1) v).
Definition vsum (v : list R) : R := fold_right Rplus 0 v.

(** The sum of [d] over a list of indices. *)
Definition sum_over (l : list nat) (d : nat -> R) : R :=
  fold_right (fun i acc => d i + acc) 0 l.

(** [np.argmin]: the index of the first minimum; [ValueError] on an
    empty array. *)
Fixpoint argmin_from (best : nat) (bv : R) (i : nat) (l : list R) : nat :=
  match l with
  | [] => best
  | x :: l' =>
      if Rltb x bv then argmin_from i x (S i) l'
      else argmin_from best bv (S i) l'
  end.

Definition argmin (l : list R) : result nat :=
  match l with
  | [] => Raise ValueError
  | x :: l' => Ok (argmin_from 0 x 1 l')
  end.

(** A dictionary or a namespace with string keys, as an association
    list. *)
Fixpoint assoc {A} (k : string) (l : list (string * A)) : option A :=
  match l with
  | [] => None
  | (k', v) :: l' => if String.eqb k k' then Some v else assoc k l'
  end.

(** Reading a name that is not a local of the function: only the module
    globals remain. *)
Definition load_global {A} (g : list (string * A)) (x : string) : result A :=
  match assoc x g with
  | Some v => Ok v
  | None => Raise NameError
  end.

(** [l[i] = f(l[i])], [IndexError] out of range. *)
Fixpoint modify_at {A} (i : nat) (f : A -> A) (l : list A) : result (list A) :=
  match l, i with
  | [], _ => Raise IndexError
  | x :: l', O => Ok (f x :: l')
  | x :: l', S j =>
      match modify_at j f l' with
      | Ok l'' => Ok (x :: l'')
      | Raise e => Raise e
      end
  end.

Definition index {A} (l : list A) (i : nat) : result A :=
  match nth_error l i with
  | Some x => Ok x
  | None => Raise IndexError
  end.

(** The outcome of a float division when the divisor may be zero. *)
Inductive xfloat : Type :=
| Finite (x : R)
| PlusInf
| MinusInf
| NaN.

(** [x / y] on numpy floats, [y] a non-negative zero when it is zero. *)
Definition np_div (x y : R) : xfloat :=
  if Reqb y 0 then
    if Rltb 0 x then PlusInf else if Rltb x 0 then MinusInf else NaN
  else Finite (x / y).

(** [q < t] for a finite [t]. *)
Definition xlt (q : xfloat) (t : R) : bool :=
  match q with
  | Finite x => Rltb x t
  | MinusInf => true
  | PlusInf | NaN => false
  end.

End Py.
Import Py.

Declare Scope py_scope.
Delimit Scope py_scope with py.
Notation "x <- m ;; k" := (Py.bind m (fun x => k))
  (at level 61, m at next level, right associativity) : py_scope.
Notation "' p <- m ;; k" := (Py.bind m (fun p => k))
  (at level 61, p pattern, m at next level, right associativity) : py_scope.

(** ** objs.py: the sphere edge kernels *)

Module Kernels.
Open Scope R_scope.

Section EdgeKernels.

(** [scipy.special.erf] is an external function. *)
Variable erf : R -> R.

(** [sphere_bool]: [1.0*(dr < 0)]. *)
Definition sphere_bool (dr a alpha : R) : R := 1 * as_float (Rltb dr 0).

(** [sphere_lerp]: [1-np.clip((dr+alpha) / (2*alpha), 0, 1)]. *)
Definition sphere_lerp (dr a alpha : R) : R :=
  1 - clip ((dr + alpha) / (2 * alpha)) 0 1.

(** [sphere_logistic]: [1.0/(1.0 + np.exp(alpha*dr))]. *)
Definition sphere_logistic (dr a alpha : R) : R := 1 / (1 + exp (alpha * dr)).

(** [sphere_triangle_cdf]. *)
Definition sphere_triangle_cdf (dr a alpha : R) : R :=
  let p0 := (dr + alpha)^2 / (2 * alpha^2)
            * as_float (Rltb dr 0) * as_float (Rltb (- alpha) dr) in
  let p1 := 1 * as_float (Rltb 0 dr)
            - (alpha - dr)^2 / (2 * alpha^2)
              * as_float (Rltb 0 dr) * as_float (Rltb dr alpha) in
  1 - clip (p0 + p1) 0 1.

(** [sphere_analytical_gaussian]. *)
Definition sphere_analytical_gaussian (dr a alpha : R) : R :=
  let term1 := 0.5 * (erf ((dr + 2 * a) / (alpha * sqrt 2))
                      + erf (- dr / (alpha * sqrt 2))) in
  let term2 := sqrt (0.5 / PI) * (alpha / (dr + a + 1e-10))
               * (exp (- 0.5 * dr^2 / alpha^2)
                  - exp (- 0.5 * (dr + 2 * a)^2 / alpha^2)) in
  term1 - term2.

(** [sphere_analytical_gaussian_trim], one array element.  The four
    assignments to [ans] are kept in their order: [ans = 0*dr],
    [ans[m] = q], [ans[dr > cut] = 0], [ans[dr < -cut] = 1]. *)
Definition gaussian_trim_at (a alpha cut dr : R) : R :=
  let m := Rleb (Rabs dr) cut in
  let t := - dr / (alpha * sqrt 2) in
  let q := 0.5 * (1 + erf t)
           - sqrt (0.5 / PI) * (alpha / (dr + a + 1e-10)) * exp (- t * t) in
  let ans0 := 0 * dr in
  let ans1 := if m then q else ans0 in
  let ans2 := if Rltb cut dr then 0 else ans1 in
  if Rltb dr (- cut) then 1 else ans2.

Definition sphere_analytical_gaussian_trim
    (dr : list R) (a alpha cut : R) : list R :=
  map (gaussian_trim_at a alpha cut) dr.

(** [sphere_constrained_cubic]; the source rebinds [a] in its last
    assignment, here [a'] . *)
Definition sphere_constrained_cubic (dr a alpha : R) : R :=
  let sqrt3 := sqrt 3 in
  let b_coeff := a * 0.5 / sqrt3 * (1 - 0.6 * sqrt3 * alpha) / (0.15 + a * a) in
  let rscl := clip dr (- 0.5 * sqrt3) (0.5 * sqrt3) in
  let a' := rscl + 0.5 * sqrt3 in
  let d := rscl - 0.5 * sqrt3 in
  alpha * d * a' * rscl + b_coeff * d * a' - d / sqrt3.

(** *** Function objects, calls and the load-time self-test

    The dispatch of [set_draw_method] stores function objects, and the
    module rebinds one of its names at import; so functions are modelled
    as objects with an identity and a [call]. *)

Inductive fn : Type :=
| Fbool | Flerp | Flogistic | Ftriangle | Fgaussian | Ftrim | Ffast | Fcubic.

(** Values a local variable of [sphere_analytical_gaussian_fast] can hold. *)
Inductive pyval : Type :=
| VFloat (x : R)
| VArray (v : list R)
| VCode.

Definition frame := list (string * pyval).

(** Reading a local name that has no value yet. *)
Definition load_fast (fr : frame) (x : string) : result pyval :=
  match assoc x fr with
  | Some v => Ok v
  | None => Raise UnboundLocalError
  end.

(** [scipy.weave.inline] running the C loop over [dr] (external). *)
Variable weave_inline : list R -> R -> R -> R -> list R -> list R.

(** [sphere_analytical_gaussian_fast(dr, a, alpha, cut)].  Its locals are
    the four arguments, then [functions] and [code]; [r], [shape], [N],
    [ans] and [pi] are local too (the body assigns them) but unbound when
    [shape = r.shape] reads [r]; [self] is not defined anywhere. *)
Definition sphere_analytical_gaussian_fast
    (globals : list (string * fn)) (dr : list R) (a alpha cut : R)
    : result (list R) :=
  let fr := [("dr", VArray dr); ("a", VFloat a); ("alpha", VFloat alpha);
             ("cut", VFloat cut); ("functions", VCode); ("code", VCode)]%string in
  (r <- load_fast fr "r" ;;                       (* shape = r.shape *)
   _ <- load_global globals "self" ;;             (* N = self.N *)
   match r with
   | VArray v => Ok (weave_inline dr a alpha cut (map (fun x => x * 0) v))
   | _ => Raise TypeError
   end)%py.

(** [f(dr, a, *args)]: positional arguments after [a] fill [alpha] and
    [cut]; defaults are those of the function object called. *)
Definition call (globals : list (string * fn)) (f : fn)
    (dr : list R) (a : R) (args : list R) : result (list R) :=
  match f, args with
  | Fbool, [alpha] => Ok (map (fun x => sphere_bool x a alpha) dr)
  | Flerp, [alpha] => Ok (map (fun x => sphere_lerp x a alpha) dr)
  | Flogistic, [alpha] => Ok (map (fun x => sphere_logistic x a alpha) dr)
  | Ftriangle, [alpha] => Ok (map (fun x => sphere_triangle_cdf x a alpha) dr)
  | Fcubic, [alpha] => Ok (map (fun x => sphere_constrained_cubic x a alpha) dr)
  | Fgaussian, [] => Ok (map (fun x => sphere_analytical_gaussian x a 0.2765) dr)
  | Fgaussian, [alpha] =>
      Ok (map (fun x => sphere_analytical_gaussian x a alpha) dr)
  | Ftrim, [] => Ok (sphere_analytical_gaussian_trim dr a 0.2765 1.6)
  | Ftrim, [alpha] => Ok (sphere_analytical_gaussian_trim dr a alpha 1.6)
  | Ftrim, [alpha; cut] => Ok (sphere_analytical_gaussian_trim dr a alpha cut)
  | Ffast, [] => sphere_analytical_gaussian_fast globals dr a 0.2765 1.20
  | Ffast, [alpha] => sphere_analytical_gaussian_fast globals dr a alpha 1.20
  | Ffast, [alpha; cut] => sphere_analytical_gaussian_fast globals dr a alpha cut
  | _, _ => Raise TypeError
  end.

(** The [def] statements of the module, in order. *)
Definition module_defs : list (string * fn) :=
  [("sphere_bool", Fbool); ("sphere_lerp", Flerp);
   ("sphere_logistic", Flogistic); ("sphere_triangle_cdf", Ftriangle);
   ("sphere_analytical_gaussian", Fgaussian);
   ("sphere_analytical_gaussian_trim", Ftrim);
   ("sphere_analytical_gaussian_fast", Ffast);
   ("sphere_constrained_cubic", Fcubic)]%string.

Fixpoint rebind {A} (k : string) (v : A) (l : list (string * A))
    : list (string * A) :=
  match l with
  | [] => [(k, v)]
  | (k', v') :: l' =>
      if String.eqb k k' then (k, v) :: l' else (k', v') :: rebind k v l'
  end.

(** [np.linspace(0, 10, 10)]. *)
Definition linspace_0_10_10 : list R :=
  map (fun i => 0 + INR i * ((10 - 0) / 9)) (seq 0 10).

(** The module-level statement
    [try: sphere_analytical_gaussian_fast(np.linspace(0,10,10), 5.0)
     except Exception: sphere_analytical_gaussian_fast = sphere_analytical_gaussian_trim]
    run on the globals the [def]s left. *)
Definition module_globals : result (list (string * fn)) :=
  let g := module_defs in
  try_except
    (f <- load_global g "sphere_analytical_gaussian_fast" ;;
     _ <- call g f linspace_0_10_10 5.0 [] ;;
     Ok g)%py
    (fun _ =>
       (trim <- load_global g "sphere_analytical_gaussian_trim" ;;
        Ok (rebind "sphere_analytical_gaussian_fast" trim g))%py).

(** [set_draw_method]: the two dictionaries, built from the globals at
    the time of the call. *)
Definition sphere_functions (g : list (string * fn))
    : result (list (string * fn)) :=
  (f_bool <- load_global g "sphere_bool" ;;
   f_lerp <- load_global g "sphere_lerp" ;;
   f_logistic <- load_global g "sphere_logistic" ;;
   f_triangle <- load_global g "sphere_triangle_cdf" ;;
   f_gauss <- load_global g "sphere_analytical_gaussian" ;;
   f_trim <- load_global g "sphere_analytical_gaussian_trim" ;;
   f_fast <- load_global g "sphere_analytical_gaussian_fast" ;;
   f_cubic <- load_global g "sphere_constrained_cubic" ;;
   Ok [("bool", f_bool); ("lerp", f_lerp); ("logistic", f_logistic);
       ("triangle", f_triangle); ("exact-gaussian", f_gauss);
       ("exact-gaussian-trim", f_trim); ("exact-gaussian-fast", f_fast);
       ("constrained-cubic", f_cubic)]%string)%py.

Definition alpha_defaults : list (string * R) :=
  [("bool", 0); ("lerp", 0.4539); ("logistic", 6.5); ("triangle", 0.6618);
   ("exact-gaussian", 0.27595); ("exact-gaussian-trim", 0.27595);
   ("exact-gaussian-fast", 0.27595); ("constrained-cubic", 0.84990)]%string.

(** [self.sphere_functions[self.method](dr, rad, *self.alpha)] in an
    interpreter that has imported the module. *)
Definition draw_with (method : string) (dr : list R) (a : R) (args : list R)
    : result (list R) :=
  (g <- module_globals ;;
   fs <- sphere_functions g ;;
   match assoc method fs with
   | Some f => call g f dr a args
   | None => Raise KeyError
   end)%py.

End EdgeKernels.

(** A stand-in for [erf] with the two facts the kernels need at the
    surface: it vanishes at 0 and lies between [1 - exp(-x^2)] and 1 on
    the non-negative axis. *)
Definition erf_step (x : R) : R := if Rltb 0 x then 1 else 0.

End Kernels.

(** ** objs.py: [PlatonicSpheresCollection] *)

Module Platonic.
Open Scope R_scope.

(** A row of [pos] or of [rvecs]: entries 0, 1, 2 (z, y, x). *)
Definition vec3 : Type := (R * R * R)%type.
(** An index into the 3-D field. *)
Definition pixel : Type := (Z * Z * Z)%type.

Definition vmap2 (f : R -> R -> R) (u v : vec3) : vec3 :=
  let '(u0, u1, u2) := u in
  let '(v0, v1, v2) := v in (f u0 v0, f u1 v1, f u2 v2).
Definition vmap (f : R -> R) (u : vec3) : vec3 :=
  let '(u0, u1, u2) := u in (f u0, f u1, f u2).

(** [norm]: [np.sqrt((a**2).sum(axis=-1))]. *)
Definition norm (u : vec3) : R :=
  let '(u0, u1, u2) := u in sqrt (u0^2 + u1^2 + u2^2).

(** [inner(r, p, a, zscale)] at one coordinate vector [r]. *)
Definition inner (r p : vec3) (a zscale : R) : R :=
  let eps := vmap (fun x => x * 1e-8) (1, 1, 1) in
  let s := (zscale, 1, 1) in
  let d := vmap2 Rmult (vmap2 Rminus (vmap2 Rminus r p) eps) s in
  let n := norm d in
  let dhat := vmap (fun x => x / n) d in
  let o := norm (vmap2 Rdiv (vmap2 Rminus d (vmap (fun x => a * x) dhat)) s) in
  o * sign (n - a).

Definition pixel_eqb (p q : pixel) : bool :=
  let '(p0, p1, p2) := p in
  let '(q0, q1, q2) := q in
  (Z.eqb p0 q0 && Z.eqb p1 q1 && Z.eqb p2 q2)%bool.

(** A parameter name after [param.split('-')]: one piece, or three of
    which the middle one is the particle index. *)
Inductive param : Type :=
| Bare
| Triple (ind : nat) (coord : string).

(** [_p2i]. *)
Definition _p2i (p : param) : string * option nat :=
  match p with
  | Bare => ("zscale"%string, None)
  | Triple i c => (c, Some i)
  end.

(** [_i2p]. *)
Definition _i2p (ind : nat) (coord : string) : param := Triple ind coord.

Record psc : Type := mk_psc {
  pos : list vec3;
  rad : list R;
  zscale : R;
  particles : pixel -> R
}.

Definition with_particles (f : pixel -> R) (s : psc) : psc :=
  mk_psc (pos s) (rad s) (zscale s) f.

(** [np.delete(l, i, axis=0)]. *)
Fixpoint delete_at {A} (i : nat) (l : list A) : list A :=
  match l, i with
  | [], _ => []
  | _ :: l', O => l'
  | x :: l', S j => x :: delete_at j l'
  end.

Section Collection.

(** Settings fixed at construction. *)
Variable support_pad : R.
Variable exact_volume : bool.
Variable volume_error : R.
Variable max_radius_change : R.
(** [self.sphere_functions[self.method]] applied with [*self.alpha]:
    array of distances and radius to array of values. *)
Variable sphere_function : list R -> R -> list R.
(** [peri.util.Tile] and the component base are not part of these sources:
    [self.inner.l], the pixels of [Tile(left, right, 0, shape).slicer] in
    array order, and [self.rvecs] at a pixel. *)
Variable inner_l : vec3.
Variable tile_slicer : vec3 -> vec3 -> list pixel.
Variable rvecs : pixel -> vec3.
(** Whether the component has a parent, and what the parent does when it is
    notified of new values. *)
Variable _parent : bool.
Variable parent_update : list param -> list R -> psc -> result psc.

Definition MAX_VOLUME_ITERATIONS : nat := 10.

(** The [for] loop of [exact_volume_sphere], [fuel] iterations left. *)
Fixpoint volume_loop (fuel : nat) (rvec : list vec3) (p : vec3)
    (radius zs vol_goal rprime : R) (t : list R) : list R :=
  match fuel with
  | O => t
  | S fuel' =>
      let vol_curr := Rabs (vsum t) in
      if Rltb (Rabs (vol_goal - vol_curr) / vol_goal) volume_error then t
      else
        let rprime := rprime + 1.0 * (vol_goal - vol_curr) / (4 * PI * rprime^2) in
        if Rltb max_radius_change (Rabs (rprime - radius) / radius) then t
        else
          let dr := map (fun r => inner r p rprime zs) rvec in
          let t := sphere_function dr rprime in
          volume_loop fuel' rvec p radius zs vol_goal rprime t
  end.

Definition exact_volume_sphere (rvec : list vec3) (p : vec3) (radius zs : R)
    : list R :=
  let vol_goal := 4 / 3 * PI * radius^3 / zs in
  let rprime := radius in
  let dr := map (fun r => inner r p rprime zs) rvec in
  let t := sphere_function dr rprime in
  volume_loop MAX_VOLUME_ITERATIONS rvec p radius zs vol_goal rprime t.

Definition _trans (p : vec3) : vec3 := vmap2 Rplus p inner_l.

(** The value of the tile array [t] at pixel [px], 0 off the tile. *)
Fixpoint tile_value (px : pixel) (tile : list pixel) (t : list R) : R :=
  match tile, t with
  | q :: tile', v :: t' => if pixel_eqb q px then v else tile_value px tile' t'
  | _, _ => 0
  end.

(** The signed array [t] that [_draw_particle] adds to
    [self.particles[tile.slicer]], seen on the whole field. *)
Definition drawn (p : vec3) (r : R) (sgn : R) (zs : R) : pixel -> R :=
  let p := _trans p in
  let c := vmap (fun x => IZR (round x)) p in
  let w := vmap (fun x => IZR (round x))
             (vmap (fun x => x + support_pad)
                (vmap (fun x => x * IZR (ceil r)) (1 / zs, 1, 1))) in
  let tile := tile_slicer (vmap2 Rminus c w) (vmap2 Rplus c w) in
  let rvec := map rvecs tile in
  let t :=
    if exact_volume
    then map (fun x => sgn * x) (exact_volume_sphere rvec p r zs)
    else
      let dr := map (fun x => inner x p r zs) rvec in
      map (fun x => sgn * x) (sphere_function dr r) in
  fun px => tile_value px tile t.

(** What one particle adds to the field when it is drawn with sign +1:
    nothing when its radius is zero.  ([contribution] and [at_index] are
    names of this development, used to state the superposition.) *)
Definition contribution (p : vec3) (r zs : R) (px : pixel) : R :=
  if Reqb r 0.0 then 0 else drawn p r 1 zs px.

(** [_draw_particle(pos, rad, sign)]. *)
Definition _draw_particle (p : vec3) (r : R) (sgn : R) (s : psc) : psc :=
  if Reqb r 0.0 then s
  else with_particles
         (fun px => particles s px + drawn p r sgn (zscale s) px) s.

(** The contribution of the particle of index [i], if there is one. *)
Definition at_index (s : psc) (i : nat) (px : pixel) : R :=
  match nth_error (pos s) i, nth_error (rad s) i with
  | Some p, Some r => contribution p r (zscale s) px
  | _, _ => 0
  end.

(** The additive superposition of what the particles of [s] contribute:
    the sum over [zip(self.pos, self.rad)].  ([superposition] is a name of
    this development.) *)
Definition superposition (s : psc) (px : pixel) : R :=
  fold_right
    (fun pr acc => contribution (fst pr) (snd pr) (zscale s) px + acc) 0
    (combine (pos s) (rad s)).

(** [initialize]. *)
Definition initialize (s : psc) : psc :=
  fold_left (fun s' pr => _draw_particle (fst pr) (snd pr) 1 s')
    (combine (pos s) (rad s))
    (with_particles (fun _ => 0) s).

Definition set_coord (k : nat) (v : R) (p : vec3) : vec3 :=
  let '(p0, p1, p2) := p in
  match k with
  | 0%nat => (v, p1, p2)
  | 1%nat => (p0, v, p2)
  | _ => (p0, p1, v)
  end.

Definition get_coord (k : nat) (p : vec3) : R :=
  let '(p0, p1, p2) := p in
  match k with
  | 0%nat => p0
  | 1%nat => p1
  | _ => p2
  end.

(** One assignment of [set_values]. *)
Definition set_value (p : param) (v : R) (s : psc) : result psc :=
  let '(typ, ind) := _p2i p in
  let i := match ind with Some i => i | None => 0%nat end in
  if String.eqb typ "zscale" then Ok (mk_psc (pos s) (rad s) v (particles s))
  else if String.eqb typ "x" then
    (ps <- modify_at i (set_coord 2 v) (pos s) ;;
     Ok (mk_psc ps (rad s) (zscale s) (particles s)))%py
  else if String.eqb typ "y" then
    (ps <- modify_at i (set_coord 1 v) (pos s) ;;
     Ok (mk_psc ps (rad s) (zscale s) (particles s)))%py
  else if String.eqb typ "z" then
    (ps <- modify_at i (set_coord 0 v) (pos s) ;;
     Ok (mk_psc ps (rad s) (zscale s) (particles s)))%py
  else if String.eqb typ "a" then
    (rs <- modify_at i (fun _ => v) (rad s) ;;
     Ok (mk_psc (pos s) rs (zscale s) (particles s)))%py
  else Ok s.

(** [set_values]: [for p,v in zip(params, values)]. *)
Fixpoint set_values (params : list param) (values : list R) (s : psc)
    : result psc :=
  match params, values with
  | p :: params', v :: values' =>
      (s' <- set_value p v s ;; set_values params' values' s')%py
  | _, _ => Ok s
  end.

(** One element of [get_values]; an unknown coordinate tag appends
    nothing. *)
Definition get_value (p : param) (s : psc) : result (list R) :=
  let '(typ, ind) := _p2i p in
  let i := match ind with Some i => i | None => 0%nat end in
  if String.eqb typ "zscale" then Ok [zscale s]
  else if String.eqb typ "x" then
    (q <- index (pos s) i ;; Ok [get_coord 2 q])%py
  else if String.eqb typ "y" then
    (q <- index (pos s) i ;; Ok [get_coord 1 q])%py
  else if String.eqb typ "z" then
    (q <- index (pos s) i ;; Ok [get_coord 0 q])%py
  else if String.eqb typ "a" then
    (r <- index (rad s) i ;; Ok [r])%py
  else Ok [].

Fixpoint get_values (params : list param) (s : psc) : result (list R) :=
  match params with
  | [] => Ok []
  | p :: params' =>
      (v <- get_value p s ;; vs <- get_values params' s ;; Ok (v ++ vs))%py
  end.

(** The names that denote a value of the collection [s]: [zscale], a
    coordinate of a position that exists, the radius of a particle that
    exists.  ([known_param] is a name of this development.) *)
Definition known_param (s : psc) (p : param) : Prop :=
  match p with
  | Bare => True
  | Triple i c =>
      (In c ["x"; "y"; "z"]%string /\ (i < List.length (pos s))%nat)
      \/ (c = "a"%string /\ (i < List.length (rad s))%nat)
  end.

Definition option_nat_eq_dec (x y : option nat) : {x = y} + {x <> y}.
Proof. decide equality. apply Nat.eq_dec. Defined.

(** [_update_type]: the flag and the set of indices. *)
Definition _update_type (params : list param) : bool * list (option nat) :=
  let dozscale :=
    fold_left (fun acc p => (acc || String.eqb (fst (_p2i p)) "zscale")%bool)
      params false in
  let particles := map (fun p => snd (_p2i p)) params in
  (dozscale, nodup option_nat_eq_dec particles).

(** [for n in particles: self._draw_particle(self.pos[n], self.rad[n], sign)].
    The set holds [None] only together with [dozscale], and then the loop
    is not run. *)
Fixpoint draw_each (ns : list (option nat)) (sgn : R) (s : psc) : result psc :=
  match ns with
  | [] => Ok s
  | None :: _ => Raise TypeError
  | Some n :: ns' =>
      (p <- index (pos s) n ;;
       r <- index (rad s) n ;;
       draw_each ns' sgn (_draw_particle p r sgn s))%py
  end.

(** [update(params, values)]. *)
Definition update (params : list param) (values : list R) (s : psc)
    : result psc :=
  let '(dozscale, ns) := _update_type params in
  if dozscale then
    (s1 <- set_values params values s ;; Ok (initialize s1))%py
  else
    (s1 <- draw_each ns (-1) s ;;
     s2 <- set_values params values s1 ;;
     draw_each ns 1 s2)%py.

Definition N (s : psc) : nat := List.length (rad s).

(** [_vps] and [param_particle] for one index. *)
Definition _vps (inds : list nat) (s : psc) : list nat :=
  filter (fun j => Nat.ltb j (N s)) inds.

Definition param_particle (ind : nat) (s : psc) : list param :=
  flat_map (fun i => map (_i2p i) ["x"; "y"; "z"; "a"]%string) (_vps [ind] s).

(** [values[-1] = v]. *)
Definition set_last (v : R) (l : list R) : result (list R) :=
  match l with
  | [] => Raise IndexError
  | _ => Ok (removelast l ++ [v])
  end.

(** Modelled from the spec: the component base class with its hook
    [trigger_update] is missing from the sources; the spec has it notify
    an optional parent, so that a component without parent notifies
    nobody.  ([trigger_parameter_change] likewise; it carries no data.) *)
Definition trigger_update (params : list param) (values : list R) (s : psc)
    : result psc :=
  if _parent then parent_update params values s else Ok s.

(** [remove_particle(ind)] of a collection that has a [shape]. *)
Definition remove_particle (ind : nat) (s : psc) : result psc :=
  if Nat.eqb (List.length (rad s)) 0 then Ok s
  else
    (p <- index (pos s) ind ;;
     r <- index (rad s) ind ;;
     let params := param_particle ind s in
     values <- get_values params s ;;
     values <- set_last 0.0 values ;;
     s1 <- trigger_update params values s ;;
     let s2 := mk_psc (delete_at ind (pos s1)) (delete_at ind (rad s1))
                 (zscale s1) (particles s1) in
     Ok (if negb _parent then _draw_particle p r (-1) s2 else s2))%py.

(** [closest_particle]: [argmin] of the squared distances. *)
Definition dist2 (p q : vec3) : R :=
  let '(d0, d1, d2) := vmap2 Rminus p q in d0^2 + d1^2 + d2^2.

Definition closest_particle (x : vec3) (s : psc) : result nat :=
  argmin (map (fun p => dist2 p x) (pos s)).

(** [add_particle(pos, rad)] of a collection that has a [shape]; returns
    the collection and the index. *)
Definition add_particle (p : vec3) (r : R) (s : psc) : result (psc * nat) :=
  let s1 :=
    if Nat.eqb (List.length (rad s)) 0
    then mk_psc [p] [r] (zscale s) (particles s)
    else mk_psc (pos s ++ [p]) (rad s ++ [0.0]) (zscale s) (particles s) in
  let s2 := if negb _parent then _draw_particle p r 1 s1 else s1 in
  (ind <- closest_particle p s2 ;;
   let params := param_particle ind s2 in
   values <- get_values params s2 ;;
   values <- set_last r values ;;
   s3 <- trigger_update params values s2 ;;
   Ok (s3, ind))%py.

(** [param_positions], [param_radii], [param_particle_pos] and
    [param_particle_rad]. *)
Definition param_positions (s : psc) : list param :=
  flat_map (fun i => map (_i2p i) ["x"; "y"; "z"]%string) (seq 0 (N s)).

Definition param_radii (s : psc) : list param :=
  map (fun i => _i2p i "a"%string) (seq 0 (N s)).

Definition param_particle_pos (inds : list nat) (s : psc) : list param :=
  flat_map (fun i => map (_i2p i) ["x"; "y"; "z"]%string) (_vps inds s).

Definition param_particle_rad (inds : list nat) (s : psc) : list param :=
  map (fun i => _i2p i "a"%string) (_vps inds s).

(** What [get_update_tile] uses of [peri.util.Tile]: [Tile(left, right)],
    [.pad(n)], [Tile.boundingtile(tiles)] and [self.shape.copy()]. *)
Variable TileT : Type.
Variable Tile2 : vec3 -> vec3 -> TileT.
Variable tile_pad : TileT -> R -> TileT.
Variable boundingtile : list TileT -> TileT.
Variable shape_copy : TileT.

(** [_tile(n)]. *)
Definition _tile (n : nat) (s : psc) : result TileT :=
  let zsc := (1.0 / zscale s, 1, 1) in
  (p <- index (pos s) n ;;
   r <- index (rad s) n ;;
   let p := _trans p in
   let w := vmap (fun x => x * r) zsc in
   Ok (tile_pad (Tile2 (vmap2 Rminus p w) (vmap2 Rplus p w)) support_pad))%py.

(** [[self._tile(n) for n in particles]]; as in [draw_each], the set
    holds [None] only together with [dozscale]. *)
Fixpoint tiles_of (ns : list (option nat)) (s : psc) : result (list TileT) :=
  match ns with
  | [] => Ok []
  | None :: _ => Raise TypeError
  | Some n :: ns' =>
      (t <- _tile n s ;; ts <- tiles_of ns' s ;; Ok (t :: ts))%py
  end.

(** [get_update_tile(params, values)]: the collection as the call leaves
    it, and the tile returned. *)
Definition get_update_tile (params : list param) (values : list R) (s : psc)
    : result (psc * TileT) :=
  let '(dozscale, ns) := _update_type params in
  if dozscale then Ok (s, shape_copy)
  else
    (values0 <- get_values params s ;;
     tiles0 <- tiles_of ns s ;;
     s1 <- set_values params values s ;;
     tiles1 <- tiles_of ns s1 ;;
     s2 <- set_values params values0 s1 ;;
     Ok (s2, boundingtile (tiles0 ++ tiles1)))%py.

End Collection.

(** A small collection to run the operations on: one particle of radius 1
    on a field of two pixels, drawn without the volume iteration by a
    kernel that is 1 inside and 0 outside. *)
Definition demo_sphere_function (dr : list R) (a : R) : list R :=
  map (fun x => as_float (Rltb x 0)) dr.
Definition demo_tile_slicer (l r : vec3) : list pixel :=
  [(0, 0, 0)%Z; (0, 0, 1)%Z].
Definition demo_rvecs (px : pixel) : vec3 :=
  let '(z, y, x) := px in (IZR z, IZR y, IZR x).
Definition demo_collection : psc :=
  let s0 := mk_psc [(1, 1, 1)] [1] 1 (fun _ => 0) in
  with_particles
    (particles (initialize 2 false 1e-5 1e-2 demo_sphere_function (0, 0, 0)
                  demo_tile_slicer demo_rvecs s0)) s0.

(** Two particles of radius 1 on the same field, the first on pixel
    (0, 0, 0) and the second on pixel (0, 0, 1). *)
Definition demo_pair : psc :=
  let s0 := mk_psc [(0, 0, 0); (0, 0, 1)] [1; 1] 1 (fun _ => 0) in
  with_particles
    (particles (initialize 2 false 1e-5 1e-2 demo_sphere_function (0, 0, 0)
                  demo_tile_slicer demo_rvecs s0)) s0.

End Platonic.

(** ** optimize.py: the Levenberg-Marquardt engine *)

Module LM.
Open Scope R_scope.

(** [find_best_step]: [np.nanargmin] of a non-empty list of errors. *)
Definition find_best_step (err_vals : list R) : nat :=
  match err_vals with
  | [] => 0%nat
  | x :: l => argmin_from 0 x 1 l
  end.

(** The float-valued globals of the module: it has none (its globals are
    the imports, [CLOG], the functions and the classes). *)
Definition module_floats : list (string * R) := [].

(** The keyword arguments of [LMEngine.__init__] that the run methods
    read, and [_max_inner_loop]. *)
Record options : Type := mk_options {
  increase_damp_factor : R;
  decrease_damp_factor : R;
  use_accel : bool;
  max_accel_correction : R;
  paramtol : R;
  errtol : R;
  fractol : R;
  costol : option R;
  max_iter : Z;
  run_length : Z;
  _max_inner_loop : nat
}.

(** The defaults of [__init__]. *)
Definition default_options : options :=
  mk_options 3 8 false 1 1e-6 1e-5 1e-6 None 5 5 15.

Section Engine.

(** What the subclass fits ([M]: a function, an [OptObj], a state) and the
    Jacobian with its bookkeeping ([Jac]: [J], [JTJ], [_fresh_JTJ],
    [_J_update_counter]). *)
Variable M : Type.
Variable Jac : Type.

Record engine : Type := mk_engine {
  param_vals : list R;
  _last_vals : list R;
  error : R;
  _last_error : R;
  damping : list R;
  _has_run : bool;
  _num_iter : Z;
  _inner_run_counter : Z;
  _last_residuals : list R;
  jac : Jac;
  model : M
}.

Definition set_param_vals v (e : engine) : engine :=
  mk_engine v (_last_vals e) (error e) (_last_error e) (damping e)
    (_has_run e) (_num_iter e) (_inner_run_counter e) (_last_residuals e)
    (jac e) (model e).
Definition set_last_vals v (e : engine) : engine :=
  mk_engine (param_vals e) v (error e) (_last_error e) (damping e)
    (_has_run e) (_num_iter e) (_inner_run_counter e) (_last_residuals e)
    (jac e) (model e).
Definition set_error v (e : engine) : engine :=
  mk_engine (param_vals e) (_last_vals e) v (_last_error e) (damping e)
    (_has_run e) (_num_iter e) (_inner_run_counter e) (_last_residuals e)
    (jac e) (model e).
Definition set_last_error v (e : engine) : engine :=
  mk_engine (param_vals e) (_last_vals e) (error e) v (damping e)
    (_has_run e) (_num_iter e) (_inner_run_counter e) (_last_residuals e)
    (jac e) (model e).
Definition set_damping v (e : engine) : engine :=
  mk_engine (param_vals e) (_last_vals e) (error e) (_last_error e) v
    (_has_run e) (_num_iter e) (_inner_run_counter e) (_last_residuals e)
    (jac e) (model e).
Definition set_inner_run_counter v (e : engine) : engine :=
  mk_engine (param_vals e) (_last_vals e) (error e) (_last_error e) (damping e)
    (_has_run e) (_num_iter e) v (_last_residuals e)
    (jac e) (model e).
Definition set_last_residuals v (e : engine) : engine :=
  mk_engine (param_vals e) (_last_vals e) (error e) (_last_error e) (damping e)
    (_has_run e) (_num_iter e) (_inner_run_counter e) v
    (jac e) (model e).
Definition set_jac v (e : engine) : engine :=
  mk_engine (param_vals e) (_last_vals e) (error e) (_last_error e) (damping e)
    (_has_run e) (_num_iter e) (_inner_run_counter e) (_last_residuals e)
    v (model e).
Definition set_model v (e : engine) : engine :=
  mk_engine (param_vals e) (_last_vals e) (error e) (_last_error e) (damping e)
    (_has_run e) (_num_iter e) (_inner_run_counter e) (_last_residuals e)
    (jac e) v.

Variable opt : options.

(** [update_function(param_vals)], "implement in subclass": the new state
    of what is fitted, the argument array as the call leaves it (a subclass
    may write into it), and the error returned. *)
Variable update_function : M -> list R -> M * list R * R.
(** [calc_residuals()]. *)
Variable calc_residuals : M -> Jac -> list R.
(** [np.dot(self.J, v)]. *)
Variable J_dot : Jac -> list R -> list R.
(** [_calc_damped_jtj] then [_calc_lm_step]: the least-squares solve of the
    damped system for the gradient, on a sub-block or on everything. *)
Variable lm_solve : Jac -> list R -> list R -> option (list bool) -> list R.
(** The least-squares solve of [calc_accel_correction], on the damped
    system of the caller. *)
Variable accel_solve :
  Jac -> list R -> option (list bool) -> list R -> list R.
(** The head of [_run1] and [_run2] ([check_update_J] .. [update_eig_J])
    and that of the loop of [do_internal_run]: they act on the Jacobian,
    on what is fitted and, through [update_function(self.param_vals)], on
    the parameter array. *)
Variable refresh_J : engine -> Jac * M * list R.
Variable refresh_J_internal : engine -> Jac * M * list R.
(** [self._fresh_JTJ = False]. *)
Variable mark_stale : Jac -> Jac.
(** [calc_model_cosine()]. *)
Variable calc_model_cosine : engine -> R.

Definition apply_refresh (r : Jac * M * list R) (e : engine) : engine :=
  let '(j, m, v) := r in set_param_vals v (set_model m (set_jac j e)).

(** [self.update_function(self.param_vals)]: the engine's own array is
    the argument. *)
Definition eval_current (e : engine) : engine * R :=
  let '(m, v, er) := update_function (model e) (param_vals e) in
  (set_param_vals v (set_model m e), er).

(** [self.update_function(vals)] on a fresh array ([self.param_vals + d],
    [self.param_vals.copy()]). *)
Definition eval_at (vals : list R) (e : engine) : engine * R :=
  let '(m, _, er) := update_function (model e) vals in
  (set_model m e, er).

Definition residuals (e : engine) : list R := calc_residuals (model e) (jac e).

(** [calc_grad]. *)
Definition calc_grad (e : engine) : list R :=
  vscale (-1) (J_dot (jac e) (residuals e)).

(** [increase_damping], [decrease_damping]. *)
Definition increase_damping (e : engine) : engine :=
  set_damping (map (fun d => d * increase_damp_factor opt) (damping e)) e.

Definition decrease_damping (undo_decrease : bool) (e : engine) : engine :=
  if undo_decrease
  then set_damping (map (fun d => d * decrease_damp_factor opt) (damping e)) e
  else set_damping (map (fun d => d / decrease_damp_factor opt) (damping e)) e.

(** [update_param_vals]. *)
Definition update_param_vals (new_vals : list R) (incremental : bool)
    (e : engine) : engine :=
  let e := set_last_vals (param_vals e) e in
  let e := if incremental
           then set_param_vals (vadd (param_vals e) new_vals) e
           else set_param_vals new_vals e in
  set_jac (mark_stale (jac e)) e.

(** [get_termination_stats] without the cosine. *)
Definition delta_vals (e : engine) : list R := vsub (_last_vals e) (param_vals e).
Definition delta_err (e : engine) : R := _last_error e - error e.
Definition frac_err (e : engine) : xfloat := np_div (delta_err e) (error e).

(** [check_completion].  [curcos] is not assigned in the function, so it
    is read from the module globals. *)
Definition check_completion (e : engine) : result bool :=
  let terminate := false in
  let terminate :=
    (terminate
     || forallb (fun d => Rltb (Rabs d) (paramtol opt)) (delta_vals e))%bool in
  let terminate := (terminate || Rltb (delta_err e) (errtol opt))%bool in
  let terminate := (terminate || xlt (frac_err e) (fractol opt))%bool in
  match costol opt with
  | Some _ =>
      let model_cosine := calc_model_cosine e in
      (curcos <- load_global module_floats "curcos" ;;
       Ok (terminate || Rltb curcos model_cosine)%bool)%py
  | None => Ok terminate
  end.

(** [check_terminate]. *)
Definition check_terminate (e : engine) : result bool :=
  if negb (_has_run e) then Ok false
  else
    (terminate <- check_completion e ;;
     Ok (terminate || Z.leb (max_iter opt) (_num_iter e))%bool)%py.

(** The raise of a failed sanity check. *)
Definition exact_check (tol x y : R) : result unit :=
  if Rltb tol (Rabs (x - y))
  then Raise (RuntimeError "Function updates are not exact.")
  else Ok tt.

(** [v[mask]] for a boolean mask. *)
Definition select (mask : list bool) (v : list R) : list R :=
  map snd (filter fst (combine mask v)).

(** [calc_accel_correction(damped_JTJ, delta0)]; what is fitted is left
    at [param_vals - dh*delta0]. *)
Definition calc_accel_correction (subblock : option (list bool))
    (delta0 : list R) (e : engine) : engine * list R :=
  let dh := 0.1 in
  let '(e, _) := eval_current e in
  let rm0 := residuals e in
  let '(e, _) := eval_at (vadd (param_vals e) (vscale dh delta0)) e in
  let rm1 := residuals e in
  let '(e, _) := eval_at (vsub (param_vals e) (vscale dh delta0)) e in
  let rm2 := residuals e in
  let der2 := vscale (1 / (dh * dh)) (vsub (vadd rm2 rm1) (vscale 2 rm0)) in
  let corr := accel_solve (jac e) (damping e) subblock (J_dot (jac e) der2) in
  (e, vscale 0.5 corr).

(** [find_LM_updates(grad, do_correct_damping, subblock)].  In the branch
    that corrects the damping the local [JTJ] is read; it is bound only
    when a sub-block was given. *)
Definition find_LM_updates (grad : list R) (do_correct_damping : bool)
    (subblock : option (list bool)) (e : engine)
    : result (engine * list R) :=
  (grad <-
     match subblock with
     | Some b =>
         if (Nat.eqb (List.length (filter (fun x => x) b)) 0
             || Nat.eqb (List.length b) 0)%bool
         then Raise ValueError
         else Ok (select b grad)
     | None => Ok grad
     end ;;
   let delta := lm_solve (jac e) (damping e) grad subblock in
   if use_accel opt then
     let '(e, accel_correction) := calc_accel_correction subblock delta e in
     let nrm_d0 := sqrt (vsum (map (fun x => x^2) delta)) in
     let nrm_corr := sqrt (vsum (map (fun x => x^2) accel_correction)) in
     if xlt (np_div nrm_corr nrm_d0) (max_accel_correction opt)
     then Ok (e, vadd delta accel_correction)
     else if do_correct_damping then
       let e := increase_damping e in
       match subblock with
       | None => Raise UnboundLocalError
       | Some _ => Ok (e, lm_solve (jac e) (damping e) grad subblock)
       end
     else Ok (e, delta)
   else Ok (e, delta))%py.

(** One pass of the [for _try in xrange(self._max_inner_loop)] loop of
    [_run1], and the loop; the flag is [good_step]. *)
Definition run1_try (grad : list R) (e : engine)
    : result (engine * list R * R * bool) :=
  let e := increase_damping e in
  ('(e, delta_vals) <- find_LM_updates grad true None e ;;
   let '(e, er1) := eval_at (vadd (param_vals e) delta_vals) e in
   let good_step := Nat.eqb (find_best_step [error e; er1]) 1 in
   Ok (e, delta_vals, er1, good_step))%py.

Fixpoint run1_retry (n : nat) (grad : list R) (e : engine)
    (delta_vals : list R) (er1 : R) : result (engine * list R * R * bool) :=
  match n with
  | O => Ok (e, delta_vals, er1, false)
  | S n' =>
      ('(e, delta_vals, er1, good_step) <- run1_try grad e ;;
       if (good_step : bool) then Ok (e, delta_vals, er1, true)
       else run1_retry n' grad e delta_vals er1)%py
  end.

(** The first trial step of [_run1]: the Jacobian head, the step and the
    error at the stepped parameters. *)
Definition run1_first (e : engine) : result (engine * list R * R * bool) :=
  let e := apply_refresh (refresh_J e) e in
  ('(e, delta_vals) <- find_LM_updates (calc_grad e) true None e ;;
   let '(e, er1) := eval_at (vadd (param_vals e) delta_vals) e in
   let good_step := Nat.eqb (find_best_step [error e; er1]) 1 in
   Ok (e, delta_vals, er1, good_step))%py.

(** [er0 = self.update_function(self.param_vals)] and the comparison with
    the recorded error. *)
Definition run1_revert (e : engine) : result engine :=
  let '(e, er0) := eval_current e in
  (_ <- exact_check 1e-7 er0 (error e) ;; Ok e)%py.

(** The last block of [_run1]. *)
Definition run1_accept (delta_vals : list R) (er1 : R) (e : engine) : engine :=
  let e := set_last_error (error e) e in
  let e := set_error er1 e in
  let e := update_param_vals delta_vals true e in
  decrease_damping false e.

(** [_run1]. *)
Definition _run1 (e : engine) : result engine :=
  ('(e, delta_vals, er1, good_step) <- run1_first e ;;
   '(e, delta_vals, er1, good_step) <-
     (if negb good_step then
        (e <- run1_revert e ;;
         let grad := calc_grad e in
         '(e, delta_vals, er1, good_step) <-
           run1_retry (_max_inner_loop opt) grad e delta_vals er1 ;;
         if (good_step : bool) then Ok (e, delta_vals, er1, true)
         else (e <- run1_revert e ;; Ok (e, delta_vals, er1, false)))
      else Ok (e, delta_vals, er1, true)) ;;
   if (good_step : bool) then Ok (run1_accept delta_vals er1 e) else Ok e)%py.

(** One iteration of the [while] loop of [do_internal_run]; the state is
    the engine, the local [_last_residuals] and [n_good_steps]. *)
Definition internal_step (subblock : option (list bool)) (update_derr : bool)
    (e : engine) (loc : list R) (n_good_steps : nat)
    : result (engine * list R * nat * bool) :=
  let e := if negb (Z.eqb (_inner_run_counter e) 0)
           then apply_refresh (refresh_J_internal e) e else e in
  let er0 := 1 * error e in
  ('(e, delta_vals) <- find_LM_updates (calc_grad e) false subblock e ;;
   let '(e, er1) := eval_at (vadd (param_vals e) delta_vals) e in
   let good_step := Rltb er1 er0 in
   '(e, loc, n_good_steps) <-
     (if good_step then
        let e := update_param_vals delta_vals true e in
        let e := set_last_residuals loc e in
        let e := if update_derr then set_last_error er0 e else e in
        let e := set_error er1 e in
        Ok (e, residuals e, S n_good_steps)
      else
        let '(e, er0_0) := eval_current e in
        (_ <- exact_check 1e-6 er0 er0_0 ;; Ok (e, loc, n_good_steps))) ;;
   Ok (set_inner_run_counter (_inner_run_counter e + 1)%Z e,
       loc, n_good_steps, good_step))%py.

(** The [while] loop: its three tests are joined by [&], so that
    [check_terminate()] is called at every test.  [fuel] bounds the
    iterations left; [do_internal_run] gives it [run_length -
    initial_count], which the counter test never lets run out. *)
Fixpoint internal_loop (fuel : nat) (subblock : option (list bool))
    (update_derr : bool) (e : engine) (loc : list R) (n_good_steps : nat)
    (good_step : bool) : result (engine * nat) :=
  (terminate <- check_terminate e ;;
   if (Z.ltb (_inner_run_counter e) (run_length opt)
       && good_step && negb terminate)%bool
   then
     match fuel with
     | O => Ok (e, n_good_steps)
     | S fuel' =>
         '(e, loc, n_good_steps, good_step) <-
           internal_step subblock update_derr e loc n_good_steps ;;
         internal_loop fuel' subblock update_derr e loc n_good_steps good_step
     end
   else Ok (e, n_good_steps))%py.

(** [do_internal_run(initial_count, subblock, update_derr)]. *)
Definition do_internal_run (initial_count : Z) (subblock : option (list bool))
    (update_derr : bool) (e : engine) : result (engine * nat) :=
  let e := set_inner_run_counter initial_count e in
  internal_loop (Z.to_nat (run_length opt - initial_count))
    subblock update_derr e (residuals e) 0 true.

(** The damping-increase loop of [_run2] with its [else] clause. *)
Fixpoint run2_retry (n : nat) (grad : list R) (e : engine)
    : result (engine * bool) :=
  match n with
  | O =>
      let '(e, er) := eval_at (param_vals e) e in
      Ok (set_error er e, false)
  | S n' =>
      let e := increase_damping e in
      ('(e, delta_vals) <- find_LM_updates grad true None e ;;
       let '(e, er_new) := eval_at (vadd (param_vals e) delta_vals) e in
       let good_step := Rltb er_new (error e) in
       if good_step
       then Ok (set_error er_new (update_param_vals delta_vals true e), true)
       else run2_retry n' grad e)%py
  end.

(** The rejection branch of [_run2] ([best_step == 0]).  [good_step] is
    assigned in the loop only, and read after it. *)
Definition run2_reject (e : engine) : result (engine * bool) :=
  let '(e, _) := eval_at (param_vals e) e in
  let grad := calc_grad e in
  ('(e, good_step) <- run2_retry (_max_inner_loop opt) grad e ;;
   if Nat.eqb (_max_inner_loop opt) 0 then Raise UnboundLocalError
   else Ok (e, good_step))%py.

(** The two trial steps of [_run2] and their errors. *)
Definition run2_trials (e : engine)
    : result (engine * list R * list R * R * R) :=
  ('(e, delta_params_1) <- find_LM_updates (calc_grad e) false None e ;;
   let e := decrease_damping false e in
   '(e, delta_params_2) <- find_LM_updates (calc_grad e) false None e ;;
   let e := decrease_damping true e in
   let '(e, er1) := eval_at (vadd (param_vals e) delta_params_1) e in
   let '(e, er2) := eval_at (vadd (param_vals e) delta_params_2) e in
   Ok (e, delta_params_1, delta_params_2, er1, er2))%py.

(** [_run2]. *)
Definition _run2 (e : engine) : result engine :=
  let e := apply_refresh (refresh_J e) e in
  let _last_residuals' := residuals e in
  let _last_error' := 1 * error e in
  let _last_vals' := param_vals e in
  ('(e, delta_params_1, delta_params_2, er1, er2) <- run2_trials e ;;
   let best_step := find_best_step [error e; er1; er2] in
   '(e, good_step) <-
     match best_step with
     | 0%nat => run2_reject e
     | 1%nat =>
         let '(e, er1_1) := eval_at (vadd (param_vals e) delta_params_1) e in
         (_ <- exact_check 1e-6 er1_1 er1 ;;
          Ok (set_error er1 (update_param_vals delta_params_1 true e), true))
     | _ =>
         let e := set_error er2 e in
         let e := update_param_vals delta_params_2 true e in
         Ok (decrease_damping false e, true)
     end ;;
   if (good_step : bool) then
     let e := set_last_residuals _last_residuals' e in
     let e := set_last_error _last_error' e in
     let e := set_last_vals _last_vals' e in
     ('(e, _) <- do_internal_run 1 None true e ;; Ok e)
   else Ok e)%py.

Definition set_has_run v (e : engine) : engine :=
  mk_engine (param_vals e) (_last_vals e) (error e) (_last_error e) (damping e)
    v (_num_iter e) (_inner_run_counter e) (_last_residuals e)
    (jac e) (model e).
Definition set_num_iter v (e : engine) : engine :=
  mk_engine (param_vals e) (_last_vals e) (error e) (_last_error e) (damping e)
    (_has_run e) v (_inner_run_counter e) (_last_residuals e)
    (jac e) (model e).

(** [do_run_1]: [while not self.check_terminate(): ...].  [fuel] bounds
    the passes of the loop; [None] is a loop that has not stopped when the
    fuel is spent. *)
Fixpoint do_run_1 (fuel : nat) (e : engine) : result (option engine) :=
  (terminate <- check_terminate e ;;
   if (terminate : bool) then Ok (Some e)
   else
     match fuel with
     | O => Ok None
     | S fuel' =>
         let e := set_has_run true e in
         e <- _run1 e ;;
         let e := set_num_iter (_num_iter e + 1)%Z e in
         let e := set_inner_run_counter (_inner_run_counter e + 1)%Z e in
         do_run_1 fuel' e
     end)%py.

(** [do_run_2]. *)
Fixpoint do_run_2 (fuel : nat) (e : engine) : result (option engine) :=
  (terminate <- check_terminate e ;;
   if (terminate : bool) then Ok (Some e)
   else
     match fuel with
     | O => Ok None
     | S fuel' =>
         let e := set_has_run true e in
         e <- _run2 e ;;
         let e := set_num_iter (_num_iter e + 1)%Z e in
         do_run_2 fuel' e
     end)%py.

End Engine.

(** An engine to run the methods on: one parameter, an error function
    that returns 5 whatever the parameters, a step of zeros, and 1 as the
    recorded error. *)
Definition demo_update_function (m : unit) (v : list R) : unit * list R * R :=
  (m, v, 5).
Definition demo_lm_solve (j : unit) (damp grad : list R)
    (subblock : option (list bool)) : list R :=
  map (fun _ => 0) damp.
Definition demo_refresh (e : engine unit unit) : unit * unit * list R :=
  (tt, tt, param_vals e).
Definition demo_residuals (m j : unit) : list R := [].
Definition demo_J_dot (j : unit) (v : list R) : list R := [].
Definition demo_accel_solve (j : unit) (damp : list R)
    (subblock : option (list bool)) (v : list R) : list R := [].
Definition demo_mark_stale (j : unit) : unit := j.
Definition demo_cosine (e : engine unit unit) : R := 0.
Definition demo_engine : engine unit unit :=
  mk_engine [1] [1] 1 2 [1] true 0 0 [] tt tt.

(** A second engine, whose error function counts its calls: 5 at the
    first call, 1 at the second, 0.5 from then on; the recorded error
    is 1. *)
Definition counted_update_function (m : nat) (v : list R) : nat * list R * R :=
  (S m, v, match m with 0%nat => 5 | 1%nat => 1 | _ => 0.5 end).
Definition counted_residuals (m : nat) (j : unit) : list R := [].
Definition counted_refresh (e : engine nat unit) : unit * nat * list R :=
  (tt, model e, param_vals e).
Definition counted_engine : engine nat unit :=
  mk_engine [1] [1] 1 2 [1] true 0 0 [] tt 0%nat.

(** A third one, whose error function returns 0.5 everywhere. *)
Definition accepting_update_function (m : unit) (v : list R)
    : unit * list R * R := (m, v, 0.5).

(** The default options with [costol] set. *)
Definition costol_options : options :=
  mk_options 3 8 false 1 1e-6 1e-5 1e-6 (Some 0.5) 5 5 15.

(** The default options with [use_accel] set, and the first engine before
    its first run. *)
Definition accel_options : options :=
  mk_options 3 8 true 1 1e-6 1e-5 1e-6 None 5 5 15.
Definition fresh_engine : engine unit unit :=
  mk_engine [1] [1] 1 2 [1] false 0 0 [] tt tt.

(** *** [get_num_px_jtj] *)

(** [int(q)]: truncation toward zero. *)
Definition int_of (q : Q) : Z :=
  if Qlt_le_dec q 0 then Qceiling q else Qfloor q.

(** [get_num_px_jtj(s, nparams, decimate, max_mem, min_redundant)] with
    [s.residuals.size] for [s]; [nparams], [decimate] and [min_redundant]
    are integers, [max_mem] a float. *)
Definition get_num_px_jtj (residuals_size nparams decimate : Z) (max_mem : Q)
    (min_redundant : Z) : result Z :=
  if Z.eqb nparams 0 then Raise ZeroDivisionError
  else
    let px_mem := int_of (max_mem / 8 / inject_Z nparams)%Q in
    let px_red := (min_redundant * nparams)%Z in
    if Z.eqb decimate 0 then Raise ZeroDivisionError
    else
      let px_dec := (residuals_size / decimate)%Z in
      if (px_red >? px_mem)%Z
      then Raise (RuntimeError "Insufficient max_mem for desired redundancy.")
      else Ok (Z.min (Z.max px_dec px_red) px_mem).

(** The keyword defaults of [get_num_px_jtj], and the call made by
    [LMGlobals.__init__] and [LMAugmentedState.__init__]:
    [get_num_px_jtj(state, n, max_mem=max_mem, **opt_kwargs)]. *)
Record opt_kwargs : Type := mk_opt_kwargs {
  kw_decimate : option Z;
  kw_min_redundant : option Z
}.

Definition default_max_mem : Q := 1000000000.

Definition num_pix (residuals_size nparams : Z) (max_mem : Q)
    (kw : opt_kwargs) : result Z :=
  get_num_px_jtj residuals_size nparams
    (match kw_decimate kw with Some d => d | None => 1%Z end)
    max_mem
    (match kw_min_redundant kw with Some m => m | None => 20%Z end).

(** The count as the specification words it, in exact arithmetic:
    [clip(total_pixels/decimate, min_redundant*n_params,
    max_mem/8/n_params)]. *)
Definition num_px_formula (total_pixels n_params decimate : Z) (max_mem : Q)
    (min_redundant : Z) : Q :=
  Qmin (Qmax (inject_Z total_pixels / inject_Z decimate)
          (inject_Z (min_redundant * n_params)))
    (max_mem / 8 / inject_Z n_params).

(** *** [LMParticles.update_function] *)

Section Particles.

(** [peri.states] is not part of these sources: the state, its
    [update], its [error], [pad] and [ishape.shape] per axis, and the
    names [param_radii()] and [param_positions()] return. *)
Variable St : Type.
Variable state_update : St -> list string -> list R -> St.
Variable state_error : St -> R.
Variable pad : nat -> Z.
Variable ishape : nat -> Z.
Variable rad_nms : list string.
Variable pos_nms : list string.

Definition _MINRAD : R := 1e-3.
Definition _MAXRAD : R := 2e2.
Definition _MINDIST : R := 1e-3.

(** [x[-1]]. *)
Fixpoint last_char (x : string) : option Ascii.ascii :=
  match x with
  | EmptyString => None
  | String c EmptyString => Some c
  | String _ x' => last_char x'
  end.

Definition name_in (x : string) (l : list string) : bool :=
  existsb (String.eqb x) l.

(** ['zyx'[a]]. *)
Definition axis_char (a : nat) : Ascii.ascii :=
  match a with
  | 0%nat => "z"%char
  | 1%nat => "y"%char
  | _ => "x"%char
  end.

(** The masks [_is_rad] and [_is_pos[a]] of [__init__]. *)
Definition _is_rad (param_names : list string) : list bool :=
  map (fun x => name_in x rad_nms) param_names.

(** [(x in pos_nms) & (x[-1] == 'zyx'[a])]. *)
Definition is_pos_name (a : nat) (x : string) : bool :=
  (name_in x pos_nms
   && match last_char x with
      | Some c => Ascii.eqb c (axis_char a)
      | None => false
      end)%bool.

Definition _is_pos (a : nat) (param_names : list string) : list bool :=
  map (is_pos_name a) param_names.

(** The bounds of the clip on axis [a]. *)
Definition pos_lo (a : nat) : R := _MINDIST - IZR (pad a).
Definition pos_hi (a : nat) : R := IZR (ishape a) + IZR (pad a) - _MINDIST.

(** [values[mask] = np.clip(values[mask], lo, hi)]; a mask of another
    length than [values] is an [IndexError]. *)
Fixpoint clip_where (mask : list bool) (lo hi : R) (values : list R)
    : result (list R) :=
  match mask, values with
  | [], [] => Ok []
  | m :: mask', v :: values' =>
      (vs <- clip_where mask' lo hi values' ;;
       Ok ((if m then clip v lo hi else v) :: vs))%py
  | _, _ => Raise IndexError
  end.

(** What the four clips leave of a value [v] proposed for the name [x]
    (a name of this development, used to state the result per entry). *)
Definition clipped_value (x : string) (v : R) : R :=
  let v := if name_in x rad_nms then clip v _MINRAD _MAXRAD else v in
  let v := if is_pos_name 0 x then clip v (pos_lo 0) (pos_hi 0) else v in
  let v := if is_pos_name 1 x then clip v (pos_lo 1) (pos_hi 1) else v in
  if is_pos_name 2 x then clip v (pos_lo 2) (pos_hi 2) else v.

(** Step 1 of [update_function], "Clipping values". *)
Definition clip_values (param_names : list string) (values : list R)
    : result (list R) :=
  (values <- clip_where (_is_rad param_names) _MINRAD _MAXRAD values ;;
   values <- clip_where (_is_pos 0 param_names) (pos_lo 0) (pos_hi 0) values ;;
   values <- clip_where (_is_pos 1 param_names) (pos_lo 1) (pos_hi 1) values ;;
   clip_where (_is_pos 2 param_names) (pos_lo 2) (pos_hi 2) values)%py.

(** [update_function(values)]: the new state, the array [values] as the
    call leaves it, and the error. *)
Definition update_function (param_names : list string) (st : St)
    (values : list R) : result (St * list R * R) :=
  (values <- clip_values param_names values ;;
   let st := state_update st param_names values in
   Ok (st, values, state_error st))%py.

End Particles.

(** One particle on a 64-pixel cube padded by 2, to run the clipping on. *)
Definition demo_pad (a : nat) : Z := 2.
Definition demo_ishape (a : nat) : Z := 64.
Definition demo_rad_nms : list string := ["sph-0-a"]%string.
Definition demo_pos_nms : list string := ["sph-0-x"; "sph-0-y"; "sph-0-z"]%string.
Definition demo_param_names : list string :=
  ["sph-0-x"; "sph-0-y"; "sph-0-z"; "sph-0-a"]%string.

(** *** Module-level helpers of optimize.py *)

(** [nm in s] on strings: [nm] occurs somewhere in [s]. *)
Fixpoint contains (nm s : string) : bool :=
  if String.prefix nm s then true
  else match s with
       | EmptyString => false
       | String _ s' => contains nm s'
       end.

(** [vectorize_damping(params, damping, increase_list)]. *)
Definition vectorize_damping (params : list string) (damping : R)
    (increase_list : list (string * R)) : list R :=
  let damp_vec := map (fun _ => 1 * damping) params in
  fold_left
    (fun damp_vec nf =>
       let '(nm, fctr) := nf in
       map (fun pd => if contains nm (fst pd) then snd pd * fctr else snd pd)
         (combine params damp_vec))
    increase_list damp_vec.

Definition default_increase_list : list (string * R) := [("psf-"%string, 1e4)].

Section Halving.

(** [np.random.shuffle(inds)]: the array in the order the generator
    leaves it. *)
Variable shuffle : list nat -> list nat.

(** [np.nonzero(blk)[0]]. *)
Definition nonzero (blk : list bool) : list nat :=
  filter (fun i => nth i blk false) (seq 0 (List.length blk)).

(** [b = np.zeros_like(blk, dtype='bool'); b[inds] = True] for indices
    within the array. *)
Definition set_true_at (inds : list nat) (n : nat) : list bool :=
  map (fun i => existsb (Nat.eqb i) inds) (seq 0 n).

(** [halve_randomly(blk)]; [inds.size/2] is an integer division. *)
Definition halve_randomly (blk : list bool) : list bool * list bool :=
  let inds := shuffle (nonzero blk) in
  let h := (List.length inds / 2)%nat in
  (set_true_at (firstn h inds) (List.length blk),
   set_true_at (skipn h inds) (List.length blk)).

End Halving.

(** *** The rank-one updates of the Jacobian

    [J] has one row per parameter and [ncols] entries (pixels) per row. *)
Record matrix : Type := mk_matrix {
  ncols : nat;
  rows : list (list R)
}.

(** [np.dot(u, v)] of two vectors. *)
Definition dot (u v : list R) : R :=
  vsum (map (fun xy => fst xy * snd xy) (combine u v)).

(** [np.dot(direction, J)]: the combination of the rows; the shapes have
    to agree. *)
Definition vec_mat (d : list R) (J : matrix) : result (list R) :=
  if Nat.eqb (List.length d) (List.length (rows J)) then
    Ok (fold_right (fun dr acc => vadd (vscale (fst dr) (snd dr)) acc)
          (repeat 0 (ncols J)) (combine d (rows J)))
  else Raise ValueError.

(** [_rank_1_J_update(direction, values)]. *)
Definition _rank_1_J_update (direction values : list R) (J : matrix)
    : result matrix :=
  (vals_to_sub <- vec_mat direction J ;;
   let delta_vals := vsub values vals_to_sub in
   Ok (mk_matrix (ncols J)
         (map (fun dr => vadd (snd dr) (vscale (fst dr) delta_vals))
            (combine direction (rows J)))))%py.

(** [update_Broyden_J], on the arrays it reads: [self.param_vals],
    [self._last_vals], [self._last_residuals] and [self.calc_residuals()]. *)
Definition update_Broyden_J (param_vals _last_vals _last_residuals
    residuals : list R) (J : matrix) : result matrix :=
  let delta_vals := vsub param_vals _last_vals in
  let delta_residuals := vsub _last_residuals residuals in
  let nrm := sqrt (dot delta_vals delta_vals) in
  let direction := map (fun x => x / nrm) delta_vals in
  let vals := map (fun x => x / nrm) delta_residuals in
  _rank_1_J_update direction vals J.

End LM.

(** ** psf2d.py: the legacy 2-D PSF *)

Module PSF.
Open Scope R_scope.

(** [guess_psf_width(error, k, alpha, round)]: an [int] when [round] is
    set, a float otherwise.  The definition is for a positive [error] and
    non-zero [k] and [sin(alpha)], where the code returns; elsewhere the
    code raises (a division by zero or the fractional power of a negative
    number for [error], [int] of an infinite width for [k] and
    [sin(alpha)]), and the properties below assume that domain. *)
Definition psf_width (error k alpha : R) : R :=
  let first_guess := Rpower (8 / PI / error) (1 / 3) in
  let n := IZR (ceil (first_guess / PI - 0.25)) in
  let second_guess := (n + 0.25) * PI in
  second_guess / k / sin alpha.

Definition guess_psf_width (error k alpha : R) (rnd : bool) : Z + R :=
  let to_return := psf_width error k alpha in
  if rnd then inl (round to_return * 2 + 1)%Z
  else inr (to_return * 2 + 1).

Section PSF2D.

(** Real and complex 2-D arrays with the operations [execute] uses on
    them: a slice of [np.zeros(field.shape)], [+], the two transforms,
    [*] and [.real]. *)
Variable Img : Type.
Variable CImg : Type.
Variable zeros2 : Img.
Variable img_add : Img -> Img -> Img.
Variable fft2 : Img -> CImg.
Variable ifft2 : CImg -> CImg.
Variable cmul : CImg -> CImg -> CImg.
Variable real_part : CImg -> Img.

Record psf2d : Type := mk_psf2d {
  shape0 : nat;           (* self.shape[0] *)
  _kpsf : list CImg
}.

(** [_conv_2d(field1, field2, k1=False, k2=True)]. *)
Definition _conv_2d (field1 : Img) (field2 : CImg) : Img :=
  let f1k := fft2 field1 in
  let f2k := field2 in
  real_part (ifft2 (cmul f1k f2k)).

(** [for a in xrange(n): body(a)]. *)
Fixpoint for_range {S} (indices : list nat) (body : nat -> S -> result S)
    (s : S) : result S :=
  match indices with
  | [] => Ok s
  | a :: indices' => (s' <- body a s ;; for_range indices' body s')%py
  end.

(** [arr.sum(axis=0)]. *)
Definition sum_axis0 (arr : list Img) : Img :=
  match arr with
  | [] => zeros2
  | x :: arr' => fold_left img_add arr' x
  end.

(** [execute(field)]. *)
Definition execute (self : psf2d) (field : list Img) : result (list Img) :=
  let for_ans := repeat zeros2 (List.length field) in
  (for_ans <-
     for_range (seq 0 (List.length field))
       (fun a for_ans =>
          f <- index field a ;;
          k <- index (_kpsf self) a ;;
          modify_at a (fun _ => _conv_2d f k) for_ans)
       for_ans ;;
   let ans := sum_axis0 for_ans in
   let bigger_ans := repeat zeros2 (List.length field) in
   for_range (seq 0 (shape0 self))
     (fun a bigger_ans => modify_at a (fun _ => ans) bigger_ans)
     bigger_ans)%py.

End PSF2D.

(** A PSF of depth 2 over one-pixel images, with integers for pixels and
    identity transforms, to run [execute] on. *)
Definition demo_psf : psf2d Z := mk_psf2d 2 [1%Z; 2%Z].
Definition demo_field : list Z := [3%Z; 4%Z].

(** *** Axis orders and the sampling grids *)

(** A 3-D array: its shape and its entries by index. *)
Record ndarray3 : Type := mk_ndarray3 {
  nd_shape : nat * nat * nat;
  nd_at : nat -> nat -> nat -> R
}.

(** [np.rollaxis(ar, 1)]: axis 1 is moved to the front. *)
Definition rollaxis1 (ar : ndarray3) : ndarray3 :=
  let '(n0, n1, n2) := nd_shape ar in
  mk_ndarray3 (n1, n0, n2) (fun i j k => nd_at ar j i k).

(** [ar.T]: the axes in reverse order. *)
Definition transpose3 (ar : ndarray3) : ndarray3 :=
  let '(n0, n1, n2) := nd_shape ar in
  mk_ndarray3 (n2, n1, n0) (fun i j k => nd_at ar k j i).

(** [xyz_to_zxy] and [zxy_to_xyz]. *)
Definition xyz_to_zxy (ar : ndarray3) : ndarray3 := transpose3 (rollaxis1 ar).
Definition zxy_to_xyz (ar : ndarray3) : ndarray3 := rollaxis1 (transpose3 ar).

(** [np.arange(-r, r+.1, 1).astype('float')] for an integer [r]: the
    [ceil(2r + 0.1)] points [-r, -r+1, ...], none when that is negative. *)
Definition arange_sym (r : Z) : list R :=
  map (fun i => IZR (- r + Z.of_nat i)) (seq 0 (Z.to_nat (2 * r + 1))).

(** [_update_rvecs]: [_zr], [_xr], [_yr] by integer division of the
    integer support sizes, and the three grids. *)
Definition _update_rvecs (_support_size : Z * Z * Z)
    : (Z * Z * Z) * (list R * list R * list R) :=
  let '(s0, s1, s2) := _support_size in
  let zr := ((s0 - 1) / 2)%Z in
  let xr := ((s1 - 1) / 2)%Z in
  let yr := ((s2 - 1) / 2)%Z in
  ((zr, xr, yr), (arange_sym zr, arange_sym xr, arange_sym yr)).

(** [_calc_support_size] of the lens classes: [[shape[0], wid, wid]], with
    [wid] the integer that [guess_psf_width] returns under [round=True]
    (the other branch of the sum is the float of [round=False]). *)
Definition _calc_support_size (shape_0 : Z) (error : R) (params : list R)
    : result (Z * Z * Z) :=
  (alpha <- index params 0 ;;
   k <- index params 1 ;;
   match guess_psf_width error k alpha true with
   | inl wid => Ok (shape_0, wid, wid)
   | inr _ => Raise TypeError
   end)%py.

End PSF.

(* ===================================================================== *)
(** * Part II: properties                                                 *)
(* ===================================================================== *)

(** ** Comparisons, clipping and rounding *)

Section NumericFacts.
Open Scope R_scope.

Lemma Rltb_true_iff (x y : R) : Rltb x y = true <-> x < y.
Proof. unfold Rltb. destruct (Rlt_dec x y); split; intros; auto; discriminate. Qed.

Lemma Rltb_false_iff (x y : R) : Rltb x y = false <-> y <= x.
Proof.
  unfold Rltb. destruct (Rlt_dec x y); split; intros; auto; try discriminate; lra.
Qed.

Lemma Rleb_true_iff (x y : R) : Rleb x y = true <-> x <= y.
Proof. unfold Rleb. destruct (Rle_dec x y); split; intros; auto; discriminate. Qed.

Lemma Reqb_true_iff (x y : R) : Reqb x y = true <-> x = y.
Proof. unfold Reqb. destruct (Req_dec_T x y); split; intros; auto; discriminate. Qed.

Lemma Reqb_false_iff (x y : R) : Reqb x y = false <-> x <> y.
Proof.
  unfold Reqb. destruct (Req_dec_T x y); split; intros; auto; try discriminate.
  contradiction.
Qed.

Lemma Rltb_irrefl (x : R) : Rltb x x = false.
Proof. apply Rltb_false_iff. lra. Qed.

Lemma clip_bounds (x lo hi : R) : lo <= hi -> lo <= clip x lo hi <= hi.
Proof.
  intros H. unfold clip, Rmin, Rmax.
  destruct (Rle_dec x lo); destruct (Rle_dec _ hi); lra.
Qed.

Lemma clip_inside (x lo hi : R) : lo <= x <= hi -> clip x lo hi = x.
Proof.
  intros H. unfold clip, Rmin, Rmax.
  destruct (Rle_dec x lo); destruct (Rle_dec _ hi); lra.
Qed.

Lemma clip_below (x lo hi : R) : lo <= hi -> x <= lo -> clip x lo hi = lo.
Proof.
  intros H H'. unfold clip, Rmin, Rmax.
  destruct (Rle_dec x lo); destruct (Rle_dec _ hi); lra.
Qed.

Lemma clip_above (x lo hi : R) : lo <= hi -> hi <= x -> clip x lo hi = hi.
Proof.
  intros H H'. unfold clip, Rmin, Rmax.
  destruct (Rle_dec x lo); destruct (Rle_dec _ hi); lra.
Qed.

Lemma sqrt3_sqr : sqrt 3 * sqrt 3 = 3.
Proof. apply sqrt_sqrt. lra. Qed.

Lemma sqrt3_bounds : 1.732 < sqrt 3 < 1.7321.
Proof.
  pose proof sqrt3_sqr as H. pose proof Rlt_sqrt3_0 as H0.
  split; nra.
Qed.

Lemma PI_bounds : 3 < PI <= 4.
Proof. pose proof PI2_3_2. pose proof PI_4. lra. Qed.

End NumericFacts.

(** ** The edge kernels at the surface, [dr = 0] *)

Section KernelFacts.
Open Scope R_scope.
Import Kernels.

Lemma bool_at_surface (a alpha : R) : sphere_bool 0 a alpha = 0.
Proof. unfold sphere_bool. rewrite Rltb_irrefl. simpl. lra. Qed.

Lemma lerp_at_surface (a alpha : R) : alpha <> 0 -> sphere_lerp 0 a alpha = 0.5.
Proof.
  intros Ha. unfold sphere_lerp.
  replace ((0 + alpha) / (2 * alpha)) with (1 / 2) by (field; exact Ha).
  rewrite clip_inside by lra. lra.
Qed.

Lemma logistic_at_surface (a alpha : R) : sphere_logistic 0 a alpha = 0.5.
Proof.
  unfold sphere_logistic. rewrite Rmult_0_r, exp_0. lra.
Qed.

(** The triangle kernel tests [0 > dr], [dr > 0] and [0 < dr] strictly, so
    that both of its pieces vanish at the surface. *)
Lemma triangle_at_surface (a alpha : R) : sphere_triangle_cdf 0 a alpha = 1.
Proof.
  unfold sphere_triangle_cdf. rewrite !Rltb_irrefl. cbn [as_float].
  match goal with
  | |- 1 - clip ?x 0 1 = 1 => replace x with 0 by ring
  end.
  rewrite clip_inside by lra. lra.
Qed.

Lemma cubic_at_surface_value (a alpha : R) :
  sphere_constrained_cubic 0 a alpha
  = 0.5 - 0.75 * (a * 0.5 / sqrt 3 * (1 - 0.6 * sqrt 3 * alpha) / (0.15 + a * a)).
Proof.
  pose proof sqrt3_bounds as Hs. pose proof sqrt3_sqr as Hq.
  unfold sphere_constrained_cubic.
  rewrite clip_inside by lra.
  set (b := a * 0.5 / sqrt 3 * (1 - 0.6 * sqrt 3 * alpha) / (0.15 + a * a)).
  assert (Hi : sqrt 3 * / sqrt 3 = 1) by (apply Rinv_r; lra).
  clearbody b. unfold Rdiv.
  generalize dependent (/ sqrt 3). generalize dependent (sqrt 3).
  intros s Hs Hq i Hi.
  match goal with
  | |- ?lhs = _ =>
      replace lhs with (- 0.25 * b * (s * s) + 0.5 * (s * i)) by lra
  end.
  rewrite Hq, Hi. lra.
Qed.

Lemma ratio_bound (a : R) : Rabs (a / (0.15 + a * a)) <= 1.3.
Proof.
  assert (Hd : 0 < 0.15 + a * a).
  { pose proof (Rle_0_sqr a) as Hsq. unfold Rsqr in Hsq. lra. }
  unfold Rdiv. rewrite Rabs_mult, (Rabs_pos_eq (/ _)).
  2:{ left. apply Rinv_0_lt_compat. exact Hd. }
  apply Rmult_le_reg_r with (0.15 + a * a); [exact Hd|].
  rewrite Rmult_assoc, Rinv_l by lra. rewrite Rmult_1_r.
  pose proof (Rle_0_sqr (a + 5 / 13)) as H1.
  pose proof (Rle_0_sqr (a - 5 / 13)) as H2. unfold Rsqr in H1, H2.
  unfold Rabs. destruct (Rcase_abs a); lra.
Qed.

Lemma cubic_at_surface (a : R) :
  Rabs (sphere_constrained_cubic 0 a 0.84990 - 0.5) <= 0.033.
Proof.
  rewrite cubic_at_surface_value.
  pose proof sqrt3_bounds as Hs. pose proof sqrt3_sqr as Hq.
  pose proof (ratio_bound a) as Hu.
  set (u := a / (0.15 + a * a)) in *.
  set (c := (1 - 0.6 * sqrt 3 * 0.84990) / sqrt 3).
  assert (Hc : 0 < c < 0.0675).
  { unfold c. split.
    - apply Rdiv_lt_0_compat; lra.
    - apply Rmult_lt_reg_r with (sqrt 3); [lra|].
      unfold Rdiv. rewrite Rmult_assoc, Rinv_l by lra. lra. }
  replace (0.5 - 0.75 * (a * 0.5 / sqrt 3 * (1 - 0.6 * sqrt 3 * 0.84990)
                         / (0.15 + a * a)) - 0.5)
    with (- (0.375 * c) * u) by (unfold c, u, Rdiv; lra).
  rewrite Rabs_mult, Rabs_Ropp, (Rabs_pos_eq (0.375 * c)) by lra.
  pose proof (Rabs_pos u). nra.
Qed.

Lemma sqrt_half_over_PI : 0 < sqrt (0.5 / PI) <= 0.41.
Proof.
  pose proof PI_bounds as HP.
  assert (H0 : 0 < 0.5 / PI) by (apply Rdiv_lt_0_compat; lra).
  split; [apply sqrt_lt_R0; exact H0|].
  replace 0.41 with (sqrt (0.41 * 0.41)) by (apply sqrt_square; lra).
  apply sqrt_le_1_alt.
  apply Rmult_le_reg_r with PI; [lra|].
  unfold Rdiv. rewrite Rmult_assoc, Rinv_l by lra. lra.
Qed.

Lemma edge_term_bound (a : R) :
  5 <= a -> 0 <= sqrt (0.5 / PI) * (0.27595 / (a + 1e-10)) <= 0.023.
Proof.
  intros Ha. pose proof sqrt_half_over_PI as [Hs0 Hs1].
  assert (Hr : 0 < 0.27595 / (a + 1e-10) <= 0.0552).
  { split; [apply Rdiv_lt_0_compat; lra|].
    apply Rmult_le_reg_r with (a + 1e-10); [lra|].
    unfold Rdiv. rewrite Rmult_assoc, Rinv_l by lra. lra. }
  split; nra.
Qed.

(** The trimmed Gaussian kernel at the surface: its closed form, for an
    [erf] that vanishes at 0. *)
Lemma trim_at_surface (erf : R -> R) (a alpha cut : R) :
  erf 0 = 0 -> 0 <= cut ->
  gaussian_trim_at erf a alpha cut 0
  = 0.5 - sqrt (0.5 / PI) * (alpha / (a + 1e-10)).
Proof.
  intros He Hc. unfold gaussian_trim_at.
  assert (Hm : Rleb (Rabs 0) cut = true)
    by (apply Rleb_true_iff; rewrite Rabs_R0; exact Hc).
  assert (H1 : Rltb cut 0 = false) by (apply Rltb_false_iff; lra).
  assert (H2 : Rltb 0 (- cut) = false) by (apply Rltb_false_iff; lra).
  rewrite Hm, H1, H2.
  replace (- 0 / (alpha * sqrt 2)) with 0 by (unfold Rdiv; lra).
  rewrite He. replace (- 0 * 0) with 0 by lra. rewrite exp_0.
  replace (0 + a + 1e-10) with (a + 1e-10) by lra. lra.
Qed.

Lemma exp_neg_bound (y : R) : 0 <= y -> 0 < exp (- y) <= / (1 + y).
Proof.
  intros Hy. split; [apply exp_pos|].
  rewrite exp_Ropp. apply Rinv_le_contravar; [lra|].
  apply exp_ineq1_le.
Qed.

Lemma exp_nonpos_le_1 (z : R) : z <= 0 -> exp z <= 1.
Proof.
  intros [Hz | Hz].
  - left. rewrite <- exp_0. apply exp_increasing. exact Hz.
  - subst z. rewrite exp_0. lra.
Qed.

(** The untrimmed Gaussian kernel at the surface, for a radius of at least
    5 pixels and an [erf] within its elementary bounds. *)
Lemma gaussian_at_surface (erf : R -> R) (a : R) :
  erf 0 = 0 ->
  (forall x, 0 <= x -> 1 - exp (- (x * x)) <= erf x <= 1) ->
  5 <= a ->
  Rabs (sphere_analytical_gaussian erf 0 a 0.27595 - 0.5) <= 0.024.
Proof.
  intros He Hb Ha. unfold sphere_analytical_gaussian.
  replace (- 0 / (0.27595 * sqrt 2)) with 0 by (unfold Rdiv; lra).
  rewrite He.
  replace (- 0.5 * 0 ^ 2 / 0.27595 ^ 2) with 0 by (unfold Rdiv; lra).
  rewrite exp_0.
  replace (0 + a + 1e-10) with (a + 1e-10) by lra.
  pose proof (edge_term_bound Ha) as Hedge.
  set (S := sqrt (0.5 / PI) * (0.27595 / (a + 1e-10))) in *.
  set (X := (0 + 2 * a) / (0.27595 * sqrt 2)).
  set (e2 := exp (- 0.5 * (0 + 2 * a) ^ 2 / 0.27595 ^ 2)).
  assert (Hq2 : sqrt 2 * sqrt 2 = 2) by (apply sqrt_sqrt; lra).
  assert (Hs2 : 1.4 < sqrt 2 < 1.42) by (pose proof Rlt_sqrt2_0; split; nra).
  assert (HX : 25 <= X).
  { unfold X. apply Rmult_le_reg_r with (0.27595 * sqrt 2); [nra|].
    unfold Rdiv. rewrite Rmult_assoc, Rinv_l by nra. nra. }
  assert (HeX : 0 < exp (- (X * X)) <= 0.002).
  { destruct (@exp_neg_bound (X * X)) as [Hp Hle]; [nra|].
    split; [exact Hp|]. eapply Rle_trans; [exact Hle|].
    apply Rmult_le_reg_r with (1 + X * X); [nra|].
    rewrite Rinv_l by nra. nra. }
  assert (He2 : 0 < e2 <= 1).
  { unfold e2. split; [apply exp_pos|].
    apply exp_nonpos_le_1.
    assert (0 <= (0 + 2 * a) ^ 2 * / 0.27595 ^ 2).
    { apply Rmult_le_pos; [apply pow2_ge_0|].
      left. apply Rinv_0_lt_compat. lra. }
    unfold Rdiv. lra. }
  destruct (Hb X) as [Hlo Hhi]; [lra|].
  replace (sqrt (0.5 / PI) * (0.27595 / (a + 1e-10)) * (1 - e2))
    with (S * (1 - e2)) by reflexivity.
  apply Rabs_le. split; nra.
Qed.

End KernelFacts.

Section KernelClaims.
Open Scope R_scope.
Import Kernels.

Lemma erf_step_0 : erf_step 0 = 0.
Proof. unfold erf_step. rewrite Rltb_irrefl. reflexivity. Qed.

Lemma erf_step_bounds (x : R) :
  0 <= x -> 1 - exp (- (x * x)) <= erf_step x <= 1.
Proof.
  intros Hx. unfold erf_step. pose proof (exp_pos (- (x * x))) as Hp.
  destruct (Rltb 0 x) eqn:E.
  - lra.
  - apply Rltb_false_iff in E. assert (x = 0) by lra. subst x.
    rewrite Rmult_0_r, Ropp_0, exp_0. lra.
Qed.

(** C3, as amended.  At the surface [dr = 0] and for every radius [a]:
    [lerp] and [logistic] with their default [alpha] give exactly 0.5;
    [constrained-cubic] with its default [alpha] is within 0.033 of 0.5;
    [exact-gaussian] and [exact-gaussian-trim] with their default [alpha]
    (and cut) are within 0.024 of 0.5 once the radius is at least 5;
    [bool] gives exactly 0, its test [dr < 0] being strict. *)
Theorem edge_kernels_at_surface (erf : R -> R) :
  erf 0 = 0 ->
  (forall x, 0 <= x -> 1 - exp (- (x * x)) <= erf x <= 1) ->
  (forall a, sphere_lerp 0 a 0.4539 = 0.5) /\
  (forall a, sphere_logistic 0 a 6.5 = 0.5) /\
  (forall a, Rabs (sphere_constrained_cubic 0 a 0.84990 - 0.5) <= 0.033) /\
  (forall a, 5 <= a ->
     Rabs (sphere_analytical_gaussian erf 0 a 0.27595 - 0.5) <= 0.024) /\
  (forall a, 5 <= a ->
     Rabs (gaussian_trim_at erf a 0.27595 1.6 0 - 0.5) <= 0.024) /\
  (forall a, sphere_bool 0 a 0 = 0).
Proof.
  intros He Hb. repeat split.
  - intros a. apply lerp_at_surface. lra.
  - intros a. apply logistic_at_surface.
  - apply cubic_at_surface.
  - intros a Ha. apply gaussian_at_surface; assumption.
  - intros a Ha. rewrite trim_at_surface by (assumption || lra).
    pose proof (edge_term_bound Ha) as Hedge.
    apply Rabs_le. lra.
  - intros a. apply bool_at_surface.
Qed.

Lemma edge_kernels_at_surface_witness :
  (forall a, sphere_lerp 0 a 0.4539 = 0.5) /\
  (forall a, sphere_logistic 0 a 6.5 = 0.5) /\
  (forall a, Rabs (sphere_constrained_cubic 0 a 0.84990 - 0.5) <= 0.033) /\
  (forall a, 5 <= a ->
     Rabs (sphere_analytical_gaussian erf_step 0 a 0.27595 - 0.5) <= 0.024) /\
  (forall a, 5 <= a ->
     Rabs (gaussian_trim_at erf_step a 0.27595 1.6 0 - 0.5) <= 0.024) /\
  (forall a, sphere_bool 0 a 0 = 0).
Proof.
  apply (@edge_kernels_at_surface erf_step).
  - exact erf_step_0.
  - exact erf_step_bounds.
Defined.

(** C3 as stated fails: the [bool] kernel is 0, not 1, at the surface. *)
Lemma bool_kernel_at_surface_not_one : sphere_bool 0 5 0 <> 1.
Proof. rewrite bool_at_surface. lra. Qed.

(** For a small sphere the trimmed Gaussian kernel is far from 0.5 at the
    surface: with radius 0.1 it is below -0.4. *)
Lemma trim_at_surface_small_radius (erf : R -> R) :
  erf 0 = 0 -> gaussian_trim_at erf 0.1 0.27595 1.6 0 <= - 0.4.
Proof.
  intros He. rewrite trim_at_surface by (assumption || lra).
  pose proof PI_bounds as HP.
  assert (Hs : 0.35 <= sqrt (0.5 / PI)).
  { replace 0.35 with (sqrt (0.35 * 0.35)) by (apply sqrt_square; lra).
    apply sqrt_le_1_alt.
    apply Rmult_le_reg_r with PI; [lra|].
    unfold Rdiv. rewrite (Rmult_assoc 0.5), Rinv_l by lra. lra. }
  assert (Hr : 2.7 <= 0.27595 / (0.1 + 1e-10)).
  { apply Rmult_le_reg_r with (0.1 + 1e-10); [lra|].
    unfold Rdiv. rewrite Rmult_assoc, Rinv_l by lra. lra. }
  nra.
Qed.

(** C10.  Importing the module leaves the name
    [sphere_analytical_gaussian_fast] bound to the trimmed kernel, because
    the self-test call raises; so the drawing method
    ['exact-gaussian-fast'] computes, for every [dr], [a] and extra
    arguments [alpha], [cut], what ['exact-gaussian-trim'] computes, with
    the same default [alpha]. *)
Theorem fast_method_is_trim (erf : R -> R)
    (weave_inline : list R -> R -> R -> R -> list R -> list R) :
  call erf weave_inline module_defs Ffast linspace_0_10_10 5.0 []
  = Raise UnboundLocalError /\
  (exists g,
     module_globals erf weave_inline = Ok g /\
     load_global g "sphere_analytical_gaussian_fast" = Ok Ftrim) /\
  (forall dr a args,
     draw_with erf weave_inline "exact-gaussian-fast" dr a args
     = draw_with erf weave_inline "exact-gaussian-trim" dr a args) /\
  (forall dr a alpha cut,
     draw_with erf weave_inline "exact-gaussian-fast" dr a [alpha; cut]
     = Ok (sphere_analytical_gaussian_trim erf dr a alpha cut)) /\
  assoc "exact-gaussian-fast" alpha_defaults
  = assoc "exact-gaussian-trim" alpha_defaults.
Proof.
  assert (Hg : module_globals erf weave_inline
               = Ok (rebind "sphere_analytical_gaussian_fast" Ftrim module_defs)).
  { reflexivity. }
  split; [|split; [|split; [|split]]].
  - reflexivity.
  - eexists. split; [exact Hg|]. reflexivity.
  - intros dr a args. unfold draw_with. rewrite Hg. reflexivity.
  - intros dr a alpha cut. unfold draw_with. rewrite Hg. reflexivity.
  - reflexivity.
Qed.

End KernelClaims.

(** ** The sphere collection: erase and redraw *)

Section Sums.
Open Scope R_scope.

Lemma sum_over_ext (l : list nat) (d d' : nat -> R) :
  (forall i, In i l -> d i = d' i) -> sum_over l d = sum_over l d'.
Proof.
  induction l as [|x l IH]; intros H; simpl; [reflexivity|].
  rewrite (H x) by (left; reflexivity).
  rewrite IH; [reflexivity|]. intros i Hi. apply H. right. exact Hi.
Qed.

Lemma sum_over_zero (l : list nat) (d : nat -> R) :
  (forall i, In i l -> d i = 0) -> sum_over l d = 0.
Proof.
  induction l as [|x l IH]; intros H; simpl; [reflexivity|].
  rewrite (H x) by (left; reflexivity).
  rewrite IH; [lra|]. intros i Hi. apply H. right. exact Hi.
Qed.

Lemma sum_over_plus (l : list nat) (d d' : nat -> R) :
  sum_over l (fun i => d i + d' i) = sum_over l d + sum_over l d'.
Proof. induction l as [|x l IH]; simpl; [lra | rewrite IH; lra]. Qed.

Lemma sum_over_scale (l : list nat) (c : R) (d : nat -> R) :
  sum_over l (fun i => c * d i) = c * sum_over l d.
Proof. induction l as [|x l IH]; simpl; [lra | rewrite IH; lra]. Qed.

(** Taking one point out of a sum over a duplicate-free list. *)
Lemma sum_over_split (l : list nat) (n : nat) (d : nat -> R) :
  NoDup l -> In n l ->
  sum_over l d = d n + sum_over l (fun i => if Nat.eqb i n then 0 else d i).
Proof.
  induction l as [|x l IH]; intros Hnd Hin; [contradiction|].
  inversion Hnd as [|? ? Hx Hl]; subst. simpl.
  destruct Hin as [-> | Hin].
  - rewrite Nat.eqb_refl.
    rewrite (@sum_over_ext l (fun i => if Nat.eqb i n then 0 else d i) d).
    + lra.
    + intros i Hi. destruct (Nat.eqb_spec i n); [subst; contradiction | reflexivity].
  - rewrite (IH Hl Hin).
    destruct (Nat.eqb_spec x n); [subst; contradiction | lra].
Qed.

(** A function that vanishes off a duplicate-free sub-list [ns] of [l]
    sums over [l] to its sum over [ns]. *)
Lemma sum_over_support (ns l : list nat) (d : nat -> R) :
  NoDup l -> NoDup ns -> incl ns l ->
  (forall i, ~ In i ns -> d i = 0) ->
  sum_over l d = sum_over ns d.
Proof.
  revert d. induction ns as [|n ns IH]; intros d Hl Hns Hincl Hz.
  - simpl. apply sum_over_zero. intros i _. apply Hz. intros [].
  - inversion Hns as [|? ? Hn Hns']; subst. simpl.
    rewrite (@sum_over_split l n d Hl) by (apply Hincl; left; reflexivity).
    f_equal.
    rewrite (IH (fun i => if Nat.eqb i n then 0 else d i)); auto.
    + apply sum_over_ext. intros i Hi.
      destruct (Nat.eqb_spec i n); [subst; contradiction | reflexivity].
    + intros i Hi. apply Hincl. right. exact Hi.
    + intros i Hi. destruct (Nat.eqb_spec i n); [reflexivity|].
      apply Hz. intros [-> | Hin]; [congruence | contradiction].
Qed.

Lemma sum_over_map (f : nat -> nat) (l : list nat) (d : nat -> R) :
  sum_over (map f l) d = sum_over l (fun i => d (f i)).
Proof. induction l as [|x l IH]; simpl; [reflexivity | rewrite IH; reflexivity]. Qed.

(** A fold over a list, as a sum over its indices. *)
Lemma fold_as_sum_over {A} (g : A -> R) (l : list A) :
  fold_right (fun x acc => g x + acc) 0 l
  = sum_over (seq 0 (List.length l))
      (fun i => match nth_error l i with Some x => g x | None => 0 end).
Proof.
  induction l as [|x l IH]; simpl; [reflexivity|].
  rewrite IH, <- seq_shift, sum_over_map. reflexivity.
Qed.

End Sums.

Section ListFacts.

Lemma modify_at_ok {A} (i : nat) (f : A -> A) (l : list A) :
  (i < List.length l)%nat ->
  exists l', modify_at i f l = Ok l' /\
             List.length l' = List.length l /\
             (forall j, j <> i -> nth_error l' j = nth_error l j) /\
             nth_error l' i = option_map f (nth_error l i).
Proof.
  revert i. induction l as [|x l IH]; intros i Hi; simpl in Hi; [lia|].
  destruct i as [|i]; simpl.
  - eexists. split; [reflexivity|]. repeat split.
    intros [|j] Hj; [congruence | reflexivity].
  - destruct (IH i) as (l' & -> & Hlen & Hoth & Hat); [lia|].
    eexists. split; [reflexivity|]. simpl. repeat split.
    + lia.
    + intros [|j] Hj; [reflexivity|]. simpl. apply Hoth. congruence.
    + exact Hat.
Qed.

Lemma modify_at_raise {A} (i : nat) (f : A -> A) (l : list A) :
  (List.length l <= i)%nat -> modify_at i f l = Raise IndexError.
Proof.
  revert i. induction l as [|x l IH]; intros i Hi; simpl in Hi.
  - destruct i; reflexivity.
  - destruct i as [|i]; [lia|]. simpl. rewrite IH by lia. reflexivity.
Qed.

Lemma index_ok {A} (l : list A) (i : nat) :
  (i < List.length l)%nat -> exists x, index l i = Ok x /\ nth_error l i = Some x.
Proof.
  intros Hi. unfold index.
  destruct (nth_error l i) as [x|] eqn:E.
  - exists x. split; reflexivity.
  - apply nth_error_None in E. lia.
Qed.

Lemma index_inv {A} (l : list A) (i : nat) (x : A) :
  index l i = Ok x -> nth_error l i = Some x.
Proof. unfold index. destruct (nth_error l i); intros H; inversion H; reflexivity. Qed.

Lemma index_raise {A} (l : list A) (i : nat) :
  (List.length l <= i)%nat -> index l i = Raise IndexError.
Proof.
  intros Hi. unfold index.
  rewrite (proj2 (nth_error_None l i) Hi). reflexivity.
Qed.

Lemma nth_error_combine {A B} (l : list A) (l' : list B) (i : nat) :
  nth_error (combine l l') i
  = match nth_error l i, nth_error l' i with
    | Some x, Some y => Some (x, y)
    | _, _ => None
    end.
Proof.
  revert l' i. induction l as [|x l IH]; intros l' i.
  - destruct i; reflexivity.
  - destruct l' as [|y l'].
    + destruct i; simpl; [reflexivity|]. destruct (nth_error l i); reflexivity.
    + destruct i; simpl; [reflexivity | apply IH].
Qed.

End ListFacts.

Section CollectionFacts.
Open Scope R_scope.
Import Platonic.

Variable support_pad : R.
Variable exact_volume : bool.
Variable volume_error : R.
Variable max_radius_change : R.
Variable sphere_function : list R -> R -> list R.
Variable inner_l : vec3.
Variable tile_slicer : vec3 -> vec3 -> list pixel.
Variable rvecs : pixel -> vec3.

Local Abbreviation drawn_ :=
  (drawn support_pad exact_volume volume_error max_radius_change
     sphere_function inner_l tile_slicer rvecs).
Local Abbreviation draw_ :=
  (_draw_particle support_pad exact_volume volume_error max_radius_change
     sphere_function inner_l tile_slicer rvecs).
Local Abbreviation initialize_ :=
  (initialize support_pad exact_volume volume_error max_radius_change
     sphere_function inner_l tile_slicer rvecs).
Local Abbreviation draw_each_ :=
  (draw_each support_pad exact_volume volume_error max_radius_change
     sphere_function inner_l tile_slicer rvecs).
Local Abbreviation update_ :=
  (update support_pad exact_volume volume_error max_radius_change
     sphere_function inner_l tile_slicer rvecs).
Local Abbreviation contribution_ :=
  (contribution support_pad exact_volume volume_error max_radius_change
     sphere_function inner_l tile_slicer rvecs).
Local Abbreviation at_index_ :=
  (at_index support_pad exact_volume volume_error max_radius_change
     sphere_function inner_l tile_slicer rvecs).
Local Abbreviation superposition_ :=
  (superposition support_pad exact_volume volume_error max_radius_change
     sphere_function inner_l tile_slicer rvecs).

Lemma tile_value_scale (px : pixel) (tile : list pixel) (t : list R) (c : R) :
  tile_value px tile (map (fun x => c * x) t) = c * tile_value px tile t.
Proof.
  revert t. induction tile as [|q tile IH]; intros t; simpl.
  - destruct t; simpl; lra.
  - destruct t as [|v t]; simpl; [lra|].
    destruct (pixel_eqb q px); [reflexivity | apply IH].
Qed.

(** The drawn array is the sign times what is drawn with sign +1. *)
Lemma drawn_sign (p : vec3) (r sgn zs : R) (px : pixel) :
  drawn_ p r sgn zs px = sgn * drawn_ p r 1 zs px.
Proof.
  unfold drawn. destruct exact_volume; rewrite !tile_value_scale; lra.
Qed.

Lemma draw_particle_particles (p : vec3) (r sgn : R) (s : psc) (px : pixel) :
  particles (draw_ p r sgn s) px
  = particles s px + sgn * contribution_ p r (zscale s) px.
Proof.
  unfold _draw_particle, contribution.
  destruct (Reqb r 0.0); simpl; [lra|].
  rewrite drawn_sign. reflexivity.
Qed.

Lemma draw_particle_frame (p : vec3) (r sgn : R) (s : psc) :
  pos (draw_ p r sgn s) = pos s /\ rad (draw_ p r sgn s) = rad s /\
  zscale (draw_ p r sgn s) = zscale s.
Proof. unfold _draw_particle. destruct (Reqb r 0.0); simpl; auto. Qed.

(** [initialize] renders the superposition of the particles. *)
Lemma initialize_fold (l : list (vec3 * R)) (s0 : psc) :
  let s' := fold_left (fun s' pr => draw_ (fst pr) (snd pr) 1 s') l s0 in
  pos s' = pos s0 /\ rad s' = rad s0 /\ zscale s' = zscale s0 /\
  forall px,
    particles s' px
    = particles s0 px
      + fold_right (fun pr acc =>
                      contribution_ (fst pr) (snd pr) (zscale s0) px + acc) 0 l.
Proof.
  revert s0. induction l as [|[p r] l IH]; intros s0; simpl.
  - repeat split. intros px. lra.
  - destruct (IH (draw_ p r 1 s0)) as (Hp & Hr & Hz & Hpx).
    destruct (draw_particle_frame p r 1 s0) as (Hp0 & Hr0 & Hz0).
    repeat split; try congruence.
    intros px. rewrite Hpx, draw_particle_particles, Hz0. lra.
Qed.

Lemma initialize_particles (s : psc) (px : pixel) :
  particles (initialize_ s) px
  = sum_over (seq 0 (List.length (combine (pos s) (rad s))))
      (fun i => at_index_ s i px).
Proof.
  unfold initialize.
  destruct (initialize_fold (combine (pos s) (rad s))
              (with_particles (fun _ => 0) s)) as (_ & _ & _ & Hpx).
  rewrite Hpx. simpl. rewrite Rplus_0_l.
  rewrite (fold_as_sum_over
             (fun pr => contribution_ (fst pr) (snd pr) (zscale s) px)).
  apply sum_over_ext. intros i _. unfold at_index.
  rewrite nth_error_combine.
  destruct (nth_error (pos s) i); [|reflexivity].
  destruct (nth_error (rad s) i); reflexivity.
Qed.

Lemma initialize_frame (s : psc) :
  pos (initialize_ s) = pos s /\ rad (initialize_ s) = rad s /\
  zscale (initialize_ s) = zscale s.
Proof.
  unfold initialize.
  destruct (initialize_fold (combine (pos s) (rad s))
              (with_particles (fun _ => 0) s)) as (Hp & Hr & Hz & _).
  simpl in *. auto.
Qed.

(** The field of [initialize] depends on [pos], [rad] and [zscale] only. *)
Lemma initialize_particles_ext (s s' : psc) (px : pixel) :
  pos s' = pos s -> rad s' = rad s -> zscale s' = zscale s ->
  particles (initialize_ s') px = particles (initialize_ s) px.
Proof.
  intros Hp Hr Hz. rewrite !initialize_particles, Hp, Hr.
  apply sum_over_ext. intros i _. unfold at_index. rewrite Hp, Hr, Hz.
  reflexivity.
Qed.

(** The erase loop and the redraw loop of [update]. *)
Lemma draw_each_spec (ns : list nat) (sgn : R) (s : psc) :
  (forall i, In i ns ->
     (i < List.length (pos s))%nat /\ (i < List.length (rad s))%nat) ->
  exists s',
    draw_each_ (map Some ns) sgn s = Ok s' /\
    pos s' = pos s /\ rad s' = rad s /\ zscale s' = zscale s /\
    forall px,
      particles s' px
      = particles s px + sgn * sum_over ns (fun i => at_index_ s i px).
Proof.
  revert s. induction ns as [|n ns IH]; intros s Hv; simpl.
  - exists s. repeat split. intros px. lra.
  - destruct (Hv n (or_introl eq_refl)) as [Hn1 Hn2].
    destruct (index_ok (pos s) Hn1) as (p & -> & Ep).
    destruct (index_ok (rad s) Hn2) as (r & -> & Er). simpl.
    destruct (draw_particle_frame p r sgn s) as (Hp0 & Hr0 & Hz0).
    destruct (IH (draw_ p r sgn s)) as (s' & -> & Hp & Hr & Hz & Hpx).
    { intros i Hi. rewrite Hp0, Hr0. apply Hv. right. exact Hi. }
    exists s'. split; [reflexivity|]. repeat split; try congruence.
    intros px. rewrite Hpx, draw_particle_particles.
    rewrite (@sum_over_ext ns (fun i => at_index_ (draw_ p r sgn s) i px)
               (fun i => at_index_ s i px)).
    2:{ intros i _. unfold at_index. rewrite Hp0, Hr0, Hz0. reflexivity. }
    unfold at_index at 2. rewrite Ep, Er. lra.
Qed.

Lemma set_value_spec (i : nat) (c : string) (v : R) (s : psc) :
  String.eqb c "zscale" = false ->
  (i < List.length (pos s))%nat -> (i < List.length (rad s))%nat ->
  exists s',
    set_value (Triple i c) v s = Ok s' /\
    particles s' = particles s /\ zscale s' = zscale s /\
    List.length (pos s') = List.length (pos s) /\
    List.length (rad s') = List.length (rad s) /\
    forall j, j <> i ->
      nth_error (pos s') j = nth_error (pos s) j /\
      nth_error (rad s') j = nth_error (rad s) j.
Proof.
  intros Hc Hp Hr. unfold set_value. cbn [_p2i]. rewrite Hc.
  destruct (String.eqb c "x");
    [destruct (@modify_at_ok _ i (set_coord 2 v) (pos s) Hp)
       as (l' & -> & Hl & Ho & _);
     eexists; split; [reflexivity|]; simpl; repeat split; auto|].
  destruct (String.eqb c "y");
    [destruct (@modify_at_ok _ i (set_coord 1 v) (pos s) Hp)
       as (l' & -> & Hl & Ho & _);
     eexists; split; [reflexivity|]; simpl; repeat split; auto|].
  destruct (String.eqb c "z");
    [destruct (@modify_at_ok _ i (set_coord 0 v) (pos s) Hp)
       as (l' & -> & Hl & Ho & _);
     eexists; split; [reflexivity|]; simpl; repeat split; auto|].
  destruct (String.eqb c "a");
    [destruct (@modify_at_ok _ i (fun _ => v) (rad s) Hr)
       as (l' & -> & Hl & Ho & _);
     eexists; split; [reflexivity|]; simpl; repeat split; auto|].
  exists s. repeat split; auto.
Qed.

(** [set_values] on per-particle names: it succeeds when the indices
    exist, and touches only the particles that are named. *)
Lemma set_values_spec (params : list param) (values : list R) (s : psc) :
  (forall p, In p params ->
     exists i c, p = Triple i c /\ String.eqb c "zscale" = false /\
                 (i < List.length (pos s))%nat /\
                 (i < List.length (rad s))%nat) ->
  exists s',
    set_values params values s = Ok s' /\
    particles s' = particles s /\ zscale s' = zscale s /\
    List.length (pos s') = List.length (pos s) /\
    List.length (rad s') = List.length (rad s) /\
    forall j, (forall c, ~ In (Triple j c) params) ->
      nth_error (pos s') j = nth_error (pos s) j /\
      nth_error (rad s') j = nth_error (rad s) j.
Proof.
  revert values s. induction params as [|p params IH]; intros values s Hv.
  - exists s. simpl. repeat split; auto.
  - destruct values as [|v values].
    + exists s. simpl. repeat split; auto.
    + destruct (Hv p (or_introl eq_refl)) as (i & c & -> & Hc & Hp & Hr).
      destruct (@set_value_spec i c v s Hc Hp Hr)
        as (s1 & E1 & Hpa & Hz & Hlp & Hlr & Hoth).
      destruct (IH values s1) as (s' & E2 & Hpa' & Hz' & Hlp' & Hlr' & Hoth').
      { intros q Hq. destruct (Hv q (or_intror Hq)) as (j & d & -> & ? & ? & ?).
        exists j, d. rewrite Hlp, Hlr. auto. }
      exists s'. simpl. rewrite E1. simpl. split; [exact E2|].
      do 4 (split; [congruence|]).
      intros j Hj.
      destruct (Hoth' j) as [H1 H1'].
      { intros d Hd. apply (Hj d). right. exact Hd. }
      destruct (Hoth j) as [H2 H2'].
      { intros ->. apply (Hj c). left. reflexivity. }
      split; congruence.
Qed.

(** [set_values] neither reads nor writes the field. *)
Lemma set_values_field (params : list param) (values : list R) (s : psc)
    (f : pixel -> R) :
  set_values params values (with_particles f s)
  = match set_values params values s with
    | Ok s' => Ok (with_particles f s')
    | Raise e => Raise e
    end.
Proof.
  revert values s. induction params as [|p params IH]; intros values s.
  - reflexivity.
  - destruct values as [|v values]; [reflexivity|]. simpl.
    assert (E : set_value p v (with_particles f s)
                = match set_value p v s with
                  | Ok s' => Ok (with_particles f s')
                  | Raise e => Raise e
                  end).
    { unfold set_value. destruct (_p2i p) as [typ ind]. simpl.
      repeat match goal with
             | |- context [if ?b then _ else _] => destruct b
             | |- context [modify_at ?i ?g ?l] => destruct (modify_at i g l)
             end; reflexivity. }
    rewrite E. destruct (set_value p v s) as [s1|e]; simpl; [apply IH | reflexivity].
Qed.

Lemma fold_orb_false {A} (f : A -> bool) (l : list A) (b : bool) :
  fold_left (fun acc x => (acc || f x)%bool) l b = false ->
  b = false /\ forall x, In x l -> f x = false.
Proof.
  revert b. induction l as [|y l IH]; intros b H; simpl in H.
  - split; [exact H | intros x []].
  - destruct (IH _ H) as [Hb Hl]. apply orb_false_iff in Hb.
    destruct Hb as [Hb Hy]. split; [exact Hb|].
    intros x [-> | Hx]; [exact Hy | apply Hl; exact Hx].
Qed.

Lemma nodup_map_Some (l : list nat) :
  nodup option_nat_eq_dec (map Some l) = map Some (nodup Nat.eq_dec l).
Proof.
  induction l as [|x l IH]; simpl; [reflexivity|].
  destruct (in_dec option_nat_eq_dec (Some x) (map Some l)) as [H | H];
    destruct (in_dec Nat.eq_dec x l) as [H' | H']; simpl; try congruence.
  - exfalso. apply in_map_iff in H. destruct H as (y & Hy & Hin).
    inversion Hy; subst. contradiction.
  - exfalso. apply H. apply in_map. exact H'.
Qed.

(** When no name is [zscale], the set of [_update_type] holds the indices
    of the named particles, each once. *)
Lemma update_type_particles (params : list param) :
  fst (_update_type params) = false ->
  (forall p, In p params ->
     exists i c, p = Triple i c /\ String.eqb c "zscale" = false) /\
  exists ns,
    snd (_update_type params) = map Some ns /\ NoDup ns /\
    forall i, In i ns <-> exists c, In (Triple i c) params.
Proof.
  unfold _update_type. simpl. intros H.
  apply fold_orb_false in H. destruct H as [_ H].
  assert (Hall : forall p, In p params ->
            exists i c, p = Triple i c /\ String.eqb c "zscale" = false).
  { intros p Hp. specialize (H p Hp). destruct p as [|i c].
    - simpl in H. discriminate.
    - exists i, c. split; [reflexivity | exact H]. }
  split; [exact Hall|].
  set (ix := fun p => match p with Triple i _ => i | Bare => 0%nat end).
  exists (nodup Nat.eq_dec (map ix params)).
  split; [|split].
  - rewrite <- nodup_map_Some. f_equal. rewrite map_map.
    apply map_ext_in. intros p Hp.
    destruct (Hall p Hp) as (i & c & -> & _). reflexivity.
  - apply NoDup_nodup.
  - intros i. rewrite nodup_In, in_map_iff. split.
    + intros (p & Hi & Hp). destruct (Hall p Hp) as (j & c & -> & _).
      simpl in Hi. subst. exists c. exact Hp.
    + intros (c & Hc). exists (Triple i c). split; [reflexivity | exact Hc].
Qed.

(** [initialize] renders the superposition of the particles. *)
Lemma initialize_superposition (s : psc) (px : pixel) :
  particles (initialize_ s) px = superposition_ s px.
Proof.
  unfold initialize, superposition.
  destruct (initialize_fold (combine (pos s) (rad s))
              (with_particles (fun _ => 0) s)) as (_ & _ & _ & Hpx).
  rewrite Hpx. simpl. lra.
Qed.

Lemma superposition_sum (s : psc) (px : pixel) :
  superposition_ s px
  = sum_over (seq 0 (List.length (combine (pos s) (rad s))))
      (fun i => at_index_ s i px).
Proof. rewrite <- initialize_superposition. apply initialize_particles. Qed.

(** The superposition depends on [pos], [rad] and [zscale] only. *)
Lemma superposition_ext (s s' : psc) (px : pixel) :
  pos s' = pos s -> rad s' = rad s -> zscale s' = zscale s ->
  superposition_ s' px = superposition_ s px.
Proof. intros Hp Hr Hz. unfold superposition. rewrite Hp, Hr, Hz. reflexivity. Qed.

(** An update of per-particle parameters: the erase pass takes away what
    the named particles had drawn, the redraw pass adds what they draw at
    the new values, and the field moves by exactly as much as the
    superposition does. *)
Lemma update_erase_redraw (params : list param) (values : list R) (s : psc) :
  fst (_update_type params) = false ->
  (forall i c, In (Triple i c) params ->
     (i < List.length (pos s))%nat /\ (i < List.length (rad s))%nat) ->
  exists s' s2 ns,
    update_ params values s = Ok s' /\
    set_values params values s = Ok s2 /\
    snd (_update_type params) = map Some ns /\
    pos s' = pos s2 /\ rad s' = rad s2 /\
    zscale s' = zscale s2 /\ zscale s' = zscale s /\
    (forall px,
       particles s' px
       = particles s px - sum_over ns (fun i => at_index_ s i px)
         + sum_over ns (fun i => at_index_ s' i px)) /\
    (forall px,
       particles s' px - superposition_ s' px
       = particles s px - superposition_ s px).
Proof.
  intros Hz Hvalid.
  destruct (update_type_particles params Hz) as (Hall & ns & Ens & Hnd & Hns).
  unfold update. destruct (_update_type params) as [dz nso] eqn:Eut.
  simpl in Hz, Ens. subst dz nso.
  assert (Hv : forall i, In i ns ->
            (i < List.length (pos s))%nat /\ (i < List.length (rad s))%nat).
  { intros i Hi. apply Hns in Hi. destruct Hi as (c & Hc). eauto. }
  destruct (@draw_each_spec ns (-1) s Hv) as (s1 & -> & Hp1 & Hr1 & Hz1 & Hpx1).
  simpl.
  destruct (@set_values_spec params values s)
    as (s2 & E2 & Hpa2 & Hz2 & Hlp2 & Hlr2 & Hoth2).
  { intros p Hp. destruct (Hall p Hp) as (i & c & -> & Hc).
    destruct (Hvalid i c Hp). exists i, c. auto. }
  assert (Es1 : s1 = with_particles (particles s1) s).
  { destruct s1; simpl in *. unfold with_particles. congruence. }
  rewrite Es1, set_values_field, E2. simpl.
  set (s2' := with_particles (particles s1) s2).
  assert (Hv2 : forall i, In i ns ->
            (i < List.length (pos s2'))%nat /\ (i < List.length (rad s2'))%nat).
  { intros i Hi. simpl. rewrite Hlp2, Hlr2. apply Hv. exact Hi. }
  destruct (@draw_each_spec ns 1 s2' Hv2) as (s' & -> & Hp' & Hr' & Hz' & Hpx').
  exists s', s2, ns. split; [reflexivity|]. split; [reflexivity|].
  split; [reflexivity|].
  simpl in Hp', Hr', Hz'.
  assert (Hat : forall i px, at_index_ s' i px = at_index_ s2 i px).
  { intros i px. unfold at_index. rewrite Hp', Hr', Hz'. reflexivity. }
  assert (Hdelta : forall px,
            particles s' px
            = particles s px - sum_over ns (fun i => at_index_ s i px)
              + sum_over ns (fun i => at_index_ s' i px)).
  { intros px. rewrite Hpx'. simpl. rewrite Hpx1.
    rewrite (@sum_over_ext ns (fun i => at_index_ s' i px)
               (fun i => at_index_ s2 i px)) by (intros; apply Hat).
    rewrite (@sum_over_ext ns (fun i => at_index_ s2' i px)
               (fun i => at_index_ s2 i px)) by reflexivity.
    lra. }
  repeat split; try congruence.
  - exact Hdelta.
  - intros px. rewrite Hdelta.
    rewrite (@superposition_ext s2 s' px) by congruence.
    rewrite !superposition_sum.
    rewrite (length_combine (pos s2) (rad s2)), Hlp2, Hlr2,
      <- (length_combine (pos s) (rad s)).
    set (l := seq 0 (List.length (combine (pos s) (rad s)))).
    rewrite (@sum_over_ext ns (fun i => at_index_ s' i px)
               (fun i => at_index_ s2 i px)) by (intros; apply Hat).
    assert (Hsup : sum_over l (fun i => at_index_ s2 i px + -1 * at_index_ s i px)
                   = sum_over ns (fun i => at_index_ s2 i px + -1 * at_index_ s i px)).
    { apply sum_over_support; auto.
      - apply seq_NoDup.
      - intros i Hi. apply in_seq. rewrite length_combine.
        destruct (Hv i Hi). lia.
      - intros i Hi. unfold at_index.
        destruct (Hoth2 i) as [Ep Er].
        { intros c Hc. apply Hi. apply Hns. exists c. exact Hc. }
        rewrite Ep, Er, Hz2. lra. }
    rewrite !sum_over_plus, !sum_over_scale in Hsup. lra.
Qed.

Variable parent_update : list param -> list R -> psc -> result psc.

Local Abbreviation remove_particle_ :=
  (remove_particle support_pad exact_volume volume_error max_radius_change
     sphere_function inner_l tile_slicer rvecs false parent_update).
Local Abbreviation add_particle_ :=
  (add_particle support_pad exact_volume volume_error max_radius_change
     sphere_function inner_l tile_slicer rvecs false parent_update).

Lemma argmin_from_bound (best : nat) (bv : R) (i : nat) (l : list R) :
  (best < i)%nat -> (argmin_from best bv i l < i + List.length l)%nat.
Proof.
  revert best bv i. induction l as [|x l IH]; intros best bv i Hb; simpl.
  - lia.
  - destruct (Rltb x bv).
    + specialize (IH i x (S i)). lia.
    + specialize (IH best bv (S i)). lia.
Qed.

Lemma closest_particle_ok (x : vec3) (s : psc) :
  pos s <> [] ->
  exists k, closest_particle x s = Ok k /\ (k < List.length (pos s))%nat.
Proof.
  intros Hne. unfold closest_particle, argmin.
  destruct (pos s) as [|q ps]; [contradiction|]. simpl.
  eexists. split; [reflexivity|].
  pose proof (@argmin_from_bound 0 (dist2 q x) 1
                (map (fun p => dist2 p x) ps)) as H.
  rewrite length_map in H. lia.
Qed.

(** The values of the four parameters of an existing particle. *)
Lemma get_values_particle (k : nat) (s : psc) :
  (k < List.length (pos s))%nat -> (k < List.length (rad s))%nat ->
  exists x y z a,
    get_values (param_particle k s) s = Ok [x; y; z; a].
Proof.
  intros Hp Hr. unfold param_particle, _vps, N. simpl.
  rewrite (proj2 (Nat.ltb_lt k (List.length (rad s))) Hr). simpl.
  unfold get_value. simpl.
  destruct (index_ok (pos s) Hp) as (q & -> & _).
  destruct (index_ok (rad s) Hr) as (a & -> & _). simpl.
  do 4 eexists. reflexivity.
Qed.

Lemma length_delete_at {A} (i : nat) (l : list A) :
  (i < List.length l)%nat ->
  List.length (delete_at i l) = (List.length l - 1)%nat.
Proof.
  revert i. induction l as [|x l IH]; intros i Hi; simpl in Hi; [lia|].
  destruct i as [|i]; simpl; [lia|]. rewrite IH by lia. lia.
Qed.

Lemma combine_delete_at {A B} (i : nat) (l : list A) (l' : list B) :
  List.length l = List.length l' ->
  combine (delete_at i l) (delete_at i l') = delete_at i (combine l l').
Proof.
  revert i l'. induction l as [|x l IH]; intros i [|y l'] H;
    simpl in H; try discriminate.
  - destruct i; reflexivity.
  - destruct i as [|i]; simpl; [reflexivity|].
    rewrite IH by congruence. reflexivity.
Qed.

Lemma combine_app_one {A B} (l : list A) (l' : list B) (a : A) (b : B) :
  List.length l = List.length l' ->
  combine (l ++ [a]) (l' ++ [b]) = combine l l' ++ [(a, b)].
Proof.
  revert l'. induction l as [|x l IH]; intros [|y l'] H;
    simpl in H; try discriminate; simpl.
  - reflexivity.
  - rewrite IH by congruence. reflexivity.
Qed.

Lemma fold_delete_at {A} (g : A -> R) (i : nat) (l : list A) (x : A) :
  nth_error l i = Some x ->
  fold_right (fun y acc => g y + acc) 0 l
  = g x + fold_right (fun y acc => g y + acc) 0 (delete_at i l).
Proof.
  revert i. induction l as [|y l IH]; intros [|i] H; simpl in H;
    try discriminate; simpl.
  - inversion H. reflexivity.
  - rewrite (IH i H). lra.
Qed.

Lemma fold_app_one {A} (g : A -> R) (l : list A) (x : A) :
  fold_right (fun y acc => g y + acc) 0 (l ++ [x])
  = fold_right (fun y acc => g y + acc) 0 l + g x.
Proof. induction l as [|y l IH]; simpl; [lra | rewrite IH; lra]. Qed.

(** A particle of radius zero contributes nothing. *)
Lemma contribution_zero_radius (p : vec3) (zs : R) (px : pixel) :
  contribution_ p 0.0 zs px = 0.
Proof.
  unfold contribution.
  replace (Reqb 0.0 0.0) with true
    by (symmetry; apply Reqb_true_iff; reflexivity).
  reflexivity.
Qed.

(** Taking a particle out of the arrays takes its contribution out of the
    superposition. *)
Lemma superposition_delete (ind : nat) (p : vec3) (r : R) (s s1 : psc)
    (px : pixel) :
  List.length (pos s) = List.length (rad s) ->
  nth_error (pos s) ind = Some p -> nth_error (rad s) ind = Some r ->
  pos s1 = delete_at ind (pos s) -> rad s1 = delete_at ind (rad s) ->
  zscale s1 = zscale s ->
  superposition_ s px = contribution_ p r (zscale s) px + superposition_ s1 px.
Proof.
  intros Hlen Ep Er Hp1 Hr1 Hz1. unfold superposition.
  rewrite Hp1, Hr1, Hz1, combine_delete_at by exact Hlen.
  apply (@fold_delete_at _
           (fun pr => contribution_ (fst pr) (snd pr) (zscale s) px) ind
           (combine (pos s) (rad s)) (p, r)).
  rewrite nth_error_combine, Ep, Er. reflexivity.
Qed.

(** Appending a particle adds its contribution, at the radius stored. *)
Lemma superposition_append (p : vec3) (a : R) (s1 s2 : psc) (px : pixel) :
  List.length (pos s1) = List.length (rad s1) ->
  pos s2 = pos s1 ++ [p] -> rad s2 = rad s1 ++ [a] ->
  zscale s2 = zscale s1 ->
  superposition_ s2 px = superposition_ s1 px + contribution_ p a (zscale s1) px.
Proof.
  intros Hlen Hp2 Hr2 Hz2. unfold superposition.
  rewrite Hp2, Hr2, Hz2, combine_app_one by exact Hlen.
  apply (@fold_app_one _
           (fun pr => contribution_ (fst pr) (snd pr) (zscale s1) px)
           (combine (pos s1) (rad s1)) (p, a)).
Qed.

(** A collection without parent: [remove_particle] takes the particle out
    of the arrays and its drawing out of the field; [add_particle] at the
    same position and radius draws it again and puts it last in the
    arrays, with the radius [rad] when the collection was empty and with
    the radius 0.0 otherwise. *)
Lemma remove_add_state (ind : nat) (p : vec3) (r : R) (s : psc) :
  List.length (pos s) = List.length (rad s) ->
  nth_error (pos s) ind = Some p ->
  nth_error (rad s) ind = Some r ->
  exists s1 s2 k,
    remove_particle_ ind s = Ok s1 /\
    pos s1 = delete_at ind (pos s) /\ rad s1 = delete_at ind (rad s) /\
    zscale s1 = zscale s /\
    (forall px,
       particles s1 px = particles s px - contribution_ p r (zscale s) px) /\
    add_particle_ p r s1 = Ok (s2, k) /\
    pos s2 = pos s1 ++ [p] /\
    rad s2 = match rad s1 with [] => [r] | _ :: _ => rad s1 ++ [0.0] end /\
    zscale s2 = zscale s /\
    (forall px,
       particles s2 px = particles s1 px + contribution_ p r (zscale s) px).
Proof.
  intros Hlen Ep Er.
  assert (Hip : (ind < List.length (pos s))%nat)
    by (apply nth_error_Some; congruence).
  assert (Hir : (ind < List.length (rad s))%nat)
    by (apply nth_error_Some; congruence).
  (* the removal *)
  unfold remove_particle.
  assert (E0 : Nat.eqb (List.length (rad s)) 0 = false)
    by (apply Nat.eqb_neq; lia).
  rewrite E0. unfold index at 1 2. rewrite Ep, Er. simpl.
  destruct (get_values_particle s Hip Hir) as (x & y & z & a & ->). simpl.
  unfold trigger_update. simpl.
  set (s0 := mk_psc (delete_at ind (pos s)) (delete_at ind (rad s))
               (zscale s) (particles s)).
  set (s1 := draw_ p r (-1) s0).
  destruct (draw_particle_frame p r (-1) s0) as (Hp1 & Hr1 & Hz1).
  fold s1 in Hp1, Hr1, Hz1. simpl in Hp1, Hr1, Hz1.
  assert (Hpa1 : forall px,
            particles s1 px = particles s px - contribution_ p r (zscale s) px).
  { intros px. unfold s1. rewrite draw_particle_particles. simpl. lra. }
  assert (Hl1 : List.length (pos s1) = List.length (rad s1)).
  { rewrite Hp1, Hr1, !length_delete_at by assumption. lia. }
  exists s1.
  (* the addition *)
  unfold add_particle.
  set (s1' := if Nat.eqb (List.length (rad s1)) 0
              then mk_psc [p] [r] (zscale s1) (particles s1)
              else mk_psc (pos s1 ++ [p]) (rad s1 ++ [0.0]) (zscale s1)
                     (particles s1)).
  assert (Hs1' : zscale s1' = zscale s /\ particles s1' = particles s1 /\
                 pos s1' = pos s1 ++ [p] /\
                 rad s1' = match rad s1 with
                           | [] => [r]
                           | _ :: _ => rad s1 ++ [0.0]
                           end /\
                 List.length (pos s1') = List.length (rad s1')).
  { unfold s1'. destruct (rad s1) as [|r0 rs] eqn:Erad; simpl.
    - destruct (pos s1); [|discriminate]. repeat split. congruence.
    - repeat split; [congruence|].
      rewrite !length_app, Hl1. simpl. lia. }
  destruct Hs1' as (Hz' & Hpa' & Hpos' & Hrad' & Hlen').
  simpl negb. cbv iota.
  set (s2 := draw_ p r 1 s1').
  destruct (draw_particle_frame p r 1 s1') as (Hp2 & Hr2 & Hz2).
  fold s2 in Hp2, Hr2, Hz2.
  assert (Hne : pos s2 <> []).
  { rewrite Hp2, Hpos'. destruct (pos s1); discriminate. }
  destruct (@closest_particle_ok p s2 Hne) as (k & -> & Hk).
  simpl.
  destruct (@get_values_particle k s2) as (x' & y' & z' & a' & ->);
    [exact Hk | rewrite Hr2, <- Hlen', <- Hp2; exact Hk |].
  simpl. exists s2, k.
  split; [reflexivity|]. split; [exact Hp1|]. split; [exact Hr1|].
  split; [exact Hz1|]. split; [exact Hpa1|]. split; [reflexivity|].
  split; [congruence|]. split; [congruence|]. split; [congruence|].
  intros px. unfold s2. rewrite draw_particle_particles, Hpa', Hz'. lra.
Qed.

(** C1.  [initialize] renders the superposition of the particles'
    contributions, and from a field that is this superposition
    [update(params, values)] with no name [zscale] succeeds (the named
    particles exist), takes away what the named particles had drawn, adds
    what they draw at the new values, and leaves the superposition again,
    which is the field of a fresh [initialize], [zscale] unchanged; an
    update that names [zscale] renders afresh.  In a collection without
    parent, removing a particle leaves the superposition of the others,
    and adding it again at the same position and radius gives back the
    field.  The claim fails after that addition: the particle is stored
    with the radius it is given only when the collection was empty; next
    to other particles [add_particle] stores 0.0, and the field exceeds
    the superposition of the stored particles by the contribution of the
    particle added again. *)
Theorem superposition_invariant (params : list param) (values : list R)
    (s : psc) (ind : nat) (p : vec3) (r : R) :
  (forall px, particles s px = superposition_ s px) ->
  fst (_update_type params) = false ->
  (forall i c, In (Triple i c) params ->
     (i < List.length (pos s))%nat /\ (i < List.length (rad s))%nat) ->
  List.length (pos s) = List.length (rad s) ->
  nth_error (pos s) ind = Some p ->
  nth_error (rad s) ind = Some r ->
  (forall s0 px, particles (initialize_ s0) px = superposition_ s0 px) /\
  (exists s' s2 ns,
     update_ params values s = Ok s' /\
     set_values params values s = Ok s2 /\
     snd (_update_type params) = map Some ns /\
     pos s' = pos s2 /\ rad s' = rad s2 /\
     zscale s' = zscale s2 /\ zscale s' = zscale s /\
     (forall px,
        particles s' px
        = particles s px - sum_over ns (fun i => at_index_ s i px)
          + sum_over ns (fun i => at_index_ s' i px)) /\
     (forall px, particles s' px = superposition_ s' px) /\
     (forall px, particles s' px = particles (initialize_ s') px)) /\
  (exists s1 s2 k,
     remove_particle_ ind s = Ok s1 /\
     pos s1 = delete_at ind (pos s) /\ rad s1 = delete_at ind (rad s) /\
     (forall px,
        particles s1 px = particles s px - contribution_ p r (zscale s) px) /\
     (forall px, particles s1 px = superposition_ s1 px) /\
     add_particle_ p r s1 = Ok (s2, k) /\
     pos s2 = pos s1 ++ [p] /\
     rad s2 = match rad s1 with [] => [r] | _ :: _ => rad s1 ++ [0.0] end /\
     zscale s2 = zscale s /\
     (forall px, particles s2 px = particles s px) /\
     (forall px,
        particles s2 px
        = superposition_ s2 px
          + match rad s1 with
            | [] => 0
            | _ :: _ => contribution_ p r (zscale s) px
            end)) /\
  (forall params' s2,
     fst (_update_type params') = true ->
     set_values params' values s = Ok s2 ->
     update_ params' values s = Ok (initialize_ s2)).
Proof.
  intros Hinv Hz Hvalid Hlen Ep Er. split; [|split; [|split]].
  - apply initialize_superposition.
  - destruct (@update_erase_redraw params values s Hz Hvalid)
      as (s' & s2 & ns & E1 & E2 & Ens & Hp & Hr & Hz2 & Hzs & Hd & Hdef).
    assert (Hsup : forall px, particles s' px = superposition_ s' px).
    { intros px. pose proof (Hdef px) as H. rewrite (Hinv px) in H. lra. }
    exists s', s2, ns. repeat split; auto.
    intros px. rewrite initialize_superposition. apply Hsup.
  - destruct (@remove_add_state ind p r s Hlen Ep Er)
      as (s1 & s2 & k & E1 & Hp1 & Hr1 & Hz1 & Hpa1 & E2 & Hp2 & Hr2 & Hz2
          & Hpa2).
    assert (Hl1 : List.length (pos s1) = List.length (rad s1)).
    { assert (ind < List.length (pos s))%nat
        by (apply nth_error_Some; congruence).
      rewrite Hp1, Hr1, !length_delete_at by lia. lia. }
    assert (Hs1 : forall px, particles s1 px = superposition_ s1 px).
    { intros px. rewrite Hpa1, Hinv.
      rewrite (@superposition_delete ind p r s s1 px Hlen Ep Er Hp1 Hr1 Hz1).
      lra. }
    exists s1, s2, k. repeat split; auto.
    + intros px. rewrite Hpa2, Hpa1. lra.
    + intros px. rewrite Hpa2, Hs1.
      destruct (rad s1) as [|r0 rs] eqn:Erad.
      * destruct (pos s1) as [|q qs] eqn:Epos; [|discriminate].
        unfold superposition. rewrite Hp2, Hr2, Epos, Erad, Hz2. simpl. lra.
      * rewrite (@superposition_append p 0.0 s1 s2 px); try congruence.
        rewrite contribution_zero_radius. lra.
  - intros params' s2 Hdz E. unfold update.
    destruct (_update_type params') as [dz ns]. simpl in Hdz. subst dz.
    rewrite E. reflexivity.
Qed.

End CollectionFacts.

(** The distance that [inner] returns when [zscale] is 1. *)

Section InnerFacts.
Open Scope R_scope.
Import Platonic.

Lemma abs_times_sign (x : R) : Rabs x * sign x = x.
Proof.
  unfold sign. destruct (Rltb x 0) eqn:E1.
  - apply Rltb_true_iff in E1. rewrite Rabs_left by lra. lra.
  - apply Rltb_false_iff in E1. destruct (Rltb 0 x) eqn:E2.
    + apply Rltb_true_iff in E2. rewrite Rabs_right by lra. lra.
    + apply Rltb_false_iff in E2. assert (x = 0) by lra. subst.
      rewrite Rabs_R0. lra.
Qed.

Lemma inner_signed_distance (r p : vec3) (a : R) :
  let d := vmap2 Rminus (vmap2 Rminus r p) (1e-8, 1e-8, 1e-8) in
  norm d <> 0 ->
  inner r p a 1 = norm d - a.
Proof.
  destruct r as [[r0 r1] r2]. destruct p as [[p0 p1] p2].
  unfold inner. cbn [vmap2 vmap norm]. intros Hn.
  set (x0 := r0 - p0 - 1e-8) in *.
  set (x1 := r1 - p1 - 1e-8) in *.
  set (x2 := r2 - p2 - 1e-8) in *.
  replace ((r0 - p0 - 1 * 1e-8) * 1) with x0 by (unfold x0; lra).
  replace ((r1 - p1 - 1 * 1e-8) * 1) with x1 by (unfold x1; lra).
  replace ((r2 - p2 - 1 * 1e-8) * 1) with x2 by (unfold x2; lra).
  set (S := x0 ^ 2 + x1 ^ 2 + x2 ^ 2) in *.
  assert (HS : 0 <= S) by (unfold S; nra).
  set (n := sqrt S) in *.
  assert (Hnn : n * n = S) by (apply sqrt_sqrt; exact HS).
  assert (Hi : n * / n = 1) by (apply Rinv_r; exact Hn).
  match goal with
  | |- sqrt ?e * _ = _ => replace e with (Rsqr (n - a))
  end.
  - rewrite sqrt_Rsqr_abs. apply abs_times_sign.
  - unfold Rsqr, Rdiv. rewrite Rinv_1.
    transitivity ((1 - a * / n) * (1 - a * / n) * S); [|unfold S; ring].
    rewrite <- Hnn.
    transitivity ((n * (1 - a * / n)) * (n * (1 - a * / n))); [|ring].
    replace (n * (1 - a * / n)) with (n - a * (n * / n)) by ring.
    rewrite Hi. ring.
Qed.

End InnerFacts.

Section CollectionWitness.
Open Scope R_scope.
Import Platonic.

Local Abbreviation demo_initialize :=
  (initialize 2 false 1e-5 1e-2 demo_sphere_function (0, 0, 0)
     demo_tile_slicer demo_rvecs).
Local Abbreviation demo_superposition :=
  (superposition 2 false 1e-5 1e-2 demo_sphere_function (0, 0, 0)
     demo_tile_slicer demo_rvecs).
Local Abbreviation demo_contribution :=
  (contribution 2 false 1e-5 1e-2 demo_sphere_function (0, 0, 0)
     demo_tile_slicer demo_rvecs).
Local Abbreviation demo_at_index :=
  (at_index 2 false 1e-5 1e-2 demo_sphere_function (0, 0, 0)
     demo_tile_slicer demo_rvecs).
Local Abbreviation demo_update :=
  (update 2 false 1e-5 1e-2 demo_sphere_function (0, 0, 0)
     demo_tile_slicer demo_rvecs).
Local Abbreviation demo_remove :=
  (remove_particle 2 false 1e-5 1e-2 demo_sphere_function (0, 0, 0)
     demo_tile_slicer demo_rvecs false (fun _ _ s => Ok s)).
Local Abbreviation demo_add :=
  (add_particle 2 false 1e-5 1e-2 demo_sphere_function (0, 0, 0)
     demo_tile_slicer demo_rvecs false (fun _ _ s => Ok s)).

Lemma demo_pair_superposition (px : pixel) :
  particles demo_pair px = demo_superposition demo_pair px.
Proof.
  unfold demo_pair. cbv zeta. simpl particles.
  rewrite initialize_superposition. apply superposition_ext; reflexivity.
Qed.

Lemma superposition_invariant_witness :
  (forall s0 px, particles (demo_initialize s0) px = demo_superposition s0 px) /\
  (exists s' s2 ns,
     demo_update [Triple 0 "a"] [2] demo_pair = Ok s' /\
     set_values [Triple 0 "a"] [2] demo_pair = Ok s2 /\
     snd (_update_type [Triple 0 "a"]) = map Some ns /\
     pos s' = pos s2 /\ rad s' = rad s2 /\
     zscale s' = zscale s2 /\ zscale s' = zscale demo_pair /\
     (forall px,
        particles s' px
        = particles demo_pair px
          - sum_over ns (fun i => demo_at_index demo_pair i px)
          + sum_over ns (fun i => demo_at_index s' i px)) /\
     (forall px, particles s' px = demo_superposition s' px) /\
     (forall px, particles s' px = particles (demo_initialize s') px)) /\
  (exists s1 s2 k,
     demo_remove 0%nat demo_pair = Ok s1 /\
     pos s1 = delete_at 0 (pos demo_pair) /\
     rad s1 = delete_at 0 (rad demo_pair) /\
     (forall px,
        particles s1 px
        = particles demo_pair px
          - demo_contribution (0, 0, 0) 1 (zscale demo_pair) px) /\
     (forall px, particles s1 px = demo_superposition s1 px) /\
     demo_add (0, 0, 0) 1 s1 = Ok (s2, k) /\
     pos s2 = pos s1 ++ [(0, 0, 0)] /\
     rad s2 = match rad s1 with [] => [1] | _ :: _ => rad s1 ++ [0.0] end /\
     zscale s2 = zscale demo_pair /\
     (forall px, particles s2 px = particles demo_pair px) /\
     (forall px,
        particles s2 px
        = demo_superposition s2 px
          + match rad s1 with
            | [] => 0
            | _ :: _ => demo_contribution (0, 0, 0) 1 (zscale demo_pair) px
            end)) /\
  (forall params' s2,
     fst (_update_type params') = true ->
     set_values params' [2] demo_pair = Ok s2 ->
     demo_update params' [2] demo_pair = Ok (demo_initialize s2)).
Proof.
  apply (@superposition_invariant 2 false 1e-5 1e-2 demo_sphere_function
           (0, 0, 0) demo_tile_slicer demo_rvecs (fun _ _ s => Ok s)
           [Triple 0 "a"] [2] demo_pair 0%nat (0, 0, 0) 1).
  - exact demo_pair_superposition.
  - reflexivity.
  - intros i c [H | []]. inversion H; subst. simpl. lia.
  - reflexivity.
  - reflexivity.
  - reflexivity.
Defined.

(** The first particle of [demo_pair] covers the pixel (0, 0, 0). *)
Lemma demo_contribution_centre :
  demo_contribution (0, 0, 0) 1 1 (0, 0, 0)%Z = 1.
Proof.
  unfold contribution.
  replace (Reqb 1 0.0) with false by (symmetry; apply Reqb_false_iff; lra).
  unfold drawn, demo_tile_slicer, demo_sphere_function, demo_rvecs, _trans.
  cbn [map tile_value pixel_eqb Z.eqb andb vmap2 vmap].
  pose proof (@inner_signed_distance (0, 0, 0) (0 + 0, 0 + 0, 0 + 0) 1) as H.
  cbv zeta in H. cbn [vmap2 norm] in H.
  set (S := (0 - (0 + 0) - 1e-8) ^ 2 + (0 - (0 + 0) - 1e-8) ^ 2
            + (0 - (0 + 0) - 1e-8) ^ 2) in *.
  assert (HS : 0 < S < 1) by (unfold S; lra).
  assert (H0 : 0 < sqrt S) by (apply sqrt_lt_R0; lra).
  assert (H1 : sqrt S < 1).
  { rewrite <- sqrt_1. apply sqrt_lt_1_alt. lra. }
  rewrite H by lra.
  replace (Rltb (sqrt S - 1) 0) with true
    by (symmetry; apply Rltb_true_iff; lra).
  simpl. lra.
Qed.

(** The failing input of C1.  In [demo_pair], a collection without
    parent, the first particle is removed and added again at the same
    position and radius.  The field comes back, but the particle is stored
    with radius 0.0: at pixel (0, 0, 0) the field exceeds the superposition
    of the stored particles by 1, the contribution of that particle.  An
    update that now sets its radius to 1 erases nothing and draws it a
    second time, so that the field is 1 above what [initialize] renders. *)
Example readded_particle_is_stored_with_radius_zero :
  exists s1 s2 k s3,
    demo_remove 0%nat demo_pair = Ok s1 /\
    demo_add (0, 0, 0) 1 s1 = Ok (s2, k) /\
    pos s2 = [(0, 0, 1); (0, 0, 0)] /\ rad s2 = [1; 0.0] /\
    (forall px, particles s2 px = particles demo_pair px) /\
    particles s2 (0, 0, 0)%Z = demo_superposition s2 (0, 0, 0)%Z + 1 /\
    demo_update [Triple 1 "a"] [1] s2 = Ok s3 /\
    pos s3 = [(0, 0, 1); (0, 0, 0)] /\ rad s3 = [1; 1] /\
    particles s3 (0, 0, 0)%Z = particles (demo_initialize s3) (0, 0, 0)%Z + 1.
Proof.
  destruct (@remove_add_state 2 false 1e-5 1e-2 demo_sphere_function
              (0, 0, 0) demo_tile_slicer demo_rvecs (fun _ _ s => Ok s)
              0%nat (0, 0, 0) 1 demo_pair eq_refl eq_refl eq_refl)
    as (s1 & s2 & k & E1 & Hp1 & Hr1 & Hz1 & Hpa1 & E2 & Hp2 & Hr2 & Hz2
        & Hpa2).
  simpl in Hp1, Hr1, Hz1, Hz2.
  rewrite Hp1 in Hp2. rewrite Hr1 in Hr2. simpl in Hp2, Hr2.
  assert (Hs1 : forall px, particles s1 px = demo_superposition s1 px).
  { intros px. rewrite Hpa1, demo_pair_superposition.
    rewrite (@superposition_delete 2 false 1e-5 1e-2 demo_sphere_function
               (0, 0, 0) demo_tile_slicer demo_rvecs 0%nat (0, 0, 0) 1
               demo_pair s1 px eq_refl eq_refl eq_refl Hp1 Hr1 Hz1).
    lra. }
  assert (Hdef : forall px,
            particles s2 px
            = demo_superposition s2 px + demo_contribution (0, 0, 0) 1 1 px).
  { intros px. rewrite Hpa2, Hs1.
    rewrite (@superposition_append 2 false 1e-5 1e-2 demo_sphere_function
               (0, 0, 0) demo_tile_slicer demo_rvecs (0, 0, 0) 0.0 s1 s2 px).
    - rewrite contribution_zero_radius. simpl. lra.
    - rewrite Hp1, Hr1. reflexivity.
    - rewrite Hp1. exact Hp2.
    - rewrite Hr1. exact Hr2.
    - congruence. }
  destruct (@update_erase_redraw 2 false 1e-5 1e-2 demo_sphere_function
              (0, 0, 0) demo_tile_slicer demo_rvecs [Triple 1 "a"] [1] s2)
    as (s3 & s2' & ns & E3 & Es & _ & Hp3 & Hr3 & _ & _ & _ & Hkeep).
  { reflexivity. }
  { intros i c [H | []]. inversion H; subst. rewrite Hp2, Hr2. simpl. lia. }
  assert (Es2' : pos s2' = pos s2 /\ rad s2' = [1; 1]).
  { revert Es. unfold set_values, set_value. cbn [_p2i String.eqb Ascii.eqb Bool.eqb].
    rewrite Hr2. simpl. intros H. inversion H. simpl. split; reflexivity. }
  destruct Es2' as [Hp2' Hr2'].
  exists s1, s2, k, s3.
  split; [exact E1|]. split; [exact E2|]. split; [exact Hp2|].
  split; [exact Hr2|]. split.
  { intros px. rewrite Hpa2, Hpa1. simpl. lra. }
  split; [rewrite Hdef, demo_contribution_centre; reflexivity|].
  split; [exact E3|].
  split; [rewrite Hp3, Hp2'; exact Hp2|].
  split; [rewrite Hr3; exact Hr2'|].
  rewrite initialize_superposition.
  pose proof (Hkeep (0, 0, 0)%Z) as H. rewrite Hdef in H.
  rewrite demo_contribution_centre in H. lra.
Qed.

End CollectionWitness.

(** ** The Levenberg-Marquardt engine *)

Section EngineFacts.
Open Scope R_scope.
Import LM.

Variable M : Type.
Variable Jac : Type.
Variable opt : options.
Variable update_function : M -> list R -> M * list R * R.
Variable calc_residuals : M -> Jac -> list R.
Variable J_dot : Jac -> list R -> list R.
Variable lm_solve : Jac -> list R -> list R -> option (list bool) -> list R.
Variable accel_solve :
  Jac -> list R -> option (list bool) -> list R -> list R.
Variable refresh_J : engine M Jac -> Jac * M * list R.
Variable refresh_J_internal : engine M Jac -> Jac * M * list R.
Variable mark_stale : Jac -> Jac.
Variable calc_model_cosine : engine M Jac -> R.

Local Abbreviation check_terminate_ := (check_terminate opt calc_model_cosine).
Local Abbreviation check_completion_ := (check_completion opt calc_model_cosine).
Local Abbreviation find_LM_updates_ :=
  (find_LM_updates opt update_function calc_residuals J_dot lm_solve accel_solve).
Local Abbreviation calc_grad_ := (calc_grad calc_residuals J_dot).
Local Abbreviation run1_first_ :=
  (run1_first opt update_function calc_residuals J_dot lm_solve accel_solve
     refresh_J).
Local Abbreviation run1_try_ :=
  (run1_try opt update_function calc_residuals J_dot lm_solve accel_solve).
Local Abbreviation run1_retry_ :=
  (run1_retry opt update_function calc_residuals J_dot lm_solve accel_solve).
Local Abbreviation run1_revert_ := (run1_revert update_function).
Local Abbreviation run1_accept_ := (run1_accept opt mark_stale).
Local Abbreviation _run1_ :=
  (_run1 opt update_function calc_residuals J_dot lm_solve accel_solve
     refresh_J mark_stale).
Local Abbreviation internal_step_ :=
  (internal_step opt update_function calc_residuals J_dot lm_solve accel_solve
     refresh_J_internal mark_stale).

(** *** Termination *)

Lemma check_terminate_before_first_step (e : engine M Jac) :
  _has_run e = false -> check_terminate_ e = Ok false.
Proof. intros H. unfold check_terminate. rewrite H. reflexivity. Qed.

(** Without [costol], [check_terminate] is the disjunction of the three
    tolerances and of the iteration cap. *)
Lemma check_terminate_without_costol (e : engine M Jac) :
  _has_run e = true -> costol opt = None ->
  check_terminate_ e
  = Ok (forallb (fun d => Rltb (Rabs d) (paramtol opt)) (delta_vals e)
        || Rltb (delta_err e) (errtol opt)
        || xlt (frac_err e) (fractol opt)
        || Z.leb (max_iter opt) (_num_iter e))%bool.
Proof.
  intros Hr Hc. unfold check_terminate, check_completion.
  rewrite Hr, Hc. reflexivity.
Qed.

(** C2 fails on the code when [costol] is set: [check_completion] reads
    the name [curcos], which nothing binds, so that once a step has run
    [check_terminate] raises [NameError] instead of returning a flag. *)
Theorem check_terminate_with_costol (e : engine M Jac) (c : R) :
  _has_run e = true -> costol opt = Some c ->
  check_terminate_ e = Raise NameError.
Proof.
  intros Hr Hc. unfold check_terminate, check_completion.
  rewrite Hr, Hc. reflexivity.
Qed.

(** *** Steps without the acceleration correction *)

Lemma find_LM_updates_plain (grad : list R) (dcd : bool) (e : engine M Jac) :
  use_accel opt = false ->
  find_LM_updates_ grad dcd None e
  = Ok (e, lm_solve (jac e) (damping e) grad None).
Proof. intros H. unfold find_LM_updates. simpl. rewrite H. reflexivity. Qed.

Lemma eval_at_eq (vals : list R) (e : engine M Jac) :
  eval_at update_function vals e
  = (set_model (fst (fst (update_function (model e) vals))) e,
     snd (update_function (model e) vals)).
Proof.
  unfold eval_at. destruct (update_function (model e) vals) as [[m v] er].
  reflexivity.
Qed.

Lemma eval_current_eq (e : engine M Jac) :
  eval_current update_function e
  = (set_param_vals (snd (fst (update_function (model e) (param_vals e))))
       (set_model (fst (fst (update_function (model e) (param_vals e)))) e),
     snd (update_function (model e) (param_vals e))).
Proof.
  unfold eval_current.
  destruct (update_function (model e) (param_vals e)) as [[m v] er].
  reflexivity.
Qed.

Lemma apply_refresh_eq (r : Jac * M * list R) (e : engine M Jac) :
  apply_refresh r e
  = set_param_vals (snd r) (set_model (snd (fst r)) (set_jac (fst (fst r)) e)).
Proof. destruct r as [[j m] v]. reflexivity. Qed.

Lemma exact_check_raise (tol x y : R) :
  tol < Rabs (x - y) ->
  exact_check tol x y = Raise (RuntimeError "Function updates are not exact.").
Proof.
  intros H. unfold exact_check.
  rewrite (proj2 (Rltb_true_iff _ _) H). reflexivity.
Qed.

Lemma exact_check_pass (tol x y : R) :
  Rabs (x - y) <= tol -> exact_check tol x y = Ok tt.
Proof.
  intros H. unfold exact_check.
  rewrite (proj2 (Rltb_false_iff _ _) H). reflexivity.
Qed.

(** The first trial of [_run1] leaves the damping and the recorded error. *)
Lemma run1_first_frame (e e1 : engine M Jac) (dv : list R) (er1 : R) (g : bool) :
  use_accel opt = false ->
  run1_first_ e = Ok (e1, dv, er1, g) ->
  damping e1 = damping e /\ error e1 = error e /\
  _last_error e1 = _last_error e /\ _last_vals e1 = _last_vals e /\
  param_vals e1 = snd (refresh_J e).
Proof.
  intros Ha H. unfold run1_first in H.
  rewrite find_LM_updates_plain in H by exact Ha. simpl in H.
  rewrite eval_at_eq, apply_refresh_eq in H. inversion H; subst.
  simpl. auto.
Qed.

(** One pass of the retry loop multiplies the damping. *)
Lemma run1_try_frame (grad : list R) (e e1 : engine M Jac) (dv : list R)
    (er1 : R) (g : bool) :
  use_accel opt = false ->
  run1_try_ grad e = Ok (e1, dv, er1, g) ->
  damping e1 = map (fun d => d * increase_damp_factor opt) (damping e) /\
  error e1 = error e /\ param_vals e1 = param_vals e /\
  _last_error e1 = _last_error e /\ _last_vals e1 = _last_vals e.
Proof.
  intros Ha H. unfold run1_try in H.
  rewrite find_LM_updates_plain in H by exact Ha. simpl in H.
  rewrite eval_at_eq in H. inversion H; subst. simpl. auto.
Qed.

Lemma run1_retry_frame (n : nat) (grad : list R) (e e1 : engine M Jac)
    (dv dv1 : list R) (er er1 : R) (g : bool) :
  use_accel opt = false ->
  run1_retry_ n grad e dv er = Ok (e1, dv1, er1, g) ->
  error e1 = error e /\ param_vals e1 = param_vals e /\
  _last_error e1 = _last_error e /\ _last_vals e1 = _last_vals e.
Proof.
  intros Ha. revert e dv er. induction n as [|n IH]; intros e dv er H; simpl in H.
  - inversion H; subst. auto.
  - destruct (run1_try_ grad e) as [[[[e2 dv2] er2] g2]|x] eqn:E; simpl in H;
      [|discriminate].
    destruct (run1_try_frame _ _ Ha E) as (_ & He & Hp & Hle & Hlv).
    destruct g2.
    + inversion H; subst. auto.
    + destruct (IH _ _ _ H) as (He' & Hp' & Hle' & Hlv').
      repeat split; congruence.
Qed.

Lemma run1_revert_spec (e : engine M Jac) :
  let er0 := snd (update_function (model e) (param_vals e)) in
  (1e-7 < Rabs (er0 - error e) ->
   run1_revert_ e = Raise (RuntimeError "Function updates are not exact.")) /\
  (Rabs (er0 - error e) <= 1e-7 ->
   exists e', run1_revert_ e = Ok e' /\
     error e' = error e /\ damping e' = damping e /\
     _last_error e' = _last_error e /\ _last_vals e' = _last_vals e /\
     param_vals e' = snd (fst (update_function (model e) (param_vals e)))).
Proof.
  intros er0. unfold run1_revert. rewrite eval_current_eq. fold er0. simpl.
  split; intros H.
  - rewrite exact_check_raise by exact H. reflexivity.
  - rewrite exact_check_pass by exact H. simpl.
    eexists. split; [reflexivity|]. simpl. auto.
Qed.

Lemma scaled_up (l : list R) (c : R) :
  Forall (fun d => 0 < d) l -> 1 < c ->
  Forall2 Rlt l (map (fun d => d * c) l).
Proof.
  intros Hl Hc. induction Hl as [|d l Hd Hl IH]; simpl; constructor; auto.
  nra.
Qed.

Lemma scaled_down (l : list R) (c : R) :
  Forall (fun d => 0 < d) l -> 1 < c ->
  Forall2 Rlt (map (fun d => d / c) l) l.
Proof.
  intros Hl Hc. induction Hl as [|d l Hd Hl IH]; simpl; constructor; auto.
  apply Rmult_lt_reg_r with c; [lra|].
  unfold Rdiv. rewrite Rmult_assoc, Rinv_l by lra. nra.
Qed.

Lemma run1_revert_frame (e e' : engine M Jac) :
  run1_revert_ e = Ok e' ->
  error e' = error e /\ damping e' = damping e /\
  _last_error e' = _last_error e /\ _last_vals e' = _last_vals e /\
  param_vals e' = snd (fst (update_function (model e) (param_vals e))).
Proof.
  unfold run1_revert. rewrite eval_current_eq. simpl.
  destruct (exact_check _ _ _); simpl; intros H; inversion H; subst.
  simpl. auto.
Qed.

Lemma map_map_scale (l : list R) (c c' : R) :
  map (fun d => d / c') (map (fun d => d * c) l) = map (fun d => d * c / c') l.
Proof. rewrite map_map. reflexivity. Qed.

(** The response of the damping to the steps of [_run1]. *)
Lemma run1_damping (e : engine M Jac) :
  use_accel opt = false ->
  Forall (fun d => 0 < d) (damping e) ->
  1 < increase_damp_factor opt ->
  1 < decrease_damp_factor opt ->
  (forall e1 dv er1,
     run1_first_ e = Ok (e1, dv, er1, true) ->
     exists e',
       _run1_ e = Ok e' /\
       damping e' = map (fun d => d / decrease_damp_factor opt) (damping e) /\
       Forall2 Rlt (damping e') (damping e)) /\
  (forall e1 dv er1 e2 e3 dv3 er3 good,
     run1_first_ e = Ok (e1, dv, er1, false) ->
     run1_revert_ e1 = Ok e2 ->
     run1_try_ (calc_grad_ e2) e2 = Ok (e3, dv3, er3, good) ->
     damping e3 = map (fun d => d * increase_damp_factor opt) (damping e) /\
     Forall2 Rlt (damping e) (damping e3) /\
     (good = true -> (0 < _max_inner_loop opt)%nat ->
      exists e',
        _run1_ e = Ok e' /\
        damping e'
        = map (fun d => d * increase_damp_factor opt / decrease_damp_factor opt)
            (damping e))) /\
  increase_damp_factor default_options = 3 /\
  decrease_damp_factor default_options = 8.
Proof.
  intros Ha Hpos Hinc Hdec. split; [|split; [|split; reflexivity]].
  - intros e1 dv er1 H1.
    destruct (run1_first_frame _ Ha H1) as (Hd & _).
    unfold _run1. rewrite H1. simpl.
    eexists. split; [reflexivity|].
    assert (E : damping (run1_accept_ dv er1 e1)
                = map (fun d => d / decrease_damp_factor opt) (damping e)).
    { unfold run1_accept, decrease_damping, update_param_vals. simpl.
      rewrite Hd. reflexivity. }
    split; [exact E|]. rewrite E. apply scaled_down; assumption.
  - intros e1 dv er1 e2 e3 dv3 er3 good H1 H2 H3.
    destruct (run1_first_frame _ Ha H1) as (Hd1 & _).
    destruct (run1_revert_frame _ H2) as (_ & Hd2 & _).
    destruct (run1_try_frame _ _ Ha H3) as (Hd3 & _).
    assert (E : damping e3
                = map (fun d => d * increase_damp_factor opt) (damping e))
      by (rewrite Hd3, Hd2, Hd1; reflexivity).
    split; [exact E|]. split; [rewrite E; apply scaled_up; assumption|].
    intros -> Hn. unfold _run1. rewrite H1. simpl. rewrite H2. simpl.
    destruct (_max_inner_loop opt) as [|n]; [lia|]. simpl.
    rewrite H3. simpl.
    eexists. split; [reflexivity|].
    unfold run1_accept, decrease_damping, update_param_vals. simpl.
    rewrite E. apply map_map_scale.
Qed.


(** One iteration of [do_internal_run] whose step is rejected. *)
Lemma internal_step_rejected (subblock : option (list bool))
    (update_derr : bool) (e : engine M Jac) (loc : list R) (n : nat)
    (delta : list R) :
  let e0 := if negb (Z.eqb (_inner_run_counter e) 0)
            then apply_refresh (refresh_J_internal e) e else e in
  find_LM_updates_ (calc_grad_ e0) false subblock e0 = Ok (e0, delta) ->
  let trial := update_function (model e0) (vadd (param_vals e0) delta) in
  ~ snd trial < error e ->
  let back := update_function (fst (fst trial)) (param_vals e0) in
  (1e-6 < Rabs (error e - snd back) ->
   internal_step_ subblock update_derr e loc n
   = Raise (RuntimeError "Function updates are not exact.")) /\
  (Rabs (error e - snd back) <= 1e-6 ->
   exists e',
     internal_step_ subblock update_derr e loc n = Ok (e', loc, n, false) /\
     error e' = error e /\ damping e' = damping e /\
     param_vals e' = snd (fst back)).
Proof.
  intros e0 Hf trial Hbad back.
  assert (He0 : error e0 = error e /\ damping e0 = damping e).
  { unfold e0. destruct (negb _); [|auto].
    rewrite apply_refresh_eq. simpl. auto. }
  destruct He0 as [He0 Hd0].
  assert (Hgood : Rltb (snd trial) (1 * error e0) = false).
  { apply Rltb_false_iff. rewrite He0. lra. }
  unfold internal_step. fold e0. rewrite Hf. simpl.
  rewrite eval_at_eq. fold trial. cbv beta iota zeta.
  rewrite Hgood. rewrite eval_current_eq. simpl. fold back.
  rewrite He0, Rmult_1_l.
  split; intros H.
  - rewrite exact_check_raise by exact H. reflexivity.
  - rewrite exact_check_pass by exact H. simpl.
    eexists. split; [reflexivity|]. simpl. auto.
Qed.

(** The re-evaluation after a rejected step, in [_run1] and in
    [do_internal_run]. *)
Lemma run1_internal_revert (e : engine M Jac) :
  use_accel opt = false ->
  (forall e1 dv er1,
     run1_first_ e = Ok (e1, dv, er1, false) ->
     let er0 := snd (update_function (model e1) (param_vals e1)) in
     error e1 = error e /\
     (1e-7 < Rabs (er0 - error e) ->
      _run1_ e = Raise (RuntimeError "Function updates are not exact.")) /\
     (forall e2 e3 dv3 er3,
        run1_revert_ e1 = Ok e2 ->
        run1_retry_ (_max_inner_loop opt) (calc_grad_ e2) e2 dv er1
        = Ok (e3, dv3, er3, false) ->
        let er0' := snd (update_function (model e3) (param_vals e3)) in
        (1e-7 < Rabs (er0' - error e) ->
         _run1_ e = Raise (RuntimeError "Function updates are not exact.")) /\
        (Rabs (er0' - error e) <= 1e-7 ->
         exists e',
           _run1_ e = Ok e' /\
           error e' = error e /\ _last_error e' = _last_error e /\
           _last_vals e' = _last_vals e /\
           ((forall m v, snd (fst (update_function m v)) = v) ->
            param_vals e' = param_vals e1)))) /\
  (forall subblock update_derr loc n delta,
     let e0 := if negb (Z.eqb (_inner_run_counter e) 0)
               then apply_refresh (refresh_J_internal e) e else e in
     find_LM_updates_ (calc_grad_ e0) false subblock e0 = Ok (e0, delta) ->
     let trial := update_function (model e0) (vadd (param_vals e0) delta) in
     ~ snd trial < error e ->
     let back := update_function (fst (fst trial)) (param_vals e0) in
     (1e-6 < Rabs (error e - snd back) ->
      internal_step_ subblock update_derr e loc n
      = Raise (RuntimeError "Function updates are not exact.")) /\
     (Rabs (error e - snd back) <= 1e-6 ->
      exists e',
        internal_step_ subblock update_derr e loc n = Ok (e', loc, n, false) /\
        error e' = error e /\ damping e' = damping e /\
        param_vals e' = snd (fst back))).
Proof.
  intros Ha. split.
  - intros e1 dv er1 H1 er0.
    destruct (run1_first_frame _ Ha H1) as (_ & He1 & Hle1 & Hlv1 & _).
    split; [exact He1|].
    destruct (run1_revert_spec e1) as [Hraise Hpass].
    split.
    + intros H. unfold _run1. rewrite H1. simpl.
      rewrite Hraise by (rewrite He1; exact H). reflexivity.
    + intros e2 e3 dv3 er3 H2 H3 er0'.
      destruct (run1_revert_frame _ H2) as (He2 & _ & Hle2 & Hlv2 & Hp2).
      destruct (run1_retry_frame _ _ _ _ _ Ha H3) as (He3 & Hp3 & Hle3 & Hlv3).
      destruct (run1_revert_spec e3) as [Hraise3 Hpass3].
      assert (E3 : error e3 = error e) by congruence.
      split; intros H.
      * unfold _run1. rewrite H1. simpl. rewrite H2. simpl.
        rewrite H3. simpl.
        rewrite Hraise3 by (rewrite E3; exact H). reflexivity.
      * destruct Hpass3 as (e' & Ee' & He' & _ & Hle' & Hlv' & Hp');
          [rewrite E3; exact H|].
        exists e'. unfold _run1. rewrite H1. simpl. rewrite H2. simpl.
        rewrite H3. simpl. rewrite Ee'. simpl.
        split; [reflexivity|]. do 3 (split; [congruence|]).
        intros Hpure. rewrite Hp', Hpure, Hp3, Hp2, Hpure. reflexivity.
  - intros subblock update_derr loc n delta.
    apply internal_step_rejected.
Qed.

(** C5, as amended.  Without the acceleration correction: in [_run1],
    after a rejected first trial and again when every retry was rejected,
    and in an iteration of [do_internal_run] whose step is rejected, the
    engine calls [update_function] on [self.param_vals] and raises the
    [RuntimeError] when the error returned differs from the recorded one
    by more than 1e-7 ([_run1]) or 1e-6 ([do_internal_run]); when the
    check passes the recorded error is unchanged, and the parameters are
    what [update_function] left in the array it was given: the values
    before the step when it does not write to its argument.  (The
    rejection branch of [_run2] is not part of the statement.) *)
Theorem revert_check (e : engine M Jac) :
  use_accel opt = false ->
  (forall e1 dv er1,
     run1_first_ e = Ok (e1, dv, er1, false) ->
     let er0 := snd (update_function (model e1) (param_vals e1)) in
     error e1 = error e /\
     (1e-7 < Rabs (er0 - error e) ->
      _run1_ e = Raise (RuntimeError "Function updates are not exact.")) /\
     (forall e2 e3 dv3 er3,
        run1_revert_ e1 = Ok e2 ->
        run1_retry_ (_max_inner_loop opt) (calc_grad_ e2) e2 dv er1
        = Ok (e3, dv3, er3, false) ->
        let er0' := snd (update_function (model e3) (param_vals e3)) in
        (1e-7 < Rabs (er0' - error e) ->
         _run1_ e = Raise (RuntimeError "Function updates are not exact.")) /\
        (Rabs (er0' - error e) <= 1e-7 ->
         exists e',
           _run1_ e = Ok e' /\
           error e' = error e /\ _last_error e' = _last_error e /\
           _last_vals e' = _last_vals e /\
           ((forall m v, snd (fst (update_function m v)) = v) ->
            param_vals e' = param_vals e1)))) /\
  (forall subblock update_derr loc n delta,
     let e0 := if negb (Z.eqb (_inner_run_counter e) 0)
               then apply_refresh (refresh_J_internal e) e else e in
     find_LM_updates_ (calc_grad_ e0) false subblock e0 = Ok (e0, delta) ->
     let trial := update_function (model e0) (vadd (param_vals e0) delta) in
     ~ snd trial < error e ->
     let back := update_function (fst (fst trial)) (param_vals e0) in
     (1e-6 < Rabs (error e - snd back) ->
      internal_step_ subblock update_derr e loc n
      = Raise (RuntimeError "Function updates are not exact.")) /\
     (Rabs (error e - snd back) <= 1e-6 ->
      exists e',
        internal_step_ subblock update_derr e loc n = Ok (e', loc, n, false) /\
        error e' = error e /\ damping e' = damping e /\
        param_vals e' = snd (fst back))).
Proof. exact (run1_internal_revert e). Qed.

(** *** The loop of [do_internal_run] never runs out of fuel *)

Local Abbreviation internal_loop_ :=
  (internal_loop opt update_function calc_residuals J_dot lm_solve accel_solve
     refresh_J_internal mark_stale calc_model_cosine).

Lemma find_LM_updates_counter (grad : list R) (dcd : bool)
    (sb : option (list bool)) (e e' : engine M Jac) (d : list R) :
  find_LM_updates_ grad dcd sb e = Ok (e', d) ->
  _inner_run_counter e' = _inner_run_counter e.
Proof.
  unfold find_LM_updates.
  destruct sb as [b|]; [destruct (_ || _)%bool|]; simpl; try discriminate;
    (destruct (use_accel opt); [|intros H; inversion H; reflexivity]);
    unfold calc_accel_correction;
    rewrite eval_current_eq; cbv beta iota zeta; rewrite !eval_at_eq;
    cbv beta iota zeta;
    destruct (xlt _ _); try destruct dcd; intros H; inversion H; reflexivity.
Qed.

Lemma internal_step_counter (sb : option (list bool)) (ud : bool)
    (e e' : engine M Jac) (loc loc' : list R) (n n' : nat) (g : bool) :
  internal_step_ sb ud e loc n = Ok (e', loc', n', g) ->
  _inner_run_counter e' = (_inner_run_counter e + 1)%Z.
Proof.
  unfold internal_step.
  set (e0 := if negb (Z.eqb (_inner_run_counter e) 0)
             then apply_refresh (refresh_J_internal e) e else e).
  assert (H0 : _inner_run_counter e0 = _inner_run_counter e).
  { unfold e0. destruct (negb _); [|reflexivity].
    rewrite apply_refresh_eq. reflexivity. }
  destruct (find_LM_updates_ (calc_grad_ e0) false sb e0) as [[e1 d]|x] eqn:E;
    simpl; [|discriminate].
  apply find_LM_updates_counter in E.
  rewrite eval_at_eq. cbv beta iota zeta.
  destruct (Rltb _ _); simpl.
  - intros H. inversion H; subst. simpl.
    destruct ud; simpl; congruence.
  - rewrite eval_current_eq. simpl.
    destruct (exact_check _ _ _); simpl; [|discriminate].
    intros H. inversion H; subst. simpl. congruence.
Qed.

(** With the fuel that [do_internal_run] gives, an extra unit of fuel
    changes nothing: the counter test ends the loop first. *)
Lemma internal_loop_fuel (fuel : nat) (sb : option (list bool)) (ud : bool)
    (e : engine M Jac) (loc : list R) (n : nat) (g : bool) :
  (Z.to_nat (run_length opt - _inner_run_counter e) <= fuel)%nat ->
  internal_loop_ (S fuel) sb ud e loc n g = internal_loop_ fuel sb ud e loc n g.
Proof.
  revert e loc n g. induction fuel as [|fuel IH]; intros e loc n g Hf.
  - cbn [internal_loop].
    destruct (check_terminate_ e) as [t|x]; simpl; [|reflexivity].
    assert (E : Z.ltb (_inner_run_counter e) (run_length opt) = false)
      by (apply Z.ltb_ge; lia).
    rewrite E. reflexivity.
  - cbn [internal_loop].
    destruct (check_terminate_ e) as [t|x]; cbn [bind]; [|reflexivity].
    destruct (Z.ltb (_inner_run_counter e) (run_length opt) && g && negb t)%bool
      eqn:C; [|reflexivity].
    destruct (internal_step_ sb ud e loc n) as [[[[e' loc'] n'] g']|x] eqn:E;
      cbn [bind]; [|reflexivity].
    apply internal_step_counter in E.
    apply (IH e' loc' n' g'). lia.
Qed.

End EngineFacts.

Section EngineWitness.
Open Scope R_scope.
Import LM.

Local Abbreviation d_run1_first :=
  (run1_first default_options demo_update_function demo_residuals demo_J_dot
     demo_lm_solve demo_accel_solve demo_refresh).
Local Abbreviation d_run1_try :=
  (run1_try default_options demo_update_function demo_residuals demo_J_dot
     demo_lm_solve demo_accel_solve).
Local Abbreviation d_run1_retry :=
  (run1_retry default_options demo_update_function demo_residuals demo_J_dot
     demo_lm_solve demo_accel_solve).
Local Abbreviation d_run1 :=
  (_run1 default_options demo_update_function demo_residuals demo_J_dot
     demo_lm_solve demo_accel_solve demo_refresh demo_mark_stale).
Local Abbreviation d_find_LM_updates :=
  (find_LM_updates default_options demo_update_function demo_residuals
     demo_J_dot demo_lm_solve demo_accel_solve).
Local Abbreviation d_internal_step :=
  (internal_step default_options demo_update_function demo_residuals
     demo_J_dot demo_lm_solve demo_accel_solve demo_refresh demo_mark_stale).
Local Abbreviation d_run2 :=
  (_run2 default_options demo_update_function demo_residuals demo_J_dot
     demo_lm_solve demo_accel_solve demo_refresh demo_refresh demo_mark_stale
     demo_cosine).
Local Abbreviation d_calc_grad := (calc_grad demo_residuals demo_J_dot).

Local Abbreviation c_run1 :=
  (_run1 default_options counted_update_function counted_residuals demo_J_dot
     demo_lm_solve demo_accel_solve counted_refresh demo_mark_stale).
Local Abbreviation c_run1_first :=
  (run1_first default_options counted_update_function counted_residuals
     demo_J_dot demo_lm_solve demo_accel_solve counted_refresh).
Local Abbreviation c_run1_try :=
  (run1_try default_options counted_update_function counted_residuals
     demo_J_dot demo_lm_solve demo_accel_solve).
Local Abbreviation a_run1 :=
  (_run1 default_options accepting_update_function demo_residuals demo_J_dot
     demo_lm_solve demo_accel_solve demo_refresh demo_mark_stale).

Lemma check_terminate_with_costol_witness :
  check_terminate costol_options demo_cosine demo_engine = Raise NameError.
Proof.
  apply (@check_terminate_with_costol unit unit costol_options demo_cosine
           demo_engine 0.5); reflexivity.
Defined.


Lemma revert_check_witness :
  (forall e1 dv er1,
     d_run1_first demo_engine = Ok (e1, dv, er1, false) ->
     let er0 := snd (demo_update_function (model e1) (param_vals e1)) in
     error e1 = error demo_engine /\
     (1e-7 < Rabs (er0 - error demo_engine) ->
      d_run1 demo_engine
      = Raise (RuntimeError "Function updates are not exact.")) /\
     (forall e2 e3 dv3 er3,
        run1_revert demo_update_function e1 = Ok e2 ->
        d_run1_retry 15 (d_calc_grad e2) e2 dv er1 = Ok (e3, dv3, er3, false) ->
        let er0' := snd (demo_update_function (model e3) (param_vals e3)) in
        (1e-7 < Rabs (er0' - error demo_engine) ->
         d_run1 demo_engine
         = Raise (RuntimeError "Function updates are not exact.")) /\
        (Rabs (er0' - error demo_engine) <= 1e-7 ->
         exists e',
           d_run1 demo_engine = Ok e' /\
           error e' = error demo_engine /\
           _last_error e' = _last_error demo_engine /\
           _last_vals e' = _last_vals demo_engine /\
           ((forall m v, snd (fst (demo_update_function m v)) = v) ->
            param_vals e' = param_vals e1)))) /\
  (forall subblock update_derr loc n delta,
     let e0 := if negb (Z.eqb (_inner_run_counter demo_engine) 0)
               then apply_refresh (demo_refresh demo_engine) demo_engine
               else demo_engine in
     d_find_LM_updates (d_calc_grad e0) false subblock e0 = Ok (e0, delta) ->
     let trial := demo_update_function (model e0) (vadd (param_vals e0) delta) in
     ~ snd trial < error demo_engine ->
     let back := demo_update_function (fst (fst trial)) (param_vals e0) in
     (1e-6 < Rabs (error demo_engine - snd back) ->
      d_internal_step subblock update_derr demo_engine loc n
      = Raise (RuntimeError "Function updates are not exact.")) /\
     (Rabs (error demo_engine - snd back) <= 1e-6 ->
      exists e',
        d_internal_step subblock update_derr demo_engine loc n
        = Ok (e', loc, n, false) /\
        error e' = error demo_engine /\ damping e' = damping demo_engine /\
        param_vals e' = snd (fst back))).
Proof.
  apply (@revert_check unit unit default_options demo_update_function
           demo_residuals demo_J_dot demo_lm_solve demo_accel_solve
           demo_refresh demo_refresh demo_mark_stale demo_engine).
  reflexivity.
Defined.

Lemma Rltb_5_1 : Rltb 5 1 = false.
Proof. apply Rltb_false_iff. lra. Qed.

Local Abbreviation d_run2_retry :=
  (run2_retry default_options demo_update_function demo_residuals demo_J_dot
     demo_lm_solve demo_accel_solve demo_mark_stale).
Local Abbreviation d_run2_reject :=
  (run2_reject default_options demo_update_function demo_residuals demo_J_dot
     demo_lm_solve demo_accel_solve demo_mark_stale).
Local Abbreviation d_run2_trials :=
  (run2_trials default_options demo_update_function demo_residuals demo_J_dot
     demo_lm_solve demo_accel_solve).

Lemma demo_run2_retry (n : nat) (grad : list R) (e : engine unit unit) :
  error e = 1 ->
  exists e',
    d_run2_retry n grad e = Ok (e', false) /\
    error e' = 5 /\ param_vals e' = param_vals e.
Proof.
  revert e. induction n as [|n IH]; intros e He.
  - simpl. eexists. split; [reflexivity|]. simpl. auto.
  - cbn [run2_retry].
    rewrite find_LM_updates_plain by reflexivity.
    cbn [bind]. rewrite eval_at_eq. cbn [demo_update_function fst snd].
    assert (E1 : error (set_model (model (increase_damping default_options e))
                          (increase_damping default_options e)) = 1)
      by exact He.
    rewrite E1, Rltb_5_1.
    destruct (IH _ E1) as (e' & E & He' & Hp').
    exists e'. split; [exact E|]. split; [exact He' | exact Hp'].
Qed.

Lemma demo_run2_reject (e : engine unit unit) :
  error e = 1 ->
  exists e',
    d_run2_reject e = Ok (e', false) /\
    error e' = 5 /\ param_vals e' = param_vals e.
Proof.
  intros He. unfold run2_reject. rewrite eval_at_eq.
  cbn [demo_update_function fst snd].
  match goal with
  | |- context [d_run2_retry ?n ?g ?e0] =>
      destruct (@demo_run2_retry n g e0 He) as (e' & E & He' & Hp')
  end.
  rewrite E. exists e'. split; [reflexivity|]. split; [exact He' | exact Hp'].
Qed.

Lemma demo_run2_trials (e : engine unit unit) :
  error e = 1 ->
  exists e' d1 d2,
    d_run2_trials e = Ok (e', d1, d2, 5, 5) /\
    error e' = 1 /\ param_vals e' = param_vals e.
Proof.
  intros He. unfold run2_trials.
  rewrite find_LM_updates_plain by reflexivity. cbn [bind].
  rewrite find_LM_updates_plain by reflexivity. cbn [bind].
  rewrite !eval_at_eq. cbn [demo_update_function fst snd].
  do 3 eexists. split; [reflexivity|]. split; [exact He | reflexivity].
Qed.

(** C5 as stated fails in [_run2].  On an engine whose recorded error is
    1 while the error function returns 5 everywhere, both trial steps are
    rejected, the error at the reverted parameters is 5, no error is
    raised, and the run ends with 5 as the recorded error. *)
Lemma run2_revert_is_not_checked :
  error demo_engine = 1 /\
  snd (demo_update_function (model demo_engine) (param_vals demo_engine)) = 5 /\
  exists e',
    d_run2 demo_engine = Ok e' /\
    error e' = 5 /\ param_vals e' = param_vals demo_engine.
Proof.
  split; [reflexivity|]. split; [reflexivity|].
  unfold _run2.
  destruct (@demo_run2_trials (apply_refresh (demo_refresh demo_engine) demo_engine))
    as (e1 & d1 & d2 & E1 & He1 & Hp1); [reflexivity|].
  rewrite E1. cbn [bind].
  assert (Eb : find_best_step [error e1; 5; 5] = 0%nat).
  { rewrite He1. unfold find_best_step. cbn [argmin_from].
    rewrite Rltb_5_1. reflexivity. }
  rewrite Eb.
  destruct (@demo_run2_reject e1 He1) as (e' & E & He' & Hp').
  rewrite E. cbn [bind]. exists e'.
  split; [reflexivity|]. split; [exact He'|].
  rewrite Hp', Hp1. reflexivity.
Qed.

Lemma Rltb_half_1 : Rltb 0.5 1 = true.
Proof. apply Rltb_true_iff. lra. Qed.

(** On the counting engine the first step of [_run1] is rejected, the
    re-evaluation agrees with the recorded error, and the first retry is
    accepted: the run ends with the damping 1 * 3 / 8. *)
Example run1_reject_then_accept :
  exists e',
    c_run1 counted_engine = Ok e' /\
    damping e' = map (fun d => d * 3 / 8) [1].
Proof.
  destruct (@run1_damping nat unit default_options counted_update_function
              counted_residuals demo_J_dot demo_lm_solve demo_accel_solve
              counted_refresh demo_mark_stale counted_engine)
    as (_ & H & _);
    [reflexivity | simpl; constructor; [lra | constructor]
     | simpl; lra | simpl; lra |].
  edestruct H as (_ & _ & Hacc).
  - unfold run1_first. simpl. rewrite Rltb_5_1. simpl. reflexivity.
  - unfold run1_revert. simpl.
    rewrite exact_check_pass; [reflexivity|].
    replace (1 - 1) with 0 by lra. rewrite Rabs_R0. lra.
  - unfold run1_try. simpl. rewrite Rltb_half_1. simpl. reflexivity.
  - apply Hacc; [reflexivity | simpl; lia].
Qed.

(** With an error function that returns 0.5 the first step is accepted
    and the run ends with the damping 1 / 8. *)
Example run1_accept_first :
  exists e',
    a_run1 demo_engine = Ok e' /\ damping e' = map (fun d => d / 8) [1].
Proof.
  destruct (@run1_damping unit unit default_options
              accepting_update_function demo_residuals demo_J_dot
              demo_lm_solve demo_accel_solve demo_refresh demo_mark_stale
              demo_engine) as (H & _).
  - reflexivity.
  - simpl. constructor; [lra | constructor].
  - simpl. lra.
  - simpl. lra.
  - edestruct H as (e' & E & Hd & _).
    + unfold run1_first. simpl. rewrite Rltb_half_1. simpl. reflexivity.
    + exists e'. split; [exact E | exact Hd].
Qed.

(** With the error function that returns 5 while 1 is recorded, the first
    step of [_run1] is rejected and the re-evaluation at the reverted
    parameters is fatal. *)
Example run1_inexact_is_fatal :
  d_run1 demo_engine = Raise (RuntimeError "Function updates are not exact.").
Proof.
  destruct (@run1_internal_revert unit unit default_options
              demo_update_function demo_residuals demo_J_dot demo_lm_solve
              demo_accel_solve demo_refresh demo_refresh demo_mark_stale
              demo_engine eq_refl) as (H & _).
  edestruct H as (_ & Hraise & _).
  - unfold run1_first. simpl. rewrite Rltb_5_1. simpl. reflexivity.
  - apply Hraise. simpl.
    replace (5 - 1) with 4 by lra. rewrite Rabs_pos_eq by lra. lra.
Qed.

End EngineWitness.

(** ** The pixel budget of the Jacobian *)

Section PixelBudget.
Import LM.

Lemma int_of_nonneg (q : Q) : (0 <= q)%Q -> int_of q = Qfloor q.
Proof.
  intros H. unfold int_of. destruct (Qlt_le_dec q 0) as [Hlt | Hle].
  - exfalso. apply (Qlt_not_le _ _ Hlt H).
  - reflexivity.
Qed.

Lemma budget_nonneg (max_mem : Q) (n : Z) :
  (0 <= max_mem)%Q -> (0 < n)%Z -> (0 <= max_mem / 8 / inject_Z n)%Q.
Proof.
  intros Hm Hn.
  assert (H8 : (0 < 8)%Q) by reflexivity.
  assert (Hq : (0 < inject_Z n)%Q).
  { change (inject_Z 0 < inject_Z n)%Q. rewrite <- Zlt_Qlt. exact Hn. }
  apply Qle_shift_div_l; [exact Hq|]. rewrite Qmult_0_l.
  apply Qle_shift_div_l; [exact H8|]. rewrite Qmult_0_l. exact Hm.
Qed.

(** An integer exceeds the floor of [q] exactly when it exceeds [q]. *)
Lemma above_floor (z : Z) (q : Q) :
  (z >? Qfloor q)%Z = true <-> (q < inject_Z z)%Q.
Proof.
  rewrite Z.gtb_lt. split; intros H.
  - apply Qlt_le_trans with (inject_Z (Qfloor q + 1)); [apply Qlt_floor|].
    rewrite <- Zle_Qle. lia.
  - rewrite Zlt_Qlt. apply Qle_lt_trans with q; [apply Qfloor_le | exact H].
Qed.

(** C6, as amended.  For at least one parameter, a positive [decimate]
    and a non-negative [max_mem]: the count is
    [clip(total_pixels // decimate, min_redundant*n_params,
    int(max_mem/8/n_params))], both quotients cut down to whole pixels;
    the [RuntimeError] is raised exactly when [min_redundant*n_params]
    exceeds [max_mem/8/n_params]; and the engines call it with the
    defaults [decimate=1], [min_redundant=20] (and [max_mem=1e9]). *)
Theorem num_px_jtj_spec (total n decimate : Z) (max_mem : Q) (min_red : Z) :
  (0 < n)%Z -> (0 < decimate)%Z -> (0 <= max_mem)%Q ->
  ((max_mem / 8 / inject_Z n < inject_Z (min_red * n))%Q ->
   get_num_px_jtj total n decimate max_mem min_red
   = Raise (RuntimeError "Insufficient max_mem for desired redundancy.")) /\
  ((inject_Z (min_red * n) <= max_mem / 8 / inject_Z n)%Q ->
   get_num_px_jtj total n decimate max_mem min_red
   = Ok (Z.min (Z.max (total / decimate) (min_red * n))
           (Qfloor (max_mem / 8 / inject_Z n)))) /\
  num_pix total n max_mem (mk_opt_kwargs None None)
  = get_num_px_jtj total n 1 max_mem 20 /\
  default_max_mem = 1000000000%Q.
Proof.
  intros Hn Hd Hm.
  pose proof (budget_nonneg Hm Hn) as Hb.
  split; [|split; [|split; reflexivity]];
    unfold get_num_px_jtj;
    rewrite (proj2 (Z.eqb_neq n 0)) by lia;
    rewrite (proj2 (Z.eqb_neq decimate 0)) by lia;
    rewrite (int_of_nonneg Hb).
  - intros H. rewrite (proj2 (above_floor _ _) H). reflexivity.
  - intros H.
    destruct (min_red * n >? Qfloor (max_mem / 8 / inject_Z n))%Z eqn:E;
      [|reflexivity].
    apply above_floor in E. exfalso. apply (Qlt_not_le _ _ E H).
Qed.

Lemma num_px_jtj_spec_witness :
  ((1000000000 / 8 / inject_Z 3 < inject_Z (20 * 3))%Q ->
   get_num_px_jtj 1000000000 3 1 1000000000 20
   = Raise (RuntimeError "Insufficient max_mem for desired redundancy.")) /\
  ((inject_Z (20 * 3) <= 1000000000 / 8 / inject_Z 3)%Q ->
   get_num_px_jtj 1000000000 3 1 1000000000 20
   = Ok (Z.min (Z.max (1000000000 / 1) (20 * 3))
           (Qfloor (1000000000 / 8 / inject_Z 3)))) /\
  num_pix 1000000000 3 1000000000 (mk_opt_kwargs None None)
  = get_num_px_jtj 1000000000 3 1 1000000000 20 /\
  default_max_mem = 1000000000%Q.
Proof.
  apply (@num_px_jtj_spec 1000000000 3 1 1000000000 20).
  - reflexivity.
  - reflexivity.
  - discriminate.
Defined.

(** C6 as stated fails: with 10^9 residual pixels, 3 parameters and the
    defaults the code keeps 41666666 pixels, while the formula over the
    rationals gives 125000000/3. *)
Lemma num_px_is_truncated :
  get_num_px_jtj 1000000000 3 1 1000000000 20 = Ok 41666666%Z /\
  ~ (inject_Z 41666666 == num_px_formula 1000000000 3 1 1000000000 20)%Q.
Proof.
  split; [vm_compute; reflexivity|].
  vm_compute. discriminate.
Qed.

End PixelBudget.

(** ** The clipping of [LMParticles.update_function] *)

Section ParticleFacts.
Open Scope R_scope.
Import LM.

Variable St : Type.
Variable state_update : St -> list string -> list R -> St.
Variable state_error : St -> R.
Variable pad : nat -> Z.
Variable ishape : nat -> Z.
Variable rad_nms : list string.
Variable pos_nms : list string.

Local Abbreviation clip_values_ := (clip_values pad ishape rad_nms pos_nms).
Local Abbreviation update_function_ :=
  (update_function state_update state_error pad ishape rad_nms pos_nms).
Local Abbreviation is_pos_name_ := (is_pos_name pos_nms).
Local Abbreviation pos_lo_ := (pos_lo pad).
Local Abbreviation pos_hi_ := (pos_hi pad ishape).
Local Abbreviation clipped_value_ :=
  (clipped_value pad ishape rad_nms pos_nms).

Lemma clip_where_spec (mask : list bool) (lo hi : R) (values : list R) :
  List.length mask = List.length values ->
  exists values',
    clip_where mask lo hi values = Ok values' /\
    List.length values' = List.length values /\
    forall i m v,
      nth_error mask i = Some m -> nth_error values i = Some v ->
      nth_error values' i = Some (if m then clip v lo hi else v).
Proof.
  revert values. induction mask as [|m mask IH]; intros [|v values] Hlen;
    simpl in Hlen; try discriminate.
  - exists []. repeat split. intros [|i] m v H; discriminate.
  - destruct (IH values) as (vs & E & Hl & Hn); [lia|].
    simpl. rewrite E. simpl.
    eexists. split; [reflexivity|]. split; [simpl; lia|].
    intros [|i] m' v' Hm Hv; simpl in *.
    + inversion Hm; inversion Hv; subst. reflexivity.
    + apply Hn; assumption.
Qed.

Lemma clip_where_mismatch (mask : list bool) (lo hi : R) (values : list R) :
  List.length mask <> List.length values ->
  clip_where mask lo hi values = Raise IndexError.
Proof.
  revert values. induction mask as [|m mask IH]; intros [|v values] Hlen;
    simpl in *; try reflexivity; try contradiction.
  rewrite IH by lia. reflexivity.
Qed.

Lemma clip_values_spec (param_names : list string) (values : list R) :
  List.length values = List.length param_names ->
  exists values',
    clip_values_ param_names values = Ok values' /\
    List.length values' = List.length values /\
    forall i x v,
      nth_error param_names i = Some x -> nth_error values i = Some v ->
      nth_error values' i = Some (clipped_value_ x v).
Proof.
  intros Hlen. unfold clip_values.
  destruct (@clip_where_spec (_is_rad rad_nms param_names) _MINRAD _MAXRAD values)
    as (v1 & -> & L1 & N1); [unfold _is_rad; rewrite length_map; lia|].
  simpl.
  destruct (@clip_where_spec (_is_pos pos_nms 0 param_names)
              (pos_lo_ 0) (pos_hi_ 0) v1)
    as (v2 & -> & L2 & N2); [unfold _is_pos; rewrite length_map; lia|].
  simpl.
  destruct (@clip_where_spec (_is_pos pos_nms 1 param_names)
              (pos_lo_ 1) (pos_hi_ 1) v2)
    as (v3 & -> & L3 & N3); [unfold _is_pos; rewrite length_map; lia|].
  simpl.
  destruct (@clip_where_spec (_is_pos pos_nms 2 param_names)
              (pos_lo_ 2) (pos_hi_ 2) v3)
    as (v4 & -> & L4 & N4); [unfold _is_pos; rewrite length_map; lia|].
  exists v4. split; [reflexivity|]. split; [lia|].
  intros i x v Hx Hv. unfold clipped_value.
  apply N4; [unfold _is_pos; rewrite nth_error_map, Hx; reflexivity|].
  apply N3; [unfold _is_pos; rewrite nth_error_map, Hx; reflexivity|].
  apply N2; [unfold _is_pos; rewrite nth_error_map, Hx; reflexivity|].
  apply N1; [unfold _is_rad; rewrite nth_error_map, Hx; reflexivity|].
  exact Hv.
Qed.

Lemma axis_exclusive (a b : nat) (x : string) :
  (a < 3)%nat -> (b < 3)%nat -> a <> b ->
  last_char x = Some (axis_char a) -> is_pos_name_ b x = false.
Proof.
  intros Ha Hb Hab Hx. unfold is_pos_name. rewrite Hx.
  destruct a as [|[|[|a]]]; destruct b as [|[|[|b]]]; try lia;
    simpl; apply andb_false_r.
Qed.

Lemma axis_selected (a : nat) (x : string) :
  name_in x pos_nms = true -> last_char x = Some (axis_char a) ->
  is_pos_name_ a x = true.
Proof.
  intros Hp Hx. unfold is_pos_name. rewrite Hp, Hx, Ascii.eqb_refl. reflexivity.
Qed.

Lemma pos_bounds_ordered (a : nat) :
  (1 <= ishape a)%Z -> (0 <= pad a)%Z -> pos_lo_ a <= pos_hi_ a.
Proof.
  intros Hs Hp. apply IZR_le in Hs. apply IZR_le in Hp.
  unfold pos_lo, pos_hi, _MINDIST. lra.
Qed.

(** C9.  On an image with at least one pixel per axis and a
    non-negative padding, [update_function] applies to the state the
    proposed values after clipping, never rejecting them: the entry of a
    radius name is [clip(v, 1e-3, 200)], in [[1e-3, 200]]; the entry of a
    position name of axis [a] lies between [1e-3 - pad[a]] and
    [ishape[a] + pad[a] - 1e-3] and is the clip of the proposal to that
    range; other entries are untouched. *)
Theorem particle_updates_are_clipped (param_names : list string) (st : St)
    (values : list R) :
  (forall a, (a < 3)%nat -> (1 <= ishape a)%Z /\ (0 <= pad a)%Z) ->
  List.length values = List.length param_names ->
  exists values',
    update_function_ param_names st values
    = Ok (state_update st param_names values', values',
          state_error (state_update st param_names values')) /\
    List.length values' = List.length values /\
    forall i x v,
      nth_error param_names i = Some x -> nth_error values i = Some v ->
      exists v',
        nth_error values' i = Some v' /\
        (name_in x rad_nms = true -> name_in x pos_nms = false ->
         v' = clip v 1e-3 200 /\ 1e-3 <= v' <= 200) /\
        (forall a, (a < 3)%nat -> name_in x pos_nms = true ->
           last_char x = Some (axis_char a) ->
           1e-3 - IZR (pad a) <= v' <= IZR (ishape a) + IZR (pad a) - 1e-3 /\
           (name_in x rad_nms = false ->
            v' = clip v (1e-3 - IZR (pad a))
                   (IZR (ishape a) + IZR (pad a) - 1e-3))) /\
        (name_in x rad_nms = false -> name_in x pos_nms = false -> v' = v).
Proof.
  intros Himg Hlen.
  destruct (clip_values_spec param_names values Hlen) as (values' & E & L & Hn).
  exists values'. unfold update_function. rewrite E. simpl.
  split; [reflexivity|]. split; [exact L|].
  intros i x v Hx Hv. exists (clipped_value_ x v).
  split; [apply Hn; assumption|].
  assert (Hmax : _MAXRAD = 200) by (unfold _MAXRAD; lra).
  split; [|split].
  - intros Hr Hp. unfold clipped_value, is_pos_name.
    rewrite Hr, Hp. simpl. rewrite Hmax. unfold _MINRAD.
    split; [reflexivity | apply clip_bounds; lra].
  - intros a Ha Hp Hl.
    destruct (Himg a Ha) as [Hs Hpd].
    pose proof (pos_bounds_ordered Hs Hpd) as Hord.
    pose proof (axis_selected a x Hp Hl) as Hsel.
    assert (Hother : forall b, (b < 3)%nat -> b <> a -> is_pos_name_ b x = false).
    { intros b Hb Hba. apply (@axis_exclusive a b x); auto. }
    assert (Hval : clipped_value_ x v
                   = clip (if name_in x rad_nms then clip v _MINRAD _MAXRAD else v)
                       (pos_lo_ a) (pos_hi_ a)).
    { unfold clipped_value.
      destruct a as [|[|[|a]]]; [| | |lia].
      - rewrite Hsel, (Hother 1%nat), (Hother 2%nat) by lia. reflexivity.
      - rewrite Hsel, (Hother 0%nat), (Hother 2%nat) by lia. reflexivity.
      - rewrite Hsel, (Hother 0%nat), (Hother 1%nat) by lia. reflexivity. }
    rewrite Hval. unfold pos_lo, pos_hi, _MINDIST in *.
    split; [apply clip_bounds; exact Hord|].
    intros Hr. rewrite Hr. reflexivity.
  - intros Hr Hp. unfold clipped_value, is_pos_name. rewrite Hr, Hp.
    reflexivity.
Qed.

End ParticleFacts.

Section ParticleWitness.
Open Scope R_scope.
Import LM.

Lemma particle_updates_are_clipped_witness :
  exists values',
    update_function (fun (s : unit) _ _ => s) (fun _ => 0)
      demo_pad demo_ishape demo_rad_nms demo_pos_nms demo_param_names tt
      [70; -5; 3; 300]
    = Ok (tt, values', 0) /\
    List.length values' = List.length [70; -5; 3; 300] /\
    forall i x v,
      nth_error demo_param_names i = Some x ->
      nth_error [70; -5; 3; 300] i = Some v ->
      exists v',
        nth_error values' i = Some v' /\
        (name_in x demo_rad_nms = true -> name_in x demo_pos_nms = false ->
         v' = clip v 1e-3 200 /\ 1e-3 <= v' <= 200) /\
        (forall a, (a < 3)%nat -> name_in x demo_pos_nms = true ->
           last_char x = Some (axis_char a) ->
           1e-3 - IZR (demo_pad a) <= v'
           <= IZR (demo_ishape a) + IZR (demo_pad a) - 1e-3 /\
           (name_in x demo_rad_nms = false ->
            v' = clip v (1e-3 - IZR (demo_pad a))
                   (IZR (demo_ishape a) + IZR (demo_pad a) - 1e-3))) /\
        (name_in x demo_rad_nms = false -> name_in x demo_pos_nms = false ->
         v' = v).
Proof.
  apply (@particle_updates_are_clipped unit (fun (s : unit) _ _ => s)
           (fun _ => 0) demo_pad demo_ishape demo_rad_nms demo_pos_nms
           demo_param_names tt [70; -5; 3; 300]).
  - intros a Ha. unfold demo_ishape, demo_pad. split; lia.
  - reflexivity.
Defined.

End ParticleWitness.

(** ** The PSF width heuristic *)

Section RoundingFacts.
Open Scope R_scope.

Lemma floor_spec (x : R) : IZR (floor x) <= x < IZR (floor x) + 1.
Proof. unfold floor. pose proof (base_Int_part x). lra. Qed.

Lemma floor_mono (x y : R) : x <= y -> (floor x <= floor y)%Z.
Proof.
  intros H. pose proof (floor_spec x). pose proof (floor_spec y).
  assert (Hlt : IZR (floor x) < IZR (floor y + 1)) by (rewrite plus_IZR; lra).
  apply lt_IZR in Hlt. lia.
Qed.

Lemma floor_nonneg (x : R) : 0 <= x -> (0 <= floor x)%Z.
Proof.
  intros H. pose proof (floor_spec x).
  assert (Hlt : IZR (-1) < IZR (floor x)) by lra.
  apply lt_IZR in Hlt. lia.
Qed.

Lemma ceil_mono (x y : R) : x <= y -> (ceil x <= ceil y)%Z.
Proof.
  intros H. unfold ceil.
  assert (Hm : (floor (- y) <= floor (- x))%Z) by (apply floor_mono; lra).
  lia.
Qed.

Lemma ceil_nonneg (x : R) : -1 < x -> (0 <= ceil x)%Z.
Proof.
  intros H. unfold ceil. pose proof (floor_spec (- x)).
  assert (Hlt : IZR (floor (- x)) < IZR 1) by lra.
  apply lt_IZR in Hlt. lia.
Qed.

Lemma round_cases (x : R) : round x = floor x \/ round x = (floor x + 1)%Z.
Proof.
  unfold round. destruct (Rltb _ _); [auto|].
  destruct (Rltb _ _); [auto|]. destruct (Z.even _); auto.
Qed.

Lemma round_nonneg (x : R) : 0 <= x -> (0 <= round x)%Z.
Proof.
  intros H. pose proof (floor_nonneg H). destruct (round_cases x); lia.
Qed.

(** [np.round] is monotone. *)
Lemma round_mono (x y : R) : x <= y -> (round x <= round y)%Z.
Proof.
  intros H. pose proof (floor_mono H) as Hf.
  destruct (Z.eq_dec (floor x) (floor y)) as [E | E].
  - unfold round. rewrite <- E.
    destruct (Rltb (x - IZR (floor x)) (1 / 2)) eqn:X1;
      destruct (Rltb (y - IZR (floor x)) (1 / 2)) eqn:Y1;
      destruct (Rltb (1 / 2) (x - IZR (floor x))) eqn:X2;
      destruct (Rltb (1 / 2) (y - IZR (floor x))) eqn:Y2;
      destruct (Z.even (floor x));
      try lia;
      repeat match goal with
             | H : Rltb _ _ = true |- _ => apply Rltb_true_iff in H
             | H : Rltb _ _ = false |- _ => apply Rltb_false_iff in H
             end; lra.
  - destruct (round_cases x); destruct (round_cases y); lia.
Qed.

Lemma odd_double_succ (z : Z) : Z.odd (z * 2 + 1) = true.
Proof. rewrite Z.add_comm, Z.mul_comm, Z.odd_add_mul_2. reflexivity. Qed.

End RoundingFacts.

Section WidthFacts.
Open Scope R_scope.
Import PSF.

Lemma first_guess_mono (e e' : R) :
  0 < e' <= e ->
  Rpower (8 / PI / e) (1 / 3) <= Rpower (8 / PI / e') (1 / 3).
Proof.
  intros [H0 Hle]. pose proof PI_bounds as HP.
  assert (Hc : 0 < 8 / PI) by (apply Rdiv_lt_0_compat; lra).
  apply Rle_Rpower_l; [lra|]. split.
  - apply Rdiv_lt_0_compat; lra.
  - unfold Rdiv at 1 3. apply Rmult_le_compat_l; [lra|].
    apply Rinv_le_contravar; assumption.
Qed.

Lemma psf_width_pos (e k alpha : R) :
  0 < e -> 0 < k -> 0 < sin alpha -> 0 < psf_width e k alpha.
Proof.
  intros He Hk Hs. unfold psf_width. pose proof PI_bounds as HP.
  set (fg := Rpower (8 / PI / e) (1 / 3)).
  assert (Hfg : 0 < fg) by (unfold fg, Rpower; apply exp_pos).
  assert (Hq : 0 < fg / PI) by (apply Rdiv_lt_0_compat; lra).
  assert (Hn : (0 <= ceil (fg / PI - 0.25))%Z) by (apply ceil_nonneg; lra).
  apply IZR_le in Hn.
  apply Rdiv_lt_0_compat; [|exact Hs].
  apply Rdiv_lt_0_compat; [|exact Hk]. nra.
Qed.

Lemma psf_width_mono (e e' k alpha : R) :
  0 < e' <= e -> 0 < k -> 0 < sin alpha ->
  psf_width e k alpha <= psf_width e' k alpha.
Proof.
  intros He Hk Hs. unfold psf_width. pose proof PI_bounds as HP.
  pose proof (first_guess_mono He) as Hfg.
  set (fg := Rpower (8 / PI / e) (1 / 3)) in *.
  set (fg' := Rpower (8 / PI / e') (1 / 3)) in *.
  assert (Hq : fg / PI - 0.25 <= fg' / PI - 0.25).
  { unfold Rdiv. apply Rplus_le_compat_r.
    apply Rmult_le_compat_r; [|exact Hfg].
    left. apply Rinv_0_lt_compat. lra. }
  apply ceil_mono in Hq. apply IZR_le in Hq.
  unfold Rdiv. apply Rmult_le_compat_r.
  { left. apply Rinv_0_lt_compat. exact Hs. }
  apply Rmult_le_compat_r.
  { left. apply Rinv_0_lt_compat. exact Hk. }
  nra.
Qed.

(** C7.  For an error in (0,1), [k > 0] and [alpha] in (0, pi/2),
    [guess_psf_width] with rounding returns
    [2*round(second_guess/(k*sin(alpha))) + 1] with
    [first_guess = (8/(pi*error))^(1/3)],
    [n = ceil(first_guess/pi - 0.25)], [second_guess = (n + 0.25)*pi];
    the value is odd and positive, and a smaller error never gives a
    smaller width. *)
Theorem guess_psf_width_spec (error k alpha : R) :
  0 < error < 1 -> 0 < k -> 0 < alpha < PI / 2 ->
  let first_guess := Rpower (8 / (PI * error)) (1 / 3) in
  let n := IZR (ceil (first_guess / PI - 0.25)) in
  let second_guess := (n + 0.25) * PI in
  let w := (2 * round (second_guess / (k * sin alpha)) + 1)%Z in
  guess_psf_width error k alpha true = inl w /\
  Z.odd w = true /\ (0 < w)%Z /\
  forall error', 0 < error' <= error ->
    exists w', guess_psf_width error' k alpha true = inl w' /\ (w <= w')%Z.
Proof.
  intros He Hk Ha first_guess n second_guess w.
  pose proof PI_bounds as HP.
  assert (Hs : 0 < sin alpha) by (apply sin_gt_0; lra).
  assert (Ew : w = (round (psf_width error k alpha) * 2 + 1)%Z).
  { unfold w, psf_width, second_guess, n, first_guess.
    replace (8 / PI / error) with (8 / (PI * error))
      by (unfold Rdiv; rewrite Rinv_mult; ring).
    match goal with
    | |- (2 * round ?a + 1 = round ?b * 2 + 1)%Z =>
        replace b with a
          by (unfold Rdiv; rewrite (Rinv_mult k (sin alpha)); ring)
    end.
    lia. }
  rewrite Ew. split; [reflexivity|].
  split; [apply odd_double_succ|].
  pose proof (@psf_width_pos error k alpha (proj1 He) Hk Hs) as Hpos.
  assert (Hr : (0 <= round (psf_width error k alpha))%Z)
    by (apply round_nonneg; lra).
  split; [lia|].
  intros error' He'. eexists. split; [reflexivity|].
  assert (Hm : (round (psf_width error k alpha)
                <= round (psf_width error' k alpha))%Z)
    by (apply round_mono, psf_width_mono; assumption).
  lia.
Qed.

Lemma guess_psf_width_spec_witness :
  let first_guess := Rpower (8 / (PI * 1e-3)) (1 / 3) in
  let n := IZR (ceil (first_guess / PI - 0.25)) in
  let second_guess := (n + 0.25) * PI in
  let w := (2 * round (second_guess / (1 * sin 1)) + 1)%Z in
  guess_psf_width 1e-3 1 1 true = inl w /\
  Z.odd w = true /\ (0 < w)%Z /\
  forall error', 0 < error' <= 1e-3 ->
    exists w', guess_psf_width error' 1 1 true = inl w' /\ (w <= w')%Z.
Proof.
  apply (@guess_psf_width_spec 1e-3 1 1).
  - lra.
  - lra.
  - pose proof PI_bounds. lra.
Defined.

End WidthFacts.

(** ** [PSF2D.execute] *)

Section ExecuteFacts.
Import PSF.

Variable Img : Type.
Variable CImg : Type.
Variable zeros2 : Img.
Variable img_add : Img -> Img -> Img.
Variable fft2 : Img -> CImg.
Variable ifft2 : CImg -> CImg.
Variable cmul : CImg -> CImg -> CImg.
Variable real_part : CImg -> Img.

Local Abbreviation conv_ := (_conv_2d fft2 ifft2 cmul real_part).
Local Abbreviation sum_axis0_ := (sum_axis0 zeros2 img_add).
Local Abbreviation execute_ :=
  (execute zeros2 img_add fft2 ifft2 cmul real_part).

Lemma modify_at_app {A} (done rest : list A) (x y : A) :
  modify_at (List.length done) (fun _ => y) (done ++ x :: rest)
  = Ok (done ++ y :: rest).
Proof.
  induction done as [|d done IH]; simpl; [reflexivity|].
  rewrite IH. reflexivity.
Qed.

Lemma for_range_ext {S} (l : list nat) (body body' : nat -> S -> result S)
    (s : S) :
  (forall a s', In a l -> body a s' = body' a s') ->
  for_range l body s = for_range l body' s.
Proof.
  revert s. induction l as [|a l IH]; intros s H; simpl; [reflexivity|].
  rewrite (H a s) by (left; reflexivity).
  destruct (body' a s) as [s'|e]; simpl; [|reflexivity].
  apply IH. intros b s'' Hb. apply H. right. exact Hb.
Qed.

(** A loop that stores a value at each index of a range fills the range. *)
Lemma for_range_fill {A} (val : nat -> result A) (w : nat -> A) (n b : nat)
    (done rest : list A) :
  List.length done = b -> List.length rest = n ->
  (forall a, (b <= a < b + n)%nat -> val a = Ok (w a)) ->
  for_range (seq b n)
    (fun a acc => (v <- val a ;; modify_at a (fun _ => v) acc)%py)
    (done ++ rest)
  = Ok (done ++ map w (seq b n)).
Proof.
  revert b done rest. induction n as [|n IH]; intros b done rest Hd Hr Hv.
  - destruct rest; [reflexivity | discriminate].
  - destruct rest as [|x rest]; [discriminate|]. simpl.
    rewrite (Hv b) by lia. simpl. rewrite <- Hd, modify_at_app. simpl.
    replace (done ++ w (List.length done) :: rest)
      with ((done ++ [w (List.length done)]) ++ rest)
      by (rewrite <- app_assoc; reflexivity).
    rewrite IH.
    + rewrite <- app_assoc. reflexivity.
    + rewrite length_app. simpl. lia.
    + simpl in Hr. lia.
    + intros a Ha. apply Hv. lia.
Qed.

Lemma map_const_seq {A} (y : A) (b n : nat) :
  map (fun _ => y) (seq b n) = repeat y n.
Proof.
  revert b. induction n as [|n IH]; intros b; simpl; [reflexivity|].
  rewrite IH. reflexivity.
Qed.

Lemma for_range_fill_const {A} (y : A) (n : nat) (l : list A) :
  List.length l = n ->
  for_range (seq 0 n) (fun a acc => modify_at a (fun _ => y) acc) l
  = Ok (repeat y n).
Proof.
  intros Hl. rewrite <- (map_const_seq y 0 n).
  apply (@for_range_fill A (fun _ => Ok y) (fun _ => y) n 0%nat [] l);
    auto.
Qed.

(** An out-of-range store stops the loop. *)
Lemma for_range_overflow {A} (y : A) (n b : nat) (l : list A) :
  (List.length l < b + n)%nat -> (b <= List.length l)%nat ->
  for_range (seq b n) (fun a acc => modify_at a (fun _ => y) acc) l
  = Raise IndexError.
Proof.
  revert b l. induction n as [|n IH]; intros b l H1 H2; [lia|]. simpl.
  destruct (Nat.eq_dec b (List.length l)) as [E | E].
  - rewrite modify_at_raise by lia. reflexivity.
  - destruct (@modify_at_ok _ b (fun _ => y) l) as (l' & -> & Hl & _); [lia|].
    simpl. apply IH; lia.
Qed.

Lemma map_seq_conv (field : list Img) (kpsf : list CImg) (b : nat)
    (w : nat -> Img) :
  List.length field = List.length kpsf ->
  (forall i f k, nth_error field i = Some f -> nth_error kpsf i = Some k ->
                 w (b + i)%nat = conv_ f k) ->
  map w (seq b (List.length field))
  = map (fun fk => conv_ (fst fk) (snd fk)) (combine field kpsf).
Proof.
  revert kpsf b. induction field as [|f field IH]; intros [|k kpsf] b Hl Hw;
    simpl in Hl; try discriminate; [reflexivity|].
  simpl. f_equal.
  - rewrite <- (Hw 0%nat f k) by reflexivity. f_equal. lia.
  - apply IH; [lia|]. intros i f' k' Hf Hk.
    rewrite <- (Hw (S i) f' k') by assumption. f_equal. lia.
Qed.

(** C8, as amended.  For a field with as many z-slices as the PSF has
    ([shape[0]], which is also the depth of [_kpsf]), [execute] convolves
    each slice
    with its slice of the frequency-domain kernel (transform, multiply,
    inverse transform, real part), sums the convolutions along z, and
    returns an array of the field's depth whose every slice is that
    sum. *)
Theorem execute_spec (self : psf2d CImg) (field : list Img) :
  List.length field = shape0 self ->
  List.length (_kpsf self) = shape0 self ->
  execute_ self field
  = Ok (repeat
          (sum_axis0_
             (map (fun fk => real_part (ifft2 (cmul (fft2 (fst fk)) (snd fk))))
                (combine field (_kpsf self))))
          (List.length field)).
Proof.
  intros Hf Hk. unfold execute.
  set (w := fun a => match nth_error field a, nth_error (_kpsf self) a with
                     | Some f, Some k => conv_ f k
                     | _, _ => zeros2
                     end).
  rewrite (@for_range_ext _ _ _
             (fun a acc =>
                (v <- (f <- index field a ;; k <- index (_kpsf self) a ;;
                       Ok (conv_ f k)) ;;
                 modify_at a (fun _ => v) acc)%py)).
  2:{ intros a s' _. destruct (index field a); simpl; [|reflexivity].
      destruct (index (_kpsf self) a); reflexivity. }
  rewrite (@for_range_fill _ _ w (List.length field) 0 []
             (repeat zeros2 (List.length field))).
  - simpl.
    rewrite (@map_seq_conv field (_kpsf self) 0 w) by
      (try lia; intros i f k Ef Ek; unfold w; simpl; rewrite Ef, Ek; reflexivity).
    rewrite <- Hf.
    apply for_range_fill_const, repeat_length.
  - reflexivity.
  - apply repeat_length.
  - intros a Ha. unfold w.
    destruct (@index_ok _ field a) as (f & -> & ->); [lia|].
    destruct (@index_ok _ (_kpsf self) a) as (k & -> & ->); [lia|].
    reflexivity.
Qed.

(** A field with fewer slices than [shape[0]] makes the second loop store
    out of range. *)
Lemma execute_short_field (self : psf2d CImg) (field : list Img) :
  (List.length field < shape0 self)%nat ->
  (List.length field <= List.length (_kpsf self))%nat ->
  execute_ self field = Raise IndexError.
Proof.
  intros Hf Hk. unfold execute.
  set (w := fun a => match nth_error field a, nth_error (_kpsf self) a with
                     | Some f, Some k => conv_ f k
                     | _, _ => zeros2
                     end).
  rewrite (@for_range_ext _ _ _
             (fun a acc =>
                (v <- (f <- index field a ;; k <- index (_kpsf self) a ;;
                       Ok (conv_ f k)) ;;
                 modify_at a (fun _ => v) acc)%py)).
  2:{ intros a s' _. destruct (index field a); simpl; [|reflexivity].
      destruct (index (_kpsf self) a); reflexivity. }
  rewrite (@for_range_fill _ _ w (List.length field) 0 []
             (repeat zeros2 (List.length field))).
  - simpl. apply for_range_overflow; rewrite repeat_length; lia.
  - reflexivity.
  - apply repeat_length.
  - intros a Ha. unfold w.
    destruct (@index_ok _ field a) as (f & -> & ->); [lia|].
    destruct (@index_ok _ (_kpsf self) a) as (k & -> & ->); [lia|].
    reflexivity.
Qed.

End ExecuteFacts.

Section ExecuteWitness.
Import PSF.

Lemma execute_spec_witness :
  execute 0%Z Z.add (fun x => x) (fun x => x) Z.mul (fun x => x)
    demo_psf demo_field
  = Ok (repeat
          (sum_axis0 0%Z Z.add
             (map (fun fk => (fst fk * snd fk)%Z)
                (combine demo_field (_kpsf demo_psf))))
          (List.length demo_field)).
Proof.
  apply (@execute_spec Z Z 0%Z Z.add (fun x => x) (fun x => x) Z.mul
           (fun x => x) demo_psf demo_field); reflexivity.
Defined.

(** C8 as stated fails for a field of another depth than the PSF's.  The
    PSF [demo_psf] has depth 2: a field of one slice makes the second
    loop, which runs to [shape[0]], store out of range, and a field of
    three slices makes the first loop read [_kpsf] out of range; both
    calls raise [IndexError] instead of returning an array. *)
Lemma execute_depth_mismatch :
  execute 0%Z Z.add (fun x => x) (fun x => x) Z.mul (fun x => x)
    demo_psf [3%Z]
  = Raise IndexError /\
  execute 0%Z Z.add (fun x => x) (fun x => x) Z.mul (fun x => x)
    demo_psf [3%Z; 4%Z; 5%Z]
  = Raise IndexError.
Proof. split; reflexivity. Qed.

End ExecuteWitness.

(* ===================================================================== *)
(** * Part III: further properties of the code                            *)
(* ===================================================================== *)

(** ** Shapes of the edge kernels *)

Section KernelProfiles.
Open Scope R_scope.
Import Kernels.

Lemma clip_mono (x y lo hi : R) : x <= y -> clip x lo hi <= clip y lo hi.
Proof.
  intros H. unfold clip.
  apply Rle_min_compat_r, Rle_max_compat_r, H.
Qed.

(** X1.  For a positive width [alpha], [sphere_lerp] is a ramp in [dr]:
    its values lie between 0 and 1, it is 1 up to [dr = -alpha], 0 from
    [dr = alpha] on, [(alpha - dr)/(2 alpha)] in between, and it never
    increases with [dr]. *)
Theorem lerp_profile (dr a alpha : R) :
  0 < alpha ->
  0 <= sphere_lerp dr a alpha <= 1
  /\ (dr <= - alpha -> sphere_lerp dr a alpha = 1)
  /\ (alpha <= dr -> sphere_lerp dr a alpha = 0)
  /\ (- alpha <= dr <= alpha -> sphere_lerp dr a alpha = (alpha - dr) / (2 * alpha))
  /\ (forall dr', dr <= dr' -> sphere_lerp dr' a alpha <= sphere_lerp dr a alpha).
Proof.
  intros Ha. unfold sphere_lerp.
  assert (Hi : 0 < / (2 * alpha)) by (apply Rinv_0_lt_compat; lra).
  assert (Hm : forall x, (x + alpha) / (2 * alpha) = (x + alpha) * / (2 * alpha))
    by reflexivity.
  assert (H1 : 2 * alpha * / (2 * alpha) = 1) by (apply Rinv_r; lra).
  split; [|split; [|split; [|split]]].
  - pose proof (@clip_bounds ((dr + alpha) / (2 * alpha)) 0 1). lra.
  - intros H. rewrite clip_below; [lra | lra |].
    rewrite Hm. nra.
  - intros H. rewrite clip_above; [lra | lra |].
    rewrite Hm. nra.
  - intros H. rewrite clip_inside.
    + unfold Rdiv. nra.
    + rewrite Hm. split; nra.
  - intros dr' H.
    pose proof (@clip_mono ((dr + alpha) / (2 * alpha)) ((dr' + alpha) / (2 * alpha)) 0 1).
    assert ((dr + alpha) / (2 * alpha) <= (dr' + alpha) / (2 * alpha)).
    { rewrite !Hm. nra. }
    lra.
Qed.

Lemma lerp_profile_witness :
  0 <= sphere_lerp (-1) 5 0.4539 <= 1
  /\ (-1 <= - (0.4539) -> sphere_lerp (-1) 5 0.4539 = 1)
  /\ (0.4539 <= -1 -> sphere_lerp (-1) 5 0.4539 = 0)
  /\ (- (0.4539) <= -1 <= 0.4539 ->
      sphere_lerp (-1) 5 0.4539 = (0.4539 - -1) / (2 * 0.4539))
  /\ (forall dr', -1 <= dr' ->
        sphere_lerp dr' 5 0.4539 <= sphere_lerp (-1) 5 0.4539).
Proof. apply (@lerp_profile (-1) 5 0.4539). lra. Defined.

(** X2.  [sphere_logistic] takes values strictly between 0 and 1, its
    values at [dr] and [-dr] add up to 1, and for a positive [alpha] it
    decreases strictly with [dr]. *)
Theorem logistic_profile (dr a alpha : R) :
  0 < sphere_logistic dr a alpha < 1
  /\ sphere_logistic dr a alpha + sphere_logistic (- dr) a alpha = 1
  /\ (0 < alpha -> forall dr', dr < dr' ->
        sphere_logistic dr' a alpha < sphere_logistic dr a alpha).
Proof.
  unfold sphere_logistic.
  pose proof (exp_pos (alpha * dr)) as He.
  assert (Hi : 0 < / (1 + exp (alpha * dr))) by (apply Rinv_0_lt_compat; lra).
  assert (H1 : (1 + exp (alpha * dr)) * / (1 + exp (alpha * dr)) = 1)
    by (apply Rinv_r; lra).
  split; [|split].
  - unfold Rdiv. split; nra.
  - replace (alpha * - dr) with (- (alpha * dr)) by ring.
    rewrite exp_Ropp.
    assert (H2 : exp (alpha * dr) * / exp (alpha * dr) = 1) by (apply Rinv_r; lra).
    assert (H3 : 0 < / exp (alpha * dr)) by (apply Rinv_0_lt_compat; lra).
    set (e := exp (alpha * dr)) in *. set (i := / e) in *.
    assert (H4 : (1 + i) * / (1 + i) = 1) by (apply Rinv_r; lra).
    unfold Rdiv.
    assert (H5 : / (1 + i) = e * / (1 + e)).
    { apply Rmult_eq_reg_l with (1 + i); [|lra]. rewrite H4.
      replace ((1 + i) * (e * / (1 + e))) with ((e + e * i) * / (1 + e)) by ring.
      rewrite H2. rewrite Rplus_comm. exact (eq_sym H1). }
    rewrite H5. nra.
  - intros Ha dr' Hd.
    pose proof (exp_pos (alpha * dr')) as He'.
    assert (Hlt : exp (alpha * dr) < exp (alpha * dr')) by (apply exp_increasing; nra).
    unfold Rdiv. rewrite !Rmult_1_l.
    apply Rinv_lt_contravar; nra.
Qed.

(** X3.  [sphere_constrained_cubic] is 1 for [dr <= -sqrt(3)/2] and 0 for
    [dr >= sqrt(3)/2], whatever [a] and [alpha]: the clipped argument makes
    one of its two factors vanish. *)
Theorem cubic_plateaus (dr a alpha : R) :
  (dr <= - 0.5 * sqrt 3 -> sphere_constrained_cubic dr a alpha = 1)
  /\ (0.5 * sqrt 3 <= dr -> sphere_constrained_cubic dr a alpha = 0).
Proof.
  pose proof sqrt3_bounds as Hs.
  assert (Hi : sqrt 3 * / sqrt 3 = 1) by (apply Rinv_r; lra).
  split; intros H; unfold sphere_constrained_cubic.
  - rewrite clip_below by lra.
    replace (- 0.5 * sqrt 3 + 0.5 * sqrt 3) with 0 by lra.
    replace (- 0.5 * sqrt 3 - 0.5 * sqrt 3) with (- sqrt 3) by lra.
    unfold Rdiv. rewrite !Rmult_0_r, Rmult_0_l. lra.
  - rewrite clip_above by lra.
    replace (0.5 * sqrt 3 - 0.5 * sqrt 3) with 0 by lra.
    unfold Rdiv. rewrite !Rmult_0_r, !Rmult_0_l. lra.
Qed.

(** X4.  For a positive [alpha], [sphere_triangle_cdf] is 1 up to
    [dr = -alpha], [1 - (dr+alpha)^2/(2 alpha^2)] for [-alpha < dr < 0],
    [(alpha-dr)^2/(2 alpha^2)] for [0 < dr < alpha] and 0 from [alpha] on;
    at [dr = 0] itself every indicator product vanishes and the value
    is 1. *)
Theorem triangle_profile (dr a alpha : R) :
  0 < alpha ->
  (dr <= - alpha -> sphere_triangle_cdf dr a alpha = 1)
  /\ (- alpha < dr < 0 ->
        sphere_triangle_cdf dr a alpha = 1 - (dr + alpha)^2 / (2 * alpha^2))
  /\ (dr = 0 -> sphere_triangle_cdf dr a alpha = 1)
  /\ (0 < dr < alpha ->
        sphere_triangle_cdf dr a alpha = (alpha - dr)^2 / (2 * alpha^2))
  /\ (alpha <= dr -> sphere_triangle_cdf dr a alpha = 0).
Proof.
  intros Ha. unfold sphere_triangle_cdf.
  assert (Hq : 0 < 2 * alpha ^ 2) by nra.
  assert (Hi : 0 < / (2 * alpha ^ 2)) by (apply Rinv_0_lt_compat; lra).
  assert (H1 : 2 * alpha ^ 2 * / (2 * alpha ^ 2) = 1) by (apply Rinv_r; lra).
  split; [|split; [|split; [|split]]]; intros H.
  - replace (Rltb dr 0) with true by (symmetry; apply Rltb_true_iff; lra).
    replace (Rltb (- alpha) dr) with false by (symmetry; apply Rltb_false_iff; lra).
    replace (Rltb 0 dr) with false by (symmetry; apply Rltb_false_iff; lra).
    cbn [as_float].
    match goal with |- 1 - clip ?x 0 1 = _ => replace x with 0 by ring end.
    rewrite clip_inside by lra. lra.
  - replace (Rltb dr 0) with true by (symmetry; apply Rltb_true_iff; lra).
    replace (Rltb (- alpha) dr) with true by (symmetry; apply Rltb_true_iff; lra).
    replace (Rltb 0 dr) with false by (symmetry; apply Rltb_false_iff; lra).
    cbn [as_float].
    match goal with |- 1 - clip ?x 0 1 = _ =>
      replace x with ((dr + alpha) ^ 2 / (2 * alpha ^ 2)) by ring end.
    set (q := (dr + alpha) ^ 2 / (2 * alpha ^ 2)).
    assert (0 <= q <= 1).
    { unfold q, Rdiv.
      assert (HX : 0 <= (dr + alpha) ^ 2 <= alpha ^ 2) by (split; [apply pow2_ge_0 | nra]).
      set (i := / (2 * alpha ^ 2)) in *. set (X := (dr + alpha) ^ 2) in *.
      set (A := alpha ^ 2) in *. clearbody i X A.
      pose proof (Rmult_le_pos X i). pose proof (Rmult_le_pos (A - X) i). nra. }
    rewrite clip_inside by lra. lra.
  - subst dr. rewrite !Rltb_irrefl. cbn [as_float].
    match goal with |- 1 - clip ?x 0 1 = _ => replace x with 0 by ring end.
    rewrite clip_inside by lra. lra.
  - replace (Rltb dr 0) with false by (symmetry; apply Rltb_false_iff; lra).
    replace (Rltb 0 dr) with true by (symmetry; apply Rltb_true_iff; lra).
    replace (Rltb dr alpha) with true by (symmetry; apply Rltb_true_iff; lra).
    cbn [as_float].
    match goal with |- 1 - clip ?x 0 1 = _ =>
      replace x with (1 - (alpha - dr) ^ 2 / (2 * alpha ^ 2)) by ring end.
    set (q := (alpha - dr) ^ 2 / (2 * alpha ^ 2)).
    assert (0 <= q <= 1).
    { unfold q, Rdiv.
      assert (HX : 0 <= (alpha - dr) ^ 2 <= alpha ^ 2) by (split; [apply pow2_ge_0 | nra]).
      set (i := / (2 * alpha ^ 2)) in *. set (X := (alpha - dr) ^ 2) in *.
      set (A := alpha ^ 2) in *. clearbody i X A.
      pose proof (Rmult_le_pos X i). pose proof (Rmult_le_pos (A - X) i). nra. }
    rewrite clip_inside by lra. lra.
  - replace (Rltb dr 0) with false by (symmetry; apply Rltb_false_iff; lra).
    replace (Rltb 0 dr) with true by (symmetry; apply Rltb_true_iff; lra).
    replace (Rltb dr alpha) with false by (symmetry; apply Rltb_false_iff; lra).
    cbn [as_float].
    match goal with |- 1 - clip ?x 0 1 = _ => replace x with 1 by ring end.
    rewrite clip_inside by lra. lra.
Qed.

Lemma triangle_profile_witness :
  (-0.3 <= - (0.6618) -> sphere_triangle_cdf (-0.3) 5 0.6618 = 1)
  /\ (- (0.6618) < -0.3 < 0 ->
        sphere_triangle_cdf (-0.3) 5 0.6618
        = 1 - (-0.3 + 0.6618)^2 / (2 * 0.6618^2))
  /\ (-0.3 = 0 -> sphere_triangle_cdf (-0.3) 5 0.6618 = 1)
  /\ (0 < -0.3 < 0.6618 ->
        sphere_triangle_cdf (-0.3) 5 0.6618
        = (0.6618 - -0.3)^2 / (2 * 0.6618^2))
  /\ (0.6618 <= -0.3 -> sphere_triangle_cdf (-0.3) 5 0.6618 = 0).
Proof. apply (@triangle_profile (-0.3) 5 0.6618). lra. Defined.

End KernelProfiles.

(** ** The trimmed Gaussian kernel against the full one *)

Section TrimmedKernel.
Open Scope R_scope.
Import Kernels.

Variable erf : R -> R.

(** X5.  For [alpha <> 0] and [cut >= 0] the trimmed kernel is 1 below
    [-cut], 0 above [cut], and within the cut it differs from
    [sphere_analytical_gaussian] by exactly the two terms in [dr + 2a]
    that it leaves out: the error function replaced by 1 and its
    exponential by 0. *)
Theorem trim_drops_far_side_terms (dr a alpha cut : R) :
  alpha <> 0 -> 0 <= cut ->
  (dr < - cut -> gaussian_trim_at erf a alpha cut dr = 1)
  /\ (cut < dr -> gaussian_trim_at erf a alpha cut dr = 0)
  /\ (Rabs dr <= cut ->
      gaussian_trim_at erf a alpha cut dr
      - sphere_analytical_gaussian erf dr a alpha
      = 0.5 * (1 - erf ((dr + 2 * a) / (alpha * sqrt 2)))
        - sqrt (0.5 / PI) * (alpha / (dr + a + 1e-10))
          * exp (- 0.5 * (dr + 2 * a) ^ 2 / alpha ^ 2)).
Proof.
  intros Ha Hc. unfold gaussian_trim_at.
  split; [|split].
  - intros H. replace (Rltb dr (- cut)) with true
      by (symmetry; apply Rltb_true_iff; lra).
    reflexivity.
  - intros H. replace (Rltb dr (- cut)) with false
      by (symmetry; apply Rltb_false_iff; lra).
    replace (Rltb cut dr) with true by (symmetry; apply Rltb_true_iff; lra).
    reflexivity.
  - intros H.
    assert (Hd : - cut <= dr <= cut).
    { unfold Rabs in H. destruct (Rcase_abs dr); lra. }
    replace (Rltb dr (- cut)) with false
      by (symmetry; apply Rltb_false_iff; lra).
    replace (Rltb cut dr) with false by (symmetry; apply Rltb_false_iff; lra).
    replace (Rleb (Rabs dr) cut) with true
      by (symmetry; apply Rleb_true_iff; exact H).
    unfold sphere_analytical_gaussian.
    assert (Hs : sqrt 2 * sqrt 2 = 2) by (apply sqrt_sqrt; lra).
    assert (Hs0 : sqrt 2 <> 0) by (intros E; rewrite E in Hs; lra).
    assert (Ee : - (- dr / (alpha * sqrt 2)) * (- dr / (alpha * sqrt 2))
                 = - 0.5 * dr ^ 2 / alpha ^ 2).
    { transitivity (- (dr ^ 2) / (alpha ^ 2 * (sqrt 2 * sqrt 2))).
      - field. split; assumption.
      - rewrite Hs. unfold Rdiv. rewrite Rinv_mult.
        set (u := dr ^ 2). set (v := / alpha ^ 2). nra. }
    rewrite Ee. ring.
Qed.

End TrimmedKernel.

Section TrimmedKernelWitness.
Open Scope R_scope.
Import Kernels.

Local Abbreviation erf := (fun x : R => x).

Lemma trim_drops_far_side_terms_witness :
  (0.5 < - (1.6) -> gaussian_trim_at erf 5 0.2765 1.6 0.5 = 1)
  /\ (1.6 < 0.5 -> gaussian_trim_at erf 5 0.2765 1.6 0.5 = 0)
  /\ (Rabs 0.5 <= 1.6 ->
      gaussian_trim_at erf 5 0.2765 1.6 0.5
      - sphere_analytical_gaussian erf 0.5 5 0.2765
      = 0.5 * (1 - erf ((0.5 + 2 * 5) / (0.2765 * sqrt 2)))
        - sqrt (0.5 / PI) * (0.2765 / (0.5 + 5 + 1e-10))
          * exp (- 0.5 * (0.5 + 2 * 5) ^ 2 / 0.2765 ^ 2)).
Proof. apply (@trim_drops_far_side_terms erf 0.5 5 0.2765 1.6); lra. Defined.

End TrimmedKernelWitness.

(** ** The signed distance and the volume iteration *)

Section Geometry.
Open Scope R_scope.
Import Platonic.

(** X6.  With [zscale = 1], and for a pixel that does not sit on the
    centre (shifted by [1e-8] along each axis), [inner] is the distance of
    the pixel from that centre minus the radius: negative inside the
    sphere, positive outside. *)
Theorem inner_is_signed_distance (r p : vec3) (a : R) :
  let d := vmap2 Rminus (vmap2 Rminus r p) (1e-8, 1e-8, 1e-8) in
  norm d <> 0 ->
  inner r p a 1 = norm d - a.
Proof. exact (@inner_signed_distance r p a). Qed.

Lemma inner_is_signed_distance_witness :
  inner (3 + 1e-8, 1e-8, 1e-8) (0, 0, 0) 1 1 = 2.
Proof.
  assert (E : norm (vmap2 Rminus (vmap2 Rminus (3 + 1e-8, 1e-8, 1e-8) (0, 0, 0))
                      (1e-8, 1e-8, 1e-8)) = 3).
  { cbn [vmap2 norm].
    replace ((3 + 1e-8 - 0 - 1e-8) ^ 2 + (1e-8 - 0 - 1e-8) ^ 2
             + (1e-8 - 0 - 1e-8) ^ 2) with (Rsqr 3) by (unfold Rsqr; lra).
    apply sqrt_Rsqr. lra. }
  rewrite (@inner_is_signed_distance (3 + 1e-8, 1e-8, 1e-8) (0, 0, 0) 1).
  - rewrite E. lra.
  - rewrite E. lra.
Defined.

End Geometry.

Section VolumeIteration.
Open Scope R_scope.
Import Platonic.

Variable volume_error : R.
Variable max_radius_change : R.
Variable sphere_function : list R -> R -> list R.

Local Abbreviation exact_volume_sphere_ :=
  (exact_volume_sphere volume_error max_radius_change sphere_function).
Local Abbreviation volume_loop_ :=
  (volume_loop volume_error max_radius_change sphere_function).

Lemma volume_loop_invariant (fuel : nat) (rvec : list vec3) (p : vec3)
    (radius zs vol_goal rprime : R) :
  Rabs (rprime - radius) / radius <= max_radius_change ->
  exists rfinal,
    volume_loop_ fuel rvec p radius zs vol_goal rprime
      (sphere_function (map (fun r => inner r p rprime zs) rvec) rprime)
    = sphere_function (map (fun r => inner r p rfinal zs) rvec) rfinal
    /\ Rabs (rfinal - radius) / radius <= max_radius_change.
Proof.
  revert rprime. induction fuel as [|fuel IH]; intros rprime Hb; simpl.
  - exists rprime. split; [reflexivity | exact Hb].
  - destruct (Rltb _ volume_error); [exists rprime; split; [reflexivity | exact Hb]|].
    match goal with
    | |- context [Rltb max_radius_change ?x] =>
        destruct (Rltb max_radius_change x) eqn:E
    end.
    + exists rprime. split; [reflexivity | exact Hb].
    + apply Rltb_false_iff in E. apply IH. exact E.
Qed.

(** X7.  For a positive [radius] and a non-negative [max_radius_change],
    [exact_volume_sphere] returns the image drawn at some radius [rprime]
    within [max_radius_change] times [radius] of [radius]: a corrected
    radius that leaves this range is never drawn. *)
Theorem exact_volume_radius_bounded (rvec : list vec3) (p : vec3) (radius zs : R) :
  0 < radius -> 0 <= max_radius_change ->
  exists rprime,
    exact_volume_sphere_ rvec p radius zs
    = sphere_function (map (fun r => inner r p rprime zs) rvec) rprime
    /\ Rabs (rprime - radius) <= max_radius_change * radius.
Proof.
  intros Hr Hm. unfold exact_volume_sphere.
  destruct (@volume_loop_invariant MAX_VOLUME_ITERATIONS rvec p radius zs
              (4 / 3 * PI * radius ^ 3 / zs) radius) as (rfinal & E & Hb).
  - replace (radius - radius) with 0 by lra. rewrite Rabs_R0.
    unfold Rdiv. rewrite Rmult_0_l. exact Hm.
  - exists rfinal. split; [exact E|].
    apply (Rmult_le_compat_r radius) in Hb; [|lra].
    unfold Rdiv in Hb. rewrite Rmult_assoc, Rinv_l, Rmult_1_r in Hb by lra.
    exact Hb.
Qed.

End VolumeIteration.

Section VolumeIterationWitness.
Open Scope R_scope.
Import Platonic.

Lemma exact_volume_radius_bounded_witness :
  exists rprime,
    exact_volume_sphere 1e-5 1e-2 demo_sphere_function [(0, 0, 0)] (1, 1, 1) 1 1
    = demo_sphere_function
        (map (fun r => inner r (1, 1, 1) rprime 1) [(0, 0, 0)]) rprime
    /\ Rabs (rprime - 1) <= 1e-2 * 1.
Proof.
  apply (@exact_volume_radius_bounded 1e-5 1e-2 demo_sphere_function); lra.
Defined.

End VolumeIterationWitness.

(** ** Nearest particle, adding and removing particles *)

Section Nearest.
Open Scope R_scope.
Import Platonic.

Lemma argmin_from_spec (l pre : list R) (best : nat) (bv : R) :
  nth_error pre best = Some bv ->
  (forall j w, nth_error pre j = Some w -> bv <= w) ->
  (forall j w, (j < best)%nat -> nth_error pre j = Some w -> bv < w) ->
  exists v,
    nth_error (pre ++ l) (argmin_from best bv (List.length pre) l) = Some v /\
    (forall j w, nth_error (pre ++ l) j = Some w -> v <= w) /\
    (forall j w, (j < argmin_from best bv (List.length pre) l)%nat ->
                 nth_error (pre ++ l) j = Some w -> v < w).
Proof.
  revert pre best bv. induction l as [|x l IH]; intros pre best bv Hb Hle Hlt.
  - simpl. rewrite app_nil_r. exists bv. auto.
  - simpl. replace (pre ++ x :: l) with ((pre ++ [x]) ++ l)
      by (rewrite <- app_assoc; reflexivity).
    replace (Datatypes.S (List.length pre)) with (List.length (pre ++ [x]))
      by (rewrite length_app; simpl; lia).
    assert (Hnth : forall j w, nth_error (pre ++ [x]) j = Some w ->
              ((j < List.length pre)%nat /\ nth_error pre j = Some w)
              \/ (j = List.length pre /\ w = x)).
    { intros j w H. destruct (Nat.lt_ge_cases j (List.length pre)) as [Hj | Hj].
      - left. rewrite nth_error_app1 in H by exact Hj. auto.
      - right. rewrite nth_error_app2 in H by exact Hj.
        destruct (j - List.length pre)%nat as [|m] eqn:E; simpl in H.
        + inversion H. split; [lia | reflexivity].
        + destruct m; discriminate. }
    destruct (Rltb x bv) eqn:E.
    + apply Rltb_true_iff in E. apply IH.
      * rewrite nth_error_app2 by lia. rewrite Nat.sub_diag. reflexivity.
      * intros j w H. destruct (Hnth j w H) as [[_ H'] | [_ ->]]; [|lra].
        specialize (Hle j w H'). lra.
      * intros j w Hj H. destruct (Hnth j w H) as [[_ H'] | [-> _]]; [|lia].
        specialize (Hle j w H'). lra.
    + apply Rltb_false_iff in E. apply IH.
      * rewrite nth_error_app1; [exact Hb|].
        apply nth_error_Some. rewrite Hb. discriminate.
      * intros j w H. destruct (Hnth j w H) as [[_ H'] | [_ ->]]; [|lra].
        exact (Hle j w H').
      * intros j w Hj H. destruct (Hnth j w H) as [[_ H'] | [-> _]].
        -- exact (Hlt j w Hj H').
        -- exfalso. assert (best < List.length pre)%nat; [|lia].
           apply nth_error_Some. rewrite Hb. discriminate.
Qed.

Lemma closest_particle_nearest (x : vec3) (s : psc) :
  pos s <> [] ->
  exists k p,
    closest_particle x s = Ok k /\ nth_error (pos s) k = Some p /\
    (forall j q, nth_error (pos s) j = Some q -> dist2 p x <= dist2 q x) /\
    (forall j q, (j < k)%nat -> nth_error (pos s) j = Some q ->
                 dist2 p x < dist2 q x).
Proof.
  unfold closest_particle.
  intros Hne. destruct (pos s) as [|p0 ps] eqn:E; [congruence|].
  cbn [map argmin].
  destruct (@argmin_from_spec (map (fun p => dist2 p x) ps) [dist2 p0 x] 0
              (dist2 p0 x)) as (v & Hv & Hle & Hlt).
  - reflexivity.
  - intros [|[|j]] w H; simpl in H; inversion H. lra.
  - intros j w Hj. lia.
  - cbn [List.length app] in Hv, Hle, Hlt.
    set (k := argmin_from 0 (dist2 p0 x) 1 (map (fun p => dist2 p x) ps)) in *.
    change (dist2 p0 x :: map (fun p => dist2 p x) ps)
      with (map (fun p => dist2 p x) (p0 :: ps)) in Hv, Hle, Hlt.
    rewrite nth_error_map in Hv.
    destruct (nth_error (p0 :: ps) k) as [p|] eqn:Ek; [|discriminate].
    simpl in Hv. inversion Hv; subst v.
    exists k, p. split; [reflexivity|]. split; [exact Ek|]. split.
    + intros j q Hq. apply (Hle j). rewrite nth_error_map, Hq. reflexivity.
    + intros j q Hj Hq. apply (Hlt j); [exact Hj|].
      rewrite nth_error_map, Hq. reflexivity.
Qed.

(** X8.  [closest_particle] raises [ValueError] on a collection without
    particles; otherwise it returns the index of a particle whose squared
    distance to [x] is minimal, and the first index among those. *)
Theorem closest_particle_is_nearest (x : vec3) (s : psc) :
  (pos s = [] -> closest_particle x s = Raise ValueError)
  /\ (pos s <> [] ->
      exists k p,
        closest_particle x s = Ok k /\ nth_error (pos s) k = Some p /\
        (forall j q, nth_error (pos s) j = Some q -> dist2 p x <= dist2 q x) /\
        (forall j q, (j < k)%nat -> nth_error (pos s) j = Some q ->
                     dist2 p x < dist2 q x)).
Proof.
  split.
  - unfold closest_particle. intros ->. reflexivity.
  - apply closest_particle_nearest.
Qed.

Lemma dist2_nonneg (p q : vec3) : 0 <= dist2 p q.
Proof.
  destruct p as [[p0 p1] p2]. destruct q as [[q0 q1] q2].
  unfold dist2. cbn [vmap2].
  pose proof (pow2_ge_0 (p0 - q0)). pose proof (pow2_ge_0 (p1 - q1)).
  pose proof (pow2_ge_0 (p2 - q2)). lra.
Qed.

Lemma square_zero (x : R) : x ^ 2 = 0 -> x = 0.
Proof.
  intros H. destruct (Req_dec x 0) as [E | E]; [exact E|].
  exfalso. apply (pow_nonzero x 2 E). exact H.
Qed.

Lemma dist2_zero (p q : vec3) : dist2 p q = 0 <-> p = q.
Proof.
  destruct p as [[p0 p1] p2]. destruct q as [[q0 q1] q2].
  unfold dist2. cbn [vmap2]. split.
  - intros H.
    pose proof (pow2_ge_0 (p0 - q0)) as H0.
    pose proof (pow2_ge_0 (p1 - q1)) as H1.
    pose proof (pow2_ge_0 (p2 - q2)) as H2.
    assert (E0 : (p0 - q0) ^ 2 = 0) by lra.
    assert (E1 : (p1 - q1) ^ 2 = 0) by lra.
    assert (E2 : (p2 - q2) ^ 2 = 0) by lra.
    apply square_zero in E0, E1, E2.
    f_equal; [f_equal|]; lra.
  - intros E. inversion E; subst.
    replace (q0 - q0) with 0 by lra. replace (q1 - q1) with 0 by lra.
    replace (q2 - q2) with 0 by lra. simpl. lra.
Qed.

End Nearest.

Section AddRemove.
Open Scope R_scope.
Import Platonic.

Variable support_pad : R.
Variable exact_volume : bool.
Variable volume_error : R.
Variable max_radius_change : R.
Variable sphere_function : list R -> R -> list R.
Variable inner_l : vec3.
Variable tile_slicer : vec3 -> vec3 -> list pixel.
Variable rvecs : pixel -> vec3.
Variable parent_update : list param -> list R -> psc -> result psc.

Local Abbreviation draw_ :=
  (_draw_particle support_pad exact_volume volume_error max_radius_change
     sphere_function inner_l tile_slicer rvecs).
Local Abbreviation contribution_ :=
  (contribution support_pad exact_volume volume_error max_radius_change
     sphere_function inner_l tile_slicer rvecs).
Local Abbreviation remove_particle_ :=
  (remove_particle support_pad exact_volume volume_error max_radius_change
     sphere_function inner_l tile_slicer rvecs false parent_update).
Local Abbreviation add_particle_ :=
  (add_particle support_pad exact_volume volume_error max_radius_change
     sphere_function inner_l tile_slicer rvecs false parent_update).

(** X9.  In a collection without parent whose [pos] and [rad] have one
    length, [add_particle] returns the index of the first particle that
    sits at the new position: the new, last index exactly when no particle
    was there before. *)
Theorem add_particle_returns_first_at_position (p : vec3) (r : R) (s : psc) :
  List.length (pos s) = List.length (rad s) ->
  exists s' k,
    add_particle_ p r s = Ok (s', k) /\
    nth_error (pos s ++ [p]) k = Some p /\
    (forall j q, (j < k)%nat -> nth_error (pos s) j = Some q -> q <> p) /\
    (k = List.length (pos s) <-> ~ In p (pos s)).
Proof.
  intros Hlen. unfold add_particle.
  set (s1 := if Nat.eqb (List.length (rad s)) 0
             then mk_psc [p] [r] (zscale s) (particles s)
             else mk_psc (pos s ++ [p]) (rad s ++ [0.0]) (zscale s)
                    (particles s)).
  assert (Hs1 : pos s1 = pos s ++ [p] /\
                List.length (pos s1) = List.length (rad s1)).
  { unfold s1. destruct (Nat.eqb_spec (List.length (rad s)) 0) as [E | E]; simpl.
    - rewrite E in Hlen. apply length_zero_iff_nil in Hlen. rewrite Hlen.
      split; reflexivity.
    - split; [reflexivity|]. rewrite !length_app. simpl. lia. }
  destruct Hs1 as [Hp1 Hl1].
  simpl negb. cbv iota.
  set (s2 := draw_ p r 1 s1).
  destruct (draw_particle_frame support_pad exact_volume volume_error
              max_radius_change sphere_function inner_l tile_slicer rvecs
              p r 1 s1) as (Hp2 & Hr2 & Hz2).
  fold s2 in Hp2, Hr2, Hz2.
  assert (Hne : pos s2 <> []).
  { rewrite Hp2, Hp1. destruct (pos s); discriminate. }
  destruct (closest_particle_nearest p s2 Hne) as (k & pk & Ek & Enth & Hle & Hlt).
  rewrite Ek. cbn [bind].
  assert (Hk : (k < List.length (pos s2))%nat)
    by (apply nth_error_Some; rewrite Enth; discriminate).
  destruct (@get_values_particle k s2) as (x' & y' & z' & a' & ->);
    [exact Hk | rewrite Hr2, <- Hl1, <- Hp2; exact Hk |].
  cbn. eexists _, k. split; [reflexivity|].
  rewrite Hp2, Hp1 in Enth, Hle, Hlt, Hk.
  assert (Hnew : nth_error (pos s ++ [p]) (List.length (pos s)) = Some p).
  { rewrite nth_error_app2 by lia. rewrite Nat.sub_diag. reflexivity. }
  assert (Epk : pk = p).
  { apply dist2_zero. pose proof (Hle _ _ Hnew) as H.
    rewrite (proj2 (dist2_zero p p) eq_refl) in H.
    pose proof (dist2_nonneg pk p). lra. }
  subst pk.
  assert (Hbefore : forall j q, (j < k)%nat -> nth_error (pos s) j = Some q ->
                      q <> p).
  { intros j q Hj Hq Eq. subst q.
    assert (Hj' : nth_error (pos s ++ [p]) j = Some p).
    { rewrite nth_error_app1; [exact Hq|].
      apply nth_error_Some. rewrite Hq. discriminate. }
    pose proof (Hlt _ _ Hj Hj') as H. lra. }
  split; [exact Enth|]. split; [exact Hbefore|]. split.
  - intros -> Hin. apply In_nth_error in Hin. destruct Hin as (j & Hj).
    apply (Hbefore j p); [|exact Hj | reflexivity].
    apply nth_error_Some. rewrite Hj. discriminate.
  - intros Hnin. rewrite length_app in Hk. simpl in Hk.
    destruct (Nat.eq_dec k (List.length (pos s))) as [E | E]; [exact E|].
    exfalso. apply Hnin.
    rewrite nth_error_app1 in Enth by lia.
    apply nth_error_In in Enth. exact Enth.
Qed.

(** X10.  [remove_particle] in a collection without parent whose [pos] and
    [rad] have one length: nothing happens when there is no particle; an
    index past the arrays raises [IndexError]; otherwise entry [ind] is
    deleted from [pos] and [rad], [N] drops by one, [zscale] stays, and
    the field loses what the particle had drawn. *)
Theorem remove_particle_spec (ind : nat) (s : psc) :
  List.length (pos s) = List.length (rad s) ->
  (rad s = [] -> remove_particle_ ind s = Ok s) /\
  (rad s <> [] -> (List.length (pos s) <= ind)%nat ->
   remove_particle_ ind s = Raise IndexError) /\
  (forall p r,
     nth_error (pos s) ind = Some p -> nth_error (rad s) ind = Some r ->
     exists s',
       remove_particle_ ind s = Ok s' /\
       pos s' = delete_at ind (pos s) /\ rad s' = delete_at ind (rad s) /\
       N s' = (N s - 1)%nat /\ zscale s' = zscale s /\
       forall px,
         particles s' px = particles s px - contribution_ p r (zscale s) px).
Proof.
  intros Hlen. split; [|split].
  - intros E. unfold remove_particle. rewrite E. reflexivity.
  - intros Hne Hi. unfold remove_particle.
    destruct (Nat.eqb_spec (List.length (rad s)) 0) as [E | E].
    + apply length_zero_iff_nil in E. contradiction.
    + rewrite (index_raise (pos s) Hi). reflexivity.
  - intros p r Ep Er.
    assert (Hip : (ind < List.length (pos s))%nat)
      by (apply nth_error_Some; congruence).
    assert (Hir : (ind < List.length (rad s))%nat)
      by (apply nth_error_Some; congruence).
    unfold remove_particle.
    assert (E0 : Nat.eqb (List.length (rad s)) 0 = false)
      by (apply Nat.eqb_neq; lia).
    rewrite E0. unfold index at 1 2. rewrite Ep, Er. cbn [bind].
    destruct (get_values_particle s Hip Hir) as (x & y & z & a & ->).
    cbn.
    set (s0 := mk_psc (delete_at ind (pos s)) (delete_at ind (rad s))
                 (zscale s) (particles s)).
    destruct (draw_particle_frame support_pad exact_volume volume_error
                max_radius_change sphere_function inner_l tile_slicer rvecs
                p r (-1) s0) as (Hp1 & Hr1 & Hz1).
    eexists. split; [reflexivity|].
    split; [exact Hp1|]. split; [exact Hr1|]. split; [|split; [exact Hz1|]].
    + unfold N. rewrite Hr1. simpl. apply length_delete_at. exact Hir.
    + intros px. rewrite draw_particle_particles. simpl. lra.
Qed.

End AddRemove.

Section AddRemoveWitness.
Open Scope R_scope.
Import Platonic.

Local Abbreviation one_particle := (mk_psc [(1, 1, 1)] [1] 1 (fun _ => 0)).
Local Abbreviation w_add_particle :=
  (add_particle 2 false 1e-5 1e-2 demo_sphere_function (0, 0, 0)
     demo_tile_slicer demo_rvecs false (fun _ _ s => Ok s)).
Local Abbreviation w_remove_particle :=
  (remove_particle 2 false 1e-5 1e-2 demo_sphere_function (0, 0, 0)
     demo_tile_slicer demo_rvecs false (fun _ _ s => Ok s)).

Lemma add_particle_returns_first_at_position_witness :
  exists s' k,
    w_add_particle (1, 1, 1) 1 one_particle = Ok (s', k) /\
    nth_error (pos one_particle ++ [(1, 1, 1)]) k = Some (1, 1, 1) /\
    (forall j q, (j < k)%nat -> nth_error (pos one_particle) j = Some q ->
                 q <> (1, 1, 1)) /\
    (k = List.length (pos one_particle) <-> ~ In (1, 1, 1) (pos one_particle)).
Proof.
  apply (@add_particle_returns_first_at_position 2 false 1e-5 1e-2
           demo_sphere_function (0, 0, 0) demo_tile_slicer demo_rvecs
           (fun _ _ s => Ok s) (1, 1, 1) 1 one_particle).
  reflexivity.
Defined.

Lemma remove_particle_spec_witness :
  (rad one_particle = [] -> w_remove_particle 0 one_particle = Ok one_particle) /\
  (rad one_particle <> [] -> (List.length (pos one_particle) <= 0)%nat ->
   w_remove_particle 0 one_particle = Raise IndexError) /\
  (forall p r,
     nth_error (pos one_particle) 0 = Some p ->
     nth_error (rad one_particle) 0 = Some r ->
     exists s',
       w_remove_particle 0 one_particle = Ok s' /\
       pos s' = delete_at 0 (pos one_particle) /\
       rad s' = delete_at 0 (rad one_particle) /\
       N s' = (N one_particle - 1)%nat /\ zscale s' = zscale one_particle /\
       forall px,
         particles s' px
         = particles one_particle px
           - contribution 2 false 1e-5 1e-2 demo_sphere_function (0, 0, 0)
               demo_tile_slicer demo_rvecs p r (zscale one_particle) px).
Proof.
  apply (@remove_particle_spec 2 false 1e-5 1e-2 demo_sphere_function
           (0, 0, 0) demo_tile_slicer demo_rvecs (fun _ _ s => Ok s) 0
           one_particle).
  reflexivity.
Defined.

End AddRemoveWitness.

(** ** Reading and writing values by name *)

Section Values.
Open Scope R_scope.
Import Platonic.

Lemma param_eq_dec (p q : param) : {p = q} + {p <> q}.
Proof. decide equality; [apply string_dec | apply Nat.eq_dec]. Qed.

Lemma index_modify_same {A} (i : nat) (f : A -> A) (l l' : list A) :
  modify_at i f l = Ok l' ->
  exists x, index l i = Ok x /\ index l' i = Ok (f x).
Proof.
  revert i l'. induction l as [|y l IH]; intros i l' H.
  - destruct i; discriminate.
  - destruct i as [|i]; simpl in H.
    + inversion H; subst. exists y. split; reflexivity.
    + destruct (modify_at i f l) as [l''|e] eqn:E; [|discriminate].
      inversion H; subst. destruct (IH i l'' E) as (x & H1 & H2).
      exists x. split; [exact H1 | exact H2].
Qed.

Lemma index_modify_other {A} (i j : nat) (f : A -> A) (l l' : list A) :
  modify_at i f l = Ok l' -> j <> i -> index l' j = index l j.
Proof.
  revert i j l'. induction l as [|y l IH]; intros i j l' H Hj.
  - destruct i; discriminate.
  - destruct i as [|i]; simpl in H.
    + inversion H; subst. destruct j; [congruence | reflexivity].
    + destruct (modify_at i f l) as [l''|e] eqn:E; [|discriminate].
      inversion H; subst. destruct j as [|j]; [reflexivity|].
      unfold index in *. simpl. apply (IH i j l'' E). congruence.
Qed.

Lemma length_modify {A} (i : nat) (f : A -> A) (l l' : list A) :
  modify_at i f l = Ok l' -> List.length l' = List.length l.
Proof.
  revert i l'. induction l as [|y l IH]; intros i l' H.
  - destruct i; discriminate.
  - destruct i as [|i]; simpl in H.
    + inversion H; subst. reflexivity.
    + destruct (modify_at i f l) as [l''|e] eqn:E; [|discriminate].
      inversion H; subst. simpl. f_equal. apply (IH i l'' E).
Qed.

Lemma get_value_known (s : psc) (p : param) :
  known_param s p -> exists v, get_value p s = Ok [v].
Proof.
  destruct p as [|i c]; simpl.
  - intros _. eexists. reflexivity.
  - intros [[Hc Hi] | [-> Hi]].
    + destruct (index_ok (pos s) Hi) as (q & E & _).
      simpl in Hc. destruct Hc as [<- | [<- | [<- | []]]];
        unfold get_value; cbn; rewrite E; eexists; reflexivity.
    + destruct (index_ok (rad s) Hi) as (q & E & _).
      unfold get_value; cbn; rewrite E; eexists; reflexivity.
Qed.

Ltac other_name Em i :=
  let j := fresh "j" in let d := fresh "d" in
  let Hq := fresh "Hq" in let Hne := fresh "Hne" in
  let Hd := fresh "Hd" in let Hji := fresh "Hji" in
  let q1 := fresh "q1" in let E0 := fresh "E0" in let E1 := fresh "E1" in
  intros [|j d] Hq Hne; [reflexivity|]; simpl in Hq;
  destruct Hq as [[Hd _] | [-> _]];
  [ simpl in Hd; destruct Hd as [<- | [<- | [<- | []]]] | ];
  unfold get_value; cbn;
  try reflexivity;
  (destruct (Nat.eq_dec j i) as [-> | Hji];
   [ try congruence;
     destruct (@index_modify_same _ _ _ _ _ Em) as (q1 & E0 & E1);
     rewrite E0, E1; cbn; destruct q1 as [[? ?] ?]; reflexivity
   | rewrite (@index_modify_other _ _ _ _ _ _ Em Hji); reflexivity ]).

(** One assignment: it succeeds on a known name, the name then reads as
    the value assigned, and every other known name reads as before. *)
Lemma set_value_known (s : psc) (p : param) (v : R) :
  known_param s p ->
  exists s',
    set_value p v s = Ok s' /\ get_value p s' = Ok [v] /\
    particles s' = particles s /\
    List.length (pos s') = List.length (pos s) /\
    List.length (rad s') = List.length (rad s) /\
    (p <> Bare -> zscale s' = zscale s) /\
    forall q, known_param s q -> q <> p -> get_value q s' = get_value q s.
Proof.
  destruct p as [|i c]; simpl.
  - intros _. eexists. split; [reflexivity|]. split; [reflexivity|].
    simpl. repeat split; try congruence.
    intros [|j d] Hq Hne; [congruence|]. simpl in Hq.
    destruct Hq as [[Hd _] | [-> _]]; [|reflexivity].
    simpl in Hd. destruct Hd as [<- | [<- | [<- | []]]]; reflexivity.
  - intros [[Hc Hi] | [-> Hi]].
    + simpl in Hc. destruct Hc as [<- | [<- | [<- | []]]].
      * destruct (@modify_at_ok _ i (set_coord 2 v) (pos s) Hi)
          as (ps & Em & Hlen & _ & _).
        unfold set_value. cbn. rewrite Em. cbn.
        eexists. split; [reflexivity|].
        destruct (@index_modify_same _ _ _ _ _ Em) as (q0 & _ & E1).
        split; [unfold get_value; cbn; rewrite E1; cbn;
                destruct q0 as [[? ?] ?]; reflexivity|].
        cbn. do 4 (split; [auto|]). other_name Em i.
      * destruct (@modify_at_ok _ i (set_coord 1 v) (pos s) Hi)
          as (ps & Em & Hlen & _ & _).
        unfold set_value. cbn. rewrite Em. cbn.
        eexists. split; [reflexivity|].
        destruct (@index_modify_same _ _ _ _ _ Em) as (q0 & _ & E1).
        split; [unfold get_value; cbn; rewrite E1; cbn;
                destruct q0 as [[? ?] ?]; reflexivity|].
        cbn. do 4 (split; [auto|]). other_name Em i.
      * destruct (@modify_at_ok _ i (set_coord 0 v) (pos s) Hi)
          as (ps & Em & Hlen & _ & _).
        unfold set_value. cbn. rewrite Em. cbn.
        eexists. split; [reflexivity|].
        destruct (@index_modify_same _ _ _ _ _ Em) as (q0 & _ & E1).
        split; [unfold get_value; cbn; rewrite E1; cbn;
                destruct q0 as [[? ?] ?]; reflexivity|].
        cbn. do 4 (split; [auto|]). other_name Em i.
    + destruct (@modify_at_ok _ i (fun _ => v) (rad s) Hi)
        as (rs & Em & Hlen & _ & _).
      unfold set_value. cbn. rewrite Em. cbn.
      eexists. split; [reflexivity|].
      destruct (@index_modify_same _ _ _ _ _ Em) as (q0 & _ & E1).
      split; [unfold get_value; cbn; rewrite E1; reflexivity|].
      cbn. do 4 (split; [auto|]).
      intros [|j d] Hq Hne; [reflexivity|]. simpl in Hq.
      destruct Hq as [[Hd _] | [-> _]].
      * simpl in Hd. destruct Hd as [<- | [<- | [<- | []]]]; reflexivity.
      * unfold get_value. cbn.
        destruct (Nat.eq_dec j i) as [-> | Hji]; [congruence|].
        rewrite (@index_modify_other _ _ _ _ _ _ Em Hji). reflexivity.
Qed.


Lemma known_param_lengths (s s' : psc) (q : param) :
  List.length (pos s') = List.length (pos s) ->
  List.length (rad s') = List.length (rad s) ->
  known_param s q -> known_param s' q.
Proof.
  intros Hp Hr. destruct q as [|j d]; simpl; [auto|]. rewrite Hp, Hr. auto.
Qed.

(** The assignments of [set_values] succeed on known names and leave the
    names that are not assigned as they were. *)
Lemma set_values_known (params : list param) (values : list R) (s : psc) :
  (forall p, In p params -> known_param s p) ->
  exists s',
    set_values params values s = Ok s' /\
    particles s' = particles s /\
    List.length (pos s') = List.length (pos s) /\
    List.length (rad s') = List.length (rad s) /\
    (~ In Bare params -> zscale s' = zscale s) /\
    forall q, known_param s q -> ~ In q params -> get_value q s' = get_value q s.
Proof.
  revert values s. induction params as [|p params IH]; intros values s Hk.
  - exists s. simpl. repeat split; auto.
  - destruct values as [|v values].
    + exists s. simpl. repeat split; auto.
    + destruct (@set_value_known s p v (Hk p (or_introl eq_refl)))
        as (s1 & E1 & _ & Hf1 & Hp1 & Hr1 & Hz1 & Ho1).
      destruct (IH values s1) as (s' & E' & Hf' & Hp' & Hr' & Hz' & Ho').
      { intros q Hq. apply (@known_param_lengths s s1); auto.
        apply Hk. right. exact Hq. }
      exists s'. simpl. rewrite E1. cbn [bind].
      split; [exact E'|]. do 3 (split; [congruence|]). split.
      * intros Hb. rewrite Hz'; [rewrite Hz1; [reflexivity|]|].
        -- intros ->. apply Hb. left. reflexivity.
        -- intros Hin. apply Hb. right. exact Hin.
      * intros q Hq Hn. rewrite Ho'.
        -- apply Ho1; [exact Hq|]. intros ->. apply Hn. left. reflexivity.
        -- apply (@known_param_lengths s s1); auto.
        -- intros Hin. apply Hn. right. exact Hin.
Qed.

Lemma get_values_of_values (params : list param) (values : list R) (s : psc) :
  Forall2 (fun p v => get_value p s = Ok [v]) params values ->
  get_values params s = Ok values.
Proof.
  induction 1 as [|p v params values Hp _ IH]; simpl; [reflexivity|].
  rewrite Hp, IH. reflexivity.
Qed.

Lemma get_values_known (params : list param) (s : psc) :
  (forall p, In p params -> known_param s p) ->
  exists values,
    get_values params s = Ok values /\
    Forall2 (fun p v => get_value p s = Ok [v]) params values.
Proof.
  induction params as [|p params IH]; intros Hk.
  - exists []. split; [reflexivity | constructor].
  - destruct (@get_value_known s p (Hk p (or_introl eq_refl))) as (v & Ev).
    destruct IH as (vs & Evs & HF).
    { intros q Hq. apply Hk. right. exact Hq. }
    exists (v :: vs). split.
    + simpl. rewrite Ev, Evs. reflexivity.
    + constructor; assumption.
Qed.

(** X11.  For distinct parameter names that denote values of the
    collection, and as many values, [set_values] succeeds and [get_values]
    of the same names then returns the values written. *)
Theorem set_values_then_get_values (params : list param) (values : list R)
    (s : psc) :
  NoDup params ->
  List.length values = List.length params ->
  (forall p, In p params -> known_param s p) ->
  exists s',
    set_values params values s = Ok s' /\ get_values params s' = Ok values.
Proof.
  revert values s. induction params as [|p params IH]; intros values s Hnd Hl Hk.
  - destruct values; [|discriminate]. exists s. split; reflexivity.
  - destruct values as [|v values]; [discriminate|].
    inversion Hnd as [|? ? Hnin Hnd']; subst.
    destruct (@set_value_known s p v (Hk p (or_introl eq_refl)))
      as (s1 & E1 & Eg1 & _ & Hp1 & Hr1 & _ & _).
    assert (Hk1 : forall q, In q params -> known_param s1 q).
    { intros q Hq. apply (@known_param_lengths s s1); auto.
      apply Hk. right. exact Hq. }
    destruct (IH values s1 Hnd') as (s' & E' & Eg'); [simpl in Hl; lia | exact Hk1 |].
    destruct (@set_values_known params values s1 Hk1)
      as (s'' & E'' & _ & _ & _ & _ & Ho).
    rewrite E' in E''. inversion E''; subst s''.
    exists s'. simpl. rewrite E1. cbn [bind]. split; [exact E'|].
    rewrite (Ho p), Eg1, Eg'; [reflexivity | | exact Hnin].
    apply (@known_param_lengths s s1); auto. apply Hk. left. reflexivity.
Qed.

Lemma coords_eq (p q : vec3) :
  get_coord 0 p = get_coord 0 q -> get_coord 1 p = get_coord 1 q ->
  get_coord 2 p = get_coord 2 q -> p = q.
Proof.
  destruct p as [[p0 p1] p2]. destruct q as [[q0 q1] q2]. simpl.
  intros -> -> ->. reflexivity.
Qed.

(** Two collections of the same size on which every known name reads the
    same have the same positions and radii. *)
Lemma positions_radii_ext (s s' : psc) :
  List.length (pos s') = List.length (pos s) ->
  List.length (rad s') = List.length (rad s) ->
  (forall q, known_param s q -> get_value q s' = get_value q s) ->
  pos s' = pos s /\ rad s' = rad s.
Proof.
  intros Hp Hr H. split; apply nth_error_ext; intros n.
  - destruct (Nat.lt_ge_cases n (List.length (pos s))) as [Hn | Hn].
    + assert (Hn' : (n < List.length (pos s'))%nat) by lia.
      destruct (index_ok (pos s) Hn) as (q & Eq & ->).
      destruct (index_ok (pos s') Hn') as (q' & Eq' & ->).
      f_equal. apply coords_eq.
      * assert (K : known_param s (Triple n "z")) by (simpl; left; auto).
        specialize (H _ K). unfold get_value in H. cbn in H.
        rewrite Eq, Eq' in H. cbn in H. congruence.
      * assert (K : known_param s (Triple n "y")) by (simpl; left; auto).
        specialize (H _ K). unfold get_value in H. cbn in H.
        rewrite Eq, Eq' in H. cbn in H. congruence.
      * assert (K : known_param s (Triple n "x")) by (simpl; left; auto).
        specialize (H _ K). unfold get_value in H. cbn in H.
        rewrite Eq, Eq' in H. cbn in H. congruence.
    + rewrite (proj2 (nth_error_None _ _)) by lia.
      rewrite (proj2 (nth_error_None _ _)) by lia. reflexivity.
  - destruct (Nat.lt_ge_cases n (List.length (rad s))) as [Hn | Hn].
    + assert (Hn' : (n < List.length (rad s'))%nat) by lia.
      destruct (index_ok (rad s) Hn) as (q & Eq & ->).
      destruct (index_ok (rad s') Hn') as (q' & Eq' & ->).
      assert (K : known_param s (Triple n "a")) by (simpl; right; auto).
      specialize (H _ K). unfold get_value in H. cbn in H.
      rewrite Eq, Eq' in H. cbn in H. congruence.
    + rewrite (proj2 (nth_error_None _ _)) by lia.
      rewrite (proj2 (nth_error_None _ _)) by lia. reflexivity.
Qed.

(** Writing back to each name the value it has in [s]: the names written
    read as in [s], the others as before. *)
Lemma set_values_back (params : list param) (values0 : list R) (s s1 : psc) :
  List.length (pos s1) = List.length (pos s) ->
  List.length (rad s1) = List.length (rad s) ->
  (forall p, In p params -> known_param s p) ->
  Forall2 (fun p v => get_value p s = Ok [v]) params values0 ->
  exists s2,
    set_values params values0 s1 = Ok s2 /\
    particles s2 = particles s1 /\
    List.length (pos s2) = List.length (pos s) /\
    List.length (rad s2) = List.length (rad s) /\
    (~ In Bare params -> zscale s2 = zscale s1) /\
    forall q, known_param s q ->
      (In q params -> get_value q s2 = get_value q s) /\
      (~ In q params -> get_value q s2 = get_value q s1).
Proof.
  intros Hp Hr Hk HF. revert s1 Hp Hr.
  induction HF as [|p v params values0 Hv _ IH]; intros s1 Hp Hr.
  - exists s1. simpl. repeat split; auto. intros [].
  - assert (Kp : known_param s1 p).
    { apply (@known_param_lengths s s1); auto. apply Hk. left. reflexivity. }
    destruct (@set_value_known s1 p v Kp)
      as (s1' & E1 & Eg1 & Hf1 & Hp1 & Hr1 & Hz1 & Ho1).
    destruct (IH (fun q Hq => Hk q (or_intror Hq)) s1')
      as (s2 & E2 & Hf2 & Hp2 & Hr2 & Hz2 & Ho2); [congruence | congruence |].
    exists s2. simpl. rewrite E1. cbn [bind]. split; [exact E2|].
    do 3 (split; [congruence|]). split.
    + intros Hb. rewrite Hz2; [rewrite Hz1; [reflexivity|]|].
      * intros ->. apply Hb. left. reflexivity.
      * intros Hin. apply Hb. right. exact Hin.
    + intros q Hq. destruct (Ho2 q Hq) as [Hin Hout].
      assert (Kq : known_param s1 q) by (apply (@known_param_lengths s s1); auto).
      split.
      * intros [-> | Hq'].
        -- destruct (in_dec param_eq_dec q params) as [Hi | Hi]; [auto|].
           rewrite (Hout Hi), Eg1, Hv. reflexivity.
        -- auto.
      * intros Hn. rewrite Hout by (intros Hi; apply Hn; right; exact Hi).
        apply Ho1; [exact Kq|]. intros ->. apply Hn. left. reflexivity.
Qed.

End Values.

Section UpdateTile.
Open Scope R_scope.
Import Platonic.

Variable support_pad : R.
Variable inner_l : vec3.
Variable TileT : Type.
Variable Tile2 : vec3 -> vec3 -> TileT.
Variable tile_pad : TileT -> R -> TileT.
Variable boundingtile : list TileT -> TileT.
Variable shape_copy : TileT.

Local Abbreviation tiles_of_ := (tiles_of support_pad inner_l Tile2 tile_pad).
Local Abbreviation get_update_tile_ :=
  (get_update_tile support_pad inner_l Tile2 tile_pad boundingtile shape_copy).

Lemma tiles_of_ok (ns : list nat) (s : psc) :
  (forall i, In i ns ->
     (i < List.length (pos s))%nat /\ (i < List.length (rad s))%nat) ->
  exists ts, tiles_of_ (map Some ns) s = Ok ts.
Proof.
  induction ns as [|n ns IH]; intros Hv; simpl.
  - eexists. reflexivity.
  - destruct (Hv n (or_introl eq_refl)) as [H1 H2].
    destruct IH as (ts & ->); [intros i Hi; apply Hv; right; exact Hi|].
    unfold _tile.
    destruct (index_ok (pos s) H1) as (p & -> & _).
    destruct (index_ok (rad s) H2) as (r & -> & _).
    cbn [bind]. eexists. reflexivity.
Qed.

(** X12.  For names that denote values of a collection whose [pos] and
    [rad] have one length, [get_update_tile] returns a tile and leaves the
    collection as it was: the trial values are written, the tiles taken
    and the old values put back. *)
Theorem get_update_tile_restores (params : list param) (values : list R)
    (s : psc) :
  List.length (pos s) = List.length (rad s) ->
  (forall p, In p params -> known_param s p) ->
  exists t, get_update_tile_ params values s = Ok (s, t).
Proof.
  intros Hlen Hk. unfold get_update_tile.
  destruct (_update_type params) as [dz nso] eqn:Eut.
  destruct dz; [eexists; reflexivity|].
  assert (Hz : fst (_update_type params) = false) by (rewrite Eut; reflexivity).
  destruct (update_type_particles params Hz) as (Hall & ns & Ens & _ & Hns).
  rewrite Eut in Ens. simpl in Ens. subst nso.
  assert (Hb : ~ In Bare params).
  { intros Hin. destruct (Hall _ Hin) as (i & c & E & _). discriminate. }
  assert (Hv : forall i, In i ns ->
            (i < List.length (pos s))%nat /\ (i < List.length (rad s))%nat).
  { intros i Hi. apply Hns in Hi. destruct Hi as (c & Hc).
    specialize (Hk _ Hc). simpl in Hk. destruct Hk as [[_ H] | [_ H]]; lia. }
  destruct (@get_values_known params s Hk) as (values0 & -> & HF). cbn [bind].
  destruct (@tiles_of_ok ns s Hv) as (tiles0 & ->). cbn [bind].
  destruct (@set_values_known params values s Hk)
    as (s1 & -> & Hf1 & Hp1 & Hr1 & Hz1 & Ho1). cbn [bind].
  destruct (@tiles_of_ok ns s1) as (tiles1 & ->).
  { intros i Hi. rewrite Hp1, Hr1. apply Hv. exact Hi. }
  cbn [bind].
  destruct (@set_values_back params values0 s s1 Hp1 Hr1 Hk HF)
    as (s2 & -> & Hf2 & Hp2 & Hr2 & Hz2 & Ho2). cbn [bind].
  destruct (@positions_radii_ext s s2 Hp2 Hr2) as [Epos Erad].
  { intros q Hq. destruct (Ho2 q Hq) as [Hin Hout].
    destruct (in_dec param_eq_dec q params) as [Hi | Hi]; [auto|].
    rewrite (Hout Hi). apply Ho1; assumption. }
  assert (Es : s2 = s).
  { specialize (Hz1 Hb). specialize (Hz2 Hb).
    destruct s2, s. simpl in *. subst. reflexivity. }
  rewrite Es. eexists. reflexivity.
Qed.

End UpdateTile.

Section ValuesWitness.
Open Scope R_scope.
Import Platonic.

Local Abbreviation one_particle := (mk_psc [(1, 1, 1)] [1] 1 (fun _ => 0)).

Lemma known_x_a (p : param) :
  In p [Triple 0 "x"; Triple 0 "a"] -> known_param one_particle p.
Proof.
  intros [<- | [<- | []]]; simpl.
  - left. split; [auto | lia].
  - right. split; [reflexivity | lia].
Defined.

Lemma set_values_then_get_values_witness :
  exists s',
    set_values [Triple 0 "x"; Triple 0 "a"] [2; 3] one_particle = Ok s' /\
    get_values [Triple 0 "x"; Triple 0 "a"] s' = Ok [2; 3].
Proof.
  apply (@set_values_then_get_values [Triple 0 "x"; Triple 0 "a"] [2; 3]
           one_particle).
  - constructor.
    + intros [H | []]. discriminate.
    + constructor; [intros [] | constructor].
  - reflexivity.
  - exact known_x_a.
Defined.

Lemma get_update_tile_restores_witness :
  exists t,
    get_update_tile 2 (0, 0, 0) (fun _ _ => tt) (fun t _ => t) (fun _ => tt) tt
      [Triple 0 "x"; Triple 0 "a"] [2; 3] one_particle
    = Ok (one_particle, t).
Proof.
  apply (@get_update_tile_restores 2 (0, 0, 0) unit (fun _ _ => tt)
           (fun t _ => t) (fun _ => tt) tt
           [Triple 0 "x"; Triple 0 "a"] [2; 3] one_particle).
  - reflexivity.
  - exact known_x_a.
Defined.

End ValuesWitness.

(** ** The values of all particles *)

Section ReadBack.
Open Scope R_scope.
Import Platonic.

Lemma skipn_nth_error (A : Type) (l : list A) (a : nat) (x : A) :
  nth_error l a = Some x -> skipn a l = x :: skipn (S a) l.
Proof.
  revert l. induction a as [|a IH]; intros [|y l] H; simpl in H; try discriminate.
  - inversion H. reflexivity.
  - apply IH in H. exact H.
Qed.

Lemma get_values_radii_from (s : psc) (len a : nat) :
  (a + len = List.length (rad s))%nat ->
  get_values (map (fun i => _i2p i "a") (seq a len)) s = Ok (skipn a (rad s)).
Proof.
  revert a. induction len as [|len IH]; intros a H.
  - simpl. rewrite skipn_all2 by lia. reflexivity.
  - cbn [seq map get_values].
    destruct (nth_error (rad s) a) as [r|] eqn:E.
    2:{ apply nth_error_None in E. lia. }
    unfold get_value, _i2p, _p2i. cbn [String.eqb Ascii.eqb Bool.eqb].
    unfold index. rewrite E. cbn [bind].
    rewrite IH by lia. cbn [bind app].
    rewrite (skipn_nth_error _ _ E). reflexivity.
Qed.

Lemma get_values_positions_from (s : psc) (len a : nat) :
  (a + len = List.length (pos s))%nat ->
  get_values
    (flat_map (fun i => map (_i2p i) ["x"; "y"; "z"]%string) (seq a len)) s
  = Ok (flat_map (fun p => [get_coord 2 p; get_coord 1 p; get_coord 0 p])
          (skipn a (pos s))).
Proof.
  revert a. induction len as [|len IH]; intros a H.
  - simpl. rewrite skipn_all2 by lia. reflexivity.
  - cbn [seq flat_map map app get_values].
    destruct (nth_error (pos s) a) as [p|] eqn:E.
    2:{ apply nth_error_None in E. lia. }
    unfold get_value at 1 2 3. unfold _i2p, _p2i.
    cbn [String.eqb Ascii.eqb Bool.eqb].
    unfold index. rewrite E. cbn [bind].
    rewrite IH by lia. cbn [bind app].
    rewrite (skipn_nth_error _ _ E). reflexivity.
Qed.

Lemma length_triples (l : list nat) :
  List.length (flat_map (fun i => map (_i2p i) ["x"; "y"; "z"]%string) l)
  = (3 * List.length l)%nat.
Proof. induction l as [|i l IH]; simpl; [reflexivity|]. simpl in IH. lia. Qed.

(** X13.  When [pos] and [rad] have one length, [get_values] of
    [param_radii()] is the array [rad], and [get_values] of
    [param_positions()] lists the positions particle by particle in the
    order x, y, z, that is columns 2, 1, 0 of [pos]; there are [3 N] and
    [N] such names. *)
Theorem values_of_all_particles (s : psc) :
  List.length (pos s) = List.length (rad s) ->
  get_values (param_radii s) s = Ok (rad s)
  /\ get_values (param_positions s) s
     = Ok (flat_map (fun p => [get_coord 2 p; get_coord 1 p; get_coord 0 p])
             (pos s))
  /\ List.length (param_positions s) = (3 * N s)%nat
  /\ List.length (param_radii s) = N s.
Proof.
  intros H. unfold param_radii, param_positions, N.
  split; [|split; [|split]].
  - apply (@get_values_radii_from s (List.length (rad s)) 0). reflexivity.
  - apply (@get_values_positions_from s (List.length (rad s)) 0). lia.
  - rewrite length_triples, length_seq. reflexivity.
  - rewrite length_map, length_seq. reflexivity.
Qed.

End ReadBack.

Section ReadBackWitness.
Open Scope R_scope.
Import Platonic.

Local Abbreviation one_particle := (mk_psc [(1, 2, 3)] [5] 1 (fun _ => 0)).

Lemma values_of_all_particles_witness :
  get_values (param_radii one_particle) one_particle = Ok (rad one_particle)
  /\ get_values (param_positions one_particle) one_particle
     = Ok (flat_map (fun p => [get_coord 2 p; get_coord 1 p; get_coord 0 p])
             (pos one_particle))
  /\ List.length (param_positions one_particle) = (3 * N one_particle)%nat
  /\ List.length (param_radii one_particle) = N one_particle.
Proof. apply (@values_of_all_particles one_particle). reflexivity. Defined.

End ReadBackWitness.

(** ** The outer loops of the engine *)

Section RunLoops.
Open Scope R_scope.
Import LM.

Variable M : Type.
Variable Jac : Type.
Variable opt : options.
Variable update_function : M -> list R -> M * list R * R.
Variable calc_residuals : M -> Jac -> list R.
Variable J_dot : Jac -> list R -> list R.
Variable lm_solve : Jac -> list R -> list R -> option (list bool) -> list R.
Variable accel_solve :
  Jac -> list R -> option (list bool) -> list R -> list R.
Variable refresh_J : engine M Jac -> Jac * M * list R.
Variable refresh_J_internal : engine M Jac -> Jac * M * list R.
Variable mark_stale : Jac -> Jac.
Variable calc_model_cosine : engine M Jac -> R.

Local Abbreviation check_terminate_ := (check_terminate opt calc_model_cosine).
Local Abbreviation find_LM_updates_ :=
  (find_LM_updates opt update_function calc_residuals J_dot lm_solve accel_solve).
Local Abbreviation calc_grad_ := (calc_grad calc_residuals J_dot).
Local Abbreviation run1_first_ :=
  (run1_first opt update_function calc_residuals J_dot lm_solve accel_solve
     refresh_J).
Local Abbreviation run1_try_ :=
  (run1_try opt update_function calc_residuals J_dot lm_solve accel_solve).
Local Abbreviation run1_retry_ :=
  (run1_retry opt update_function calc_residuals J_dot lm_solve accel_solve).
Local Abbreviation run1_revert_ := (run1_revert update_function).
Local Abbreviation _run1_ :=
  (_run1 opt update_function calc_residuals J_dot lm_solve accel_solve
     refresh_J mark_stale).
Local Abbreviation internal_step_ :=
  (internal_step opt update_function calc_residuals J_dot lm_solve accel_solve
     refresh_J_internal mark_stale).
Local Abbreviation internal_loop_ :=
  (internal_loop opt update_function calc_residuals J_dot lm_solve accel_solve
     refresh_J_internal mark_stale calc_model_cosine).
Local Abbreviation do_internal_run_ :=
  (do_internal_run opt update_function calc_residuals J_dot lm_solve accel_solve
     refresh_J_internal mark_stale calc_model_cosine).
Local Abbreviation run2_retry_ :=
  (run2_retry opt update_function calc_residuals J_dot lm_solve accel_solve
     mark_stale).
Local Abbreviation run2_reject_ :=
  (run2_reject opt update_function calc_residuals J_dot lm_solve accel_solve
     mark_stale).
Local Abbreviation run2_trials_ :=
  (run2_trials opt update_function calc_residuals J_dot lm_solve accel_solve).
Local Abbreviation _run2_ :=
  (_run2 opt update_function calc_residuals J_dot lm_solve accel_solve
     refresh_J refresh_J_internal mark_stale calc_model_cosine).
Local Abbreviation do_run_1_ :=
  (do_run_1 opt update_function calc_residuals J_dot lm_solve accel_solve
     refresh_J mark_stale calc_model_cosine).
Local Abbreviation do_run_2_ :=
  (do_run_2 opt update_function calc_residuals J_dot lm_solve accel_solve
     refresh_J refresh_J_internal mark_stale calc_model_cosine).

(** The two fields that only the loops [do_run_1] and [do_run_2] write. *)
Local Abbreviation loop_state e := (_has_run e, _num_iter e).

Lemma find_LM_updates_loop_state (grad : list R) (dcd : bool)
    (sb : option (list bool)) (e e' : engine M Jac) (d : list R) :
  find_LM_updates_ grad dcd sb e = Ok (e', d) ->
  loop_state e' = loop_state e.
Proof.
  unfold find_LM_updates.
  destruct sb as [b|]; [destruct (_ || _)%bool|]; simpl; try discriminate;
    (destruct (use_accel opt); [|intros H; inversion H; reflexivity]);
    unfold calc_accel_correction;
    rewrite eval_current_eq; cbv beta iota zeta; rewrite !eval_at_eq;
    cbv beta iota zeta;
    destruct (xlt _ _); try destruct dcd; intros H; inversion H; reflexivity.
Qed.

Lemma run1_first_loop_state (e e1 : engine M Jac) (dv : list R) (er1 : R)
    (g : bool) :
  run1_first_ e = Ok (e1, dv, er1, g) -> loop_state e1 = loop_state e.
Proof.
  unfold run1_first.
  set (e0 := apply_refresh (refresh_J e) e).
  assert (H0 : loop_state e0 = loop_state e)
    by (unfold e0; rewrite apply_refresh_eq; reflexivity).
  destruct (find_LM_updates_ (calc_grad_ e0) true None e0) as [[e2 d]|x] eqn:E;
    simpl; [|discriminate].
  apply find_LM_updates_loop_state in E.
  rewrite eval_at_eq. cbv beta iota zeta.
  intros H. inversion H; subst. simpl in *. congruence.
Qed.

Lemma run1_try_loop_state (grad : list R) (e e1 : engine M Jac) (dv : list R)
    (er1 : R) (g : bool) :
  run1_try_ grad e = Ok (e1, dv, er1, g) -> loop_state e1 = loop_state e.
Proof.
  unfold run1_try.
  destruct (find_LM_updates_ grad true None (increase_damping opt e))
    as [[e2 d]|x] eqn:E; simpl; [|discriminate].
  apply find_LM_updates_loop_state in E.
  rewrite eval_at_eq. cbv beta iota zeta.
  intros H. inversion H; subst. simpl in *. congruence.
Qed.

Lemma run1_retry_loop_state (n : nat) (grad : list R) (e e1 : engine M Jac)
    (dv dv1 : list R) (er er1 : R) (g : bool) :
  run1_retry_ n grad e dv er = Ok (e1, dv1, er1, g) ->
  loop_state e1 = loop_state e.
Proof.
  revert e dv er. induction n as [|n IH]; intros e dv er; simpl.
  - intros H. inversion H; subst. reflexivity.
  - destruct (run1_try_ grad e) as [[[[e2 dv2] er2] g2]|x] eqn:E;
      simpl; [|discriminate].
    apply run1_try_loop_state in E.
    destruct g2.
    + intros H. inversion H; subst. exact E.
    + intros H. apply IH in H. congruence.
Qed.

Lemma run1_revert_loop_state (e e' : engine M Jac) :
  run1_revert_ e = Ok e' -> loop_state e' = loop_state e.
Proof.
  unfold run1_revert. rewrite eval_current_eq. cbv beta iota zeta.
  destruct (exact_check _ _ _); simpl; [|discriminate].
  intros H. inversion H; subst. reflexivity.
Qed.

Lemma run1_loop_state (e e' : engine M Jac) :
  _run1_ e = Ok e' -> loop_state e' = loop_state e.
Proof.
  unfold _run1.
  destruct (run1_first_ e) as [[[[e1 dv] er1] g]|x] eqn:E1; simpl; [|discriminate].
  apply run1_first_loop_state in E1.
  destruct g; simpl.
  - intros H. inversion H; subst. unfold run1_accept, decrease_damping,
      update_param_vals. simpl. exact E1.
  - destruct (run1_revert_ e1) as [e2|x] eqn:E2; simpl; [|discriminate].
    apply run1_revert_loop_state in E2.
    destruct (run1_retry_ (_max_inner_loop opt) (calc_grad_ e2) e2 dv er1)
      as [[[[e3 dv3] er3] g3]|x] eqn:E3; simpl; [|discriminate].
    apply run1_retry_loop_state in E3.
    destruct g3; simpl.
    + intros H. inversion H; subst. unfold run1_accept, decrease_damping,
        update_param_vals. simpl. congruence.
    + destruct (run1_revert_ e3) as [e4|x] eqn:E4; simpl; [|discriminate].
      apply run1_revert_loop_state in E4.
      intros H. inversion H; subst. congruence.
Qed.


Lemma check_terminate_total (e : engine M Jac) :
  costol opt = None -> exists t, check_terminate_ e = Ok t.
Proof.
  intros Hc. unfold check_terminate, check_completion. rewrite Hc.
  destruct (negb (_has_run e)); eexists; reflexivity.
Qed.

Lemma check_terminate_false_iter (e : engine M Jac) :
  _has_run e = true -> check_terminate_ e = Ok false ->
  (_num_iter e < max_iter opt)%Z.
Proof.
  unfold check_terminate. intros ->. simpl.
  destruct (check_completion opt calc_model_cosine e) as [t|x]; simpl;
    [|discriminate].
  intros H. inversion H as [H1]. apply orb_false_iff in H1.
  destruct H1 as [_ H1]. apply Z.leb_gt in H1. exact H1.
Qed.

Lemma do_run_1_running (fuel : nat) (e : engine M Jac) :
  costol opt = None -> _has_run e = true ->
  (Z.to_nat (max_iter opt - _num_iter e) <= fuel)%nat ->
  match do_run_1_ fuel e with
  | Ok None => False
  | Ok (Some e') =>
      _has_run e' = true /\
      (_num_iter e <= _num_iter e' <= Z.max (_num_iter e) (max_iter opt))%Z /\
      check_terminate_ e' = Ok true
  | Raise _ => True
  end.
Proof.
  intros Hc. revert e. induction fuel as [|fuel IH]; intros e Hr Hf.
  - cbn [do_run_1]. destruct (check_terminate_total e Hc) as (t & Et).
    rewrite Et. cbn [bind]. destruct t.
    + repeat split; [exact Hr | lia | lia | exact Et].
    + apply check_terminate_false_iter in Et; [lia | exact Hr].
  - cbn [do_run_1]. destruct (check_terminate_total e Hc) as (t & Et).
    rewrite Et. cbn [bind]. destruct t.
    + repeat split; [exact Hr | lia | lia | exact Et].
    + apply check_terminate_false_iter in Et; [|exact Hr].
      destruct (_run1_ (set_has_run true e)) as [e1|x] eqn:E1; cbn [bind]; [|exact I].
      apply run1_loop_state in E1. simpl in E1. pose proof (f_equal fst E1) as H1. pose proof (f_equal snd E1) as H2.
      simpl in H1, H2.
      match goal with
      | |- match do_run_1_ fuel ?e2' with _ => _ end => set (e2 := e2')
      end.
      assert (Hr2 : _has_run e2 = true) by exact H1.
      assert (Hn2 : _num_iter e2 = (_num_iter e + 1)%Z)
        by (unfold e2; simpl; lia).
      pose proof (IH e2 Hr2) as L. rewrite Hn2 in L.
      clearbody e2. destruct (do_run_1_ fuel e2) as [[e'|]|x].
      * destruct L as (Ha & Hb & Hd); [lia|].
        repeat split; [exact Ha | lia | lia | exact Hd].
      * apply L. lia.
      * exact I.
Qed.

(** X14.  [do_run_1] with [costol] unset, from an engine that has not run,
    given fuel for [max(1, max_iter - _num_iter)] passes: the loop ends
    within the fuel; unless an exception is raised, the engine has run,
    [_num_iter] rose by at least one and to no more than
    [max(_num_iter + 1, max_iter)], and [check_terminate()] holds. *)
Theorem do_run_1_iterations (fuel : nat) (e : engine M Jac) :
  costol opt = None -> _has_run e = false ->
  (1 <= fuel)%nat ->
  (Z.to_nat (max_iter opt - _num_iter e) <= fuel)%nat ->
  match do_run_1_ fuel e with
  | Ok None => False
  | Ok (Some e') =>
      _has_run e' = true /\
      (_num_iter e < _num_iter e'
       /\ _num_iter e' <= Z.max (_num_iter e + 1) (max_iter opt))%Z /\
      check_terminate_ e' = Ok true
  | Raise _ => True
  end.
Proof.
  intros Hc Hr H1 Hf. destruct fuel as [|fuel]; [lia|].
  cbn [do_run_1]. rewrite (check_terminate_before_first_step _ _ _ Hr).
  cbn [bind].
  destruct (_run1_ (set_has_run true e)) as [e1|x] eqn:E1; cbn [bind]; [|exact I].
  apply run1_loop_state in E1. simpl in E1. pose proof (f_equal fst E1) as Ha. pose proof (f_equal snd E1) as Hb.
  simpl in Ha, Hb.
  match goal with
  | |- match do_run_1_ fuel ?e2' with _ => _ end => set (e2 := e2')
  end.
  assert (Hr2 : _has_run e2 = true) by exact Ha.
  assert (Hn2 : _num_iter e2 = (_num_iter e + 1)%Z) by (unfold e2; simpl; lia).
  pose proof (@do_run_1_running fuel e2 Hc Hr2) as L. rewrite Hn2 in L.
  clearbody e2. destruct (do_run_1_ fuel e2) as [[e'|]|x].
  - destruct L as (La & Lb & Ld); [lia|].
    repeat split; [exact La | lia | lia | exact Ld].
  - apply L. lia.
  - exact I.
Qed.


(** *** What an internal run leaves alone *)

(** The fields that neither a step at fixed damping nor the loop around
    it writes. *)
Local Abbreviation fixed_state e := (_has_run e, _num_iter e, damping e).

Lemma find_LM_updates_fixed (grad : list R) (sb : option (list bool))
    (e e' : engine M Jac) (d : list R) :
  find_LM_updates_ grad false sb e = Ok (e', d) ->
  fixed_state e' = fixed_state e.
Proof.
  unfold find_LM_updates.
  destruct sb as [b|]; [destruct (_ || _)%bool|]; simpl; try discriminate;
    (destruct (use_accel opt); [|intros H; inversion H; reflexivity]);
    unfold calc_accel_correction;
    rewrite eval_current_eq; cbv beta iota zeta; rewrite !eval_at_eq;
    cbv beta iota zeta;
    destruct (xlt _ _); intros H; inversion H; reflexivity.
Qed.

Lemma internal_step_fixed (sb : option (list bool)) (ud : bool)
    (e e' : engine M Jac) (loc loc' : list R) (n n' : nat) (g : bool) :
  internal_step_ sb ud e loc n = Ok (e', loc', n', g) ->
  fixed_state e' = fixed_state e /\ (n' <= Datatypes.S n)%nat.
Proof.
  unfold internal_step.
  set (e0 := if negb (Z.eqb (_inner_run_counter e) 0)
             then apply_refresh (refresh_J_internal e) e else e).
  assert (H0 : fixed_state e0 = fixed_state e).
  { unfold e0. destruct (negb _); [|reflexivity].
    rewrite apply_refresh_eq. reflexivity. }
  destruct (find_LM_updates_ (calc_grad_ e0) false sb e0) as [[e1 d]|x] eqn:E;
    simpl; [|discriminate].
  apply find_LM_updates_fixed in E.
  rewrite eval_at_eq. cbv beta iota zeta.
  destruct (Rltb _ _); simpl.
  - intros H. inversion H; subst. split; [|lia].
    destruct ud; simpl in *; congruence.
  - rewrite eval_current_eq. simpl.
    destruct (exact_check _ _ _); simpl; [|discriminate].
    intros H. inversion H; subst. split; [|lia]. simpl in *. congruence.
Qed.

Lemma internal_loop_fixed (fuel : nat) (sb : option (list bool)) (ud : bool)
    (e e' : engine M Jac) (loc : list R) (n n' : nat) (g : bool) :
  internal_loop_ fuel sb ud e loc n g = Ok (e', n') ->
  fixed_state e' = fixed_state e /\ (n' <= n + fuel)%nat.
Proof.
  revert e loc n g. induction fuel as [|fuel IH]; intros e loc n g;
    cbn [internal_loop];
    destruct (check_terminate_ e) as [t|x]; cbn [bind]; try discriminate;
    destruct (_ && _ && _)%bool;
    try (intros H; inversion H; subst; split; [reflexivity | lia]).
  destruct (internal_step_ sb ud e loc n) as [[[[e1 loc1] n1] g1]|x] eqn:E;
    cbn [bind]; [|discriminate].
  apply internal_step_fixed in E. destruct E as [E En].
  intros H. apply IH in H. destruct H as [H Hn].
  split; [congruence | lia].
Qed.

Lemma do_internal_run_fixed (initial_count : Z) (sb : option (list bool))
    (ud : bool) (e e' : engine M Jac) (n : nat) :
  do_internal_run_ initial_count sb ud e = Ok (e', n) ->
  fixed_state e' = fixed_state e /\
  (n <= Z.to_nat (run_length opt - initial_count))%nat.
Proof.
  unfold do_internal_run. intros E.
  apply internal_loop_fixed in E. destruct E as [E En].
  split; [exact E | lia].
Qed.

(** X15.  [do_internal_run] works at fixed damping: it returns with the
    damping and [_num_iter] it was called with, and counts at most
    [run_length - initial_count] good steps. *)
Theorem do_internal_run_fixed_damping (initial_count : Z)
    (sb : option (list bool)) (ud : bool) (e : engine M Jac) :
  match do_internal_run_ initial_count sb ud e with
  | Ok (e', n_good_steps) =>
      damping e' = damping e /\
      _num_iter e' = _num_iter e /\
      (n_good_steps <= Z.to_nat (run_length opt - initial_count))%nat
  | Raise _ => True
  end.
Proof.
  destruct (do_internal_run_ initial_count sb ud e) as [[e' n]|x] eqn:E;
    [|exact I].
  apply do_internal_run_fixed in E. destruct E as [E En].
  inversion E. repeat split; auto.
Qed.

(** *** [_run2] and [do_run_2] *)

Lemma run2_trials_loop_state (e e1 : engine M Jac) (d1 d2 : list R)
    (er1 er2 : R) :
  run2_trials_ e = Ok (e1, d1, d2, er1, er2) ->
  loop_state e1 = loop_state e /\
  damping e1
  = map (fun d => d * decrease_damp_factor opt)
      (map (fun d => d / decrease_damp_factor opt) (damping e)).
Proof.
  unfold run2_trials.
  destruct (find_LM_updates_ (calc_grad_ e) false None e) as [[ea da]|x] eqn:Ea;
    cbn [bind]; [|discriminate].
  apply find_LM_updates_fixed in Ea.
  destruct (find_LM_updates_ _ false None (decrease_damping opt false ea))
    as [[eb db]|x] eqn:Eb; cbn [bind]; [|discriminate].
  apply find_LM_updates_fixed in Eb.
  rewrite !eval_at_eq. cbv beta iota zeta.
  intros H. inversion H; subst. simpl in *.
  inversion Ea. inversion Eb. split; congruence.
Qed.

Lemma run2_retry_loop_state (n : nat) (grad : list R) (e e' : engine M Jac)
    (g : bool) :
  run2_retry_ n grad e = Ok (e', g) -> loop_state e' = loop_state e.
Proof.
  revert e. induction n as [|n IH]; intros e; cbn [run2_retry].
  - rewrite eval_at_eq. cbv beta iota zeta.
    intros H. inversion H; subst. reflexivity.
  - destruct (find_LM_updates_ grad true None (increase_damping opt e))
      as [[e1 d]|x] eqn:E; cbn [bind]; [|discriminate].
    apply find_LM_updates_loop_state in E.
    rewrite eval_at_eq. cbv beta iota zeta.
    destruct (Rltb _ _).
    + intros H. inversion H; subst. simpl in *. exact E.
    + intros H. apply IH in H. simpl in *. congruence.
Qed.

Lemma run2_reject_loop_state (e e' : engine M Jac) (g : bool) :
  run2_reject_ e = Ok (e', g) -> loop_state e' = loop_state e.
Proof.
  unfold run2_reject. rewrite eval_at_eq. cbv beta iota zeta.
  match goal with
  | |- context [run2_retry_ ?n ?gr ?e0] =>
      destruct (run2_retry_ n gr e0) as [[e1 g1]|x] eqn:E
  end; cbn [bind]; [|discriminate].
  apply run2_retry_loop_state in E.
  destruct (Nat.eqb _ 0); [discriminate|].
  intros H. inversion H; subst. exact E.
Qed.

Lemma run2_loop_state (e e' : engine M Jac) :
  _run2_ e = Ok e' -> loop_state e' = loop_state e.
Proof.
  unfold _run2.
  set (e0 := apply_refresh (refresh_J e) e).
  assert (H0 : loop_state e0 = loop_state e)
    by (unfold e0; rewrite apply_refresh_eq; reflexivity).
  destruct (run2_trials_ e0) as [[[[[e1 d1] d2] er1] er2]|x] eqn:Et;
    cbn [bind]; [|discriminate].
  apply run2_trials_loop_state in Et. destruct Et as [Et _].
  match goal with
  | |- bind ?r _ = _ -> _ =>
      assert (Hr : forall e2 g, r = Ok (e2, g) -> loop_state e2 = loop_state e);
      [|destruct r as [[e2 g]|x]; cbn [bind]; [|discriminate]]
  end.
  - intros e2 g.
    destruct (find_best_step [error e1; er1; er2]) as [|[|k]].
    + intros H. apply run2_reject_loop_state in H. congruence.
    + rewrite eval_at_eq. cbv beta iota zeta.
      destruct (exact_check _ _ _); cbn [bind]; [|discriminate].
      intros H. inversion H; subst. simpl in *. congruence.
    + intros H. inversion H; subst. simpl in *. congruence.
  - specialize (Hr e2 g eq_refl). destruct g.
    + match goal with
      | |- context [do_internal_run_ 1 None true ?a] =>
          destruct (do_internal_run_ 1 None true a) as [[e3 n]|x] eqn:Ei
      end; cbn [bind]; [|discriminate].
      apply do_internal_run_fixed in Ei. destruct Ei as [Ei _].
      intros H. inversion H; subst. simpl in *. inversion Ei. congruence.
    + intros H. inversion H; subst. exact Hr.
Qed.

Lemma do_run_2_running (fuel : nat) (e : engine M Jac) :
  costol opt = None -> _has_run e = true ->
  (Z.to_nat (max_iter opt - _num_iter e) <= fuel)%nat ->
  match do_run_2_ fuel e with
  | Ok None => False
  | Ok (Some e') =>
      _has_run e' = true /\
      (_num_iter e <= _num_iter e' <= Z.max (_num_iter e) (max_iter opt))%Z /\
      check_terminate_ e' = Ok true
  | Raise _ => True
  end.
Proof.
  intros Hc. revert e. induction fuel as [|fuel IH]; intros e Hr Hf.
  - cbn [do_run_2]. destruct (check_terminate_total e Hc) as (t & Et).
    rewrite Et. cbn [bind]. destruct t.
    + repeat split; [exact Hr | lia | lia | exact Et].
    + apply check_terminate_false_iter in Et; [lia | exact Hr].
  - cbn [do_run_2]. destruct (check_terminate_total e Hc) as (t & Et).
    rewrite Et. cbn [bind]. destruct t.
    + repeat split; [exact Hr | lia | lia | exact Et].
    + apply check_terminate_false_iter in Et; [|exact Hr].
      destruct (_run2_ (set_has_run true e)) as [e1|x] eqn:E1; cbn [bind]; [|exact I].
      apply run2_loop_state in E1. simpl in E1.
      pose proof (f_equal fst E1) as H1. pose proof (f_equal snd E1) as H2.
      simpl in H1, H2.
      match goal with
      | |- match do_run_2_ fuel ?e2' with _ => _ end => set (e2 := e2')
      end.
      assert (Hr2 : _has_run e2 = true) by exact H1.
      assert (Hn2 : _num_iter e2 = (_num_iter e + 1)%Z)
        by (unfold e2; simpl; lia).
      pose proof (IH e2 Hr2) as L. rewrite Hn2 in L.
      clearbody e2. destruct (do_run_2_ fuel e2) as [[e'|]|x].
      * destruct L as (Ha & Hb & Hd); [lia|].
        repeat split; [exact Ha | lia | lia | exact Hd].
      * apply L. lia.
      * exact I.
Qed.

(** X16.  [do_run_2] with [costol] unset, from an engine that has not run,
    given fuel for [max(1, max_iter - _num_iter)] passes: the loop ends
    within the fuel; unless an exception is raised, the engine has run,
    [_num_iter] rose by at least one and to no more than
    [max(_num_iter + 1, max_iter)], and [check_terminate()] holds. *)
Theorem do_run_2_iterations (fuel : nat) (e : engine M Jac) :
  costol opt = None -> _has_run e = false ->
  (1 <= fuel)%nat ->
  (Z.to_nat (max_iter opt - _num_iter e) <= fuel)%nat ->
  match do_run_2_ fuel e with
  | Ok None => False
  | Ok (Some e') =>
      _has_run e' = true /\
      (_num_iter e < _num_iter e'
       /\ _num_iter e' <= Z.max (_num_iter e + 1) (max_iter opt))%Z /\
      check_terminate_ e' = Ok true
  | Raise _ => True
  end.
Proof.
  intros Hc Hr H1 Hf. destruct fuel as [|fuel]; [lia|].
  cbn [do_run_2]. rewrite (check_terminate_before_first_step _ _ _ Hr).
  cbn [bind].
  destruct (_run2_ (set_has_run true e)) as [e1|x] eqn:E1; cbn [bind]; [|exact I].
  apply run2_loop_state in E1. simpl in E1.
  pose proof (f_equal fst E1) as Ha. pose proof (f_equal snd E1) as Hb.
  simpl in Ha, Hb.
  match goal with
  | |- match do_run_2_ fuel ?e2' with _ => _ end => set (e2 := e2')
  end.
  assert (Hr2 : _has_run e2 = true) by exact Ha.
  assert (Hn2 : _num_iter e2 = (_num_iter e + 1)%Z) by (unfold e2; simpl; lia).
  pose proof (@do_run_2_running fuel e2 Hc Hr2) as L. rewrite Hn2 in L.
  clearbody e2. destruct (do_run_2_ fuel e2) as [[e'|]|x].
  - destruct L as (La & Lb & Ld); [lia|].
    repeat split; [exact La | lia | lia | exact Ld].
  - apply L. lia.
  - exact I.
Qed.

Lemma run2_damping_cases (e : engine M Jac) :
  decrease_damp_factor opt <> 0 ->
  forall e1 d1 d2 er1 er2,
    run2_trials_ (apply_refresh (refresh_J e) e) = Ok (e1, d1, d2, er1, er2) ->
    match _run2_ e with
    | Ok e' =>
        (find_best_step [error e1; er1; er2] = 1%nat ->
         damping e' = damping e) /\
        (find_best_step [error e1; er1; er2] = 2%nat ->
         damping e' = map (fun d => d / decrease_damp_factor opt) (damping e))
    | Raise _ => True
    end.
Proof.
  intros Hf e1 d1 d2 er1 er2 Et.
  destruct (_run2_ e) as [e'|x] eqn:E2; [|exact I].
  revert E2. unfold _run2. rewrite Et. cbn [bind].
  apply run2_trials_loop_state in Et. destruct Et as [_ Ed].
  assert (Ed' : damping e1 = damping e).
  { rewrite Ed, apply_refresh_eq. simpl. rewrite map_map.
    rewrite <- (map_id (damping e)) at 2. apply map_ext.
    intros d. field. exact Hf. }
  destruct (find_best_step [error e1; er1; er2]) as [|[|[|k]]].
  - intros _. split; discriminate.
  - rewrite eval_at_eq. cbv beta iota zeta.
    destruct (exact_check _ _ _); cbn [bind]; [|discriminate].
    match goal with
    | |- context [do_internal_run_ 1 None true ?a] =>
        destruct (do_internal_run_ 1 None true a) as [[e3 n]|x] eqn:Ei
    end; cbn [bind]; [|discriminate].
    apply do_internal_run_fixed in Ei. destruct Ei as [Ei _].
    intros H. inversion H; subst. inversion Ei as [[Hx Hy Hz]]. simpl in Hz.
    split; [intros _; congruence | discriminate].
  - cbn [bind].
    match goal with
    | |- context [do_internal_run_ 1 None true ?a] =>
        destruct (do_internal_run_ 1 None true a) as [[e3 n]|x] eqn:Ei
    end; cbn [bind]; [|discriminate].
    apply do_internal_run_fixed in Ei. destruct Ei as [Ei _].
    intros H. inversion H; subst. inversion Ei as [[Hx Hy Hz]]. simpl in Hz.
    split; [discriminate | intros _; congruence].
  - intros _. split; discriminate.
Qed.


(** X17.  For a non-zero [decrease_damp_factor]: a pass of [_run2] in
    which the first trial step is best ends with the damping it began
    with, and a pass in which the second trial step is best ends with
    that damping divided by [decrease_damp_factor]. *)
Theorem run2_damping (e : engine M Jac) :
  decrease_damp_factor opt <> 0 ->
  forall e1 d1 d2 er1 er2,
    run2_trials_ (apply_refresh (refresh_J e) e) = Ok (e1, d1, d2, er1, er2) ->
    match _run2_ e with
    | Ok e' =>
        (find_best_step [error e1; er1; er2] = 1%nat ->
         damping e' = damping e) /\
        (find_best_step [error e1; er1; er2] = 2%nat ->
         damping e' = map (fun d => d / decrease_damp_factor opt) (damping e))
    | Raise _ => True
    end.
Proof. exact (run2_damping_cases e). Qed.

(** *** Two ways a run ends *)

Lemma vsub_self (v : list R) : Forall (fun d => d = 0) (vsub v v).
Proof.
  unfold vsub, vscale. induction v as [|x v IH]; simpl; constructor.
  - lra.
  - exact IH.
Qed.

(** X18.  Once the engine has run, and with [costol] unset,
    [check_terminate] returns [True] when the parameters have not moved
    since the last step (for a positive [paramtol]), and when the error
    fell by less than [errtol]. *)
Theorem check_terminate_no_progress (e : engine M Jac) :
  _has_run e = true -> costol opt = None ->
  (0 < paramtol opt /\ _last_vals e = param_vals e)
  \/ _last_error e - error e < errtol opt ->
  check_terminate_ e = Ok true.
Proof.
  intros Hr Hc H. rewrite (check_terminate_without_costol _ _ _ Hr Hc).
  f_equal. destruct H as [[Hp Hv] | He].
  - assert (E : forallb (fun d => Rltb (Rabs d) (paramtol opt)) (delta_vals e)
                = true).
    { unfold delta_vals. rewrite Hv. apply forallb_forall. intros d Hd.
      pose proof (vsub_self (param_vals e)) as F.
      rewrite Forall_forall in F. rewrite (F d Hd), Rabs_R0.
      apply Rltb_true_iff. exact Hp. }
    rewrite E. reflexivity.
  - assert (E : Rltb (delta_err e) (errtol opt) = true)
      by (apply Rltb_true_iff; exact He).
    rewrite E. rewrite orb_true_r. reflexivity.
Qed.

(** X19.  With [use_accel] set, when the acceleration correction is not
    smaller than [max_accel_correction] times the step,
    [find_LM_updates] called without a sub-block raises
    [UnboundLocalError]: it reads the local [JTJ], which is bound only for
    a sub-block.  [_run1] makes this call first and raises with it. *)
Theorem run1_untrusted_correction (e : engine M Jac) :
  use_accel opt = true ->
  let e0 := apply_refresh (refresh_J e) e in
  let delta := lm_solve (jac e0) (damping e0) (calc_grad_ e0) None in
  let correction :=
    snd (calc_accel_correction update_function calc_residuals J_dot
           accel_solve None delta e0) in
  xlt (np_div (sqrt (vsum (map (fun x => x ^ 2) correction)))
              (sqrt (vsum (map (fun x => x ^ 2) delta))))
      (max_accel_correction opt) = false ->
  find_LM_updates_ (calc_grad_ e0) true None e0 = Raise UnboundLocalError
  /\ _run1_ e = Raise UnboundLocalError.
Proof.
  intros Ha e0 delta correction Hx.
  assert (E : find_LM_updates_ (calc_grad_ e0) true None e0
              = Raise UnboundLocalError).
  { unfold find_LM_updates. cbn [bind]. rewrite Ha.
    fold delta.
    destruct (calc_accel_correction update_function calc_residuals J_dot
                accel_solve None delta e0) as [e1 corr] eqn:Ec.
    unfold correction in Hx. cbn [snd] in Hx.
    rewrite Hx. reflexivity. }
  split; [exact E|].
  unfold _run1, run1_first. fold e0. rewrite E. reflexivity.
Qed.

End RunLoops.

Section RunLoopsWitness.
Open Scope R_scope.
Import LM.

Local Abbreviation a_check_terminate := (check_terminate default_options demo_cosine).
Local Abbreviation a_run2_trials :=
  (run2_trials default_options accepting_update_function demo_residuals
     demo_J_dot demo_lm_solve demo_accel_solve).
Local Abbreviation a_run2 :=
  (_run2 default_options accepting_update_function demo_residuals demo_J_dot
     demo_lm_solve demo_accel_solve demo_refresh demo_refresh demo_mark_stale
     demo_cosine).
Local Abbreviation a_do_run_1 :=
  (do_run_1 default_options accepting_update_function demo_residuals
     demo_J_dot demo_lm_solve demo_accel_solve demo_refresh demo_mark_stale
     demo_cosine).
Local Abbreviation a_do_run_2 :=
  (do_run_2 default_options accepting_update_function demo_residuals
     demo_J_dot demo_lm_solve demo_accel_solve demo_refresh demo_refresh
     demo_mark_stale demo_cosine).

Lemma check_terminate_no_progress_witness :
  a_check_terminate demo_engine = Ok true.
Proof.
  apply (@check_terminate_no_progress unit unit default_options demo_cosine
           demo_engine); [reflexivity | reflexivity |].
  left. split; [simpl; lra | reflexivity].
Defined.

Lemma run1_untrusted_correction_witness :
  find_LM_updates accel_options demo_update_function demo_residuals demo_J_dot
    demo_lm_solve demo_accel_solve
    (calc_grad demo_residuals demo_J_dot
       (apply_refresh (demo_refresh demo_engine) demo_engine))
    true None (apply_refresh (demo_refresh demo_engine) demo_engine)
  = Raise UnboundLocalError
  /\ _run1 accel_options demo_update_function demo_residuals demo_J_dot
       demo_lm_solve demo_accel_solve demo_refresh demo_mark_stale demo_engine
     = Raise UnboundLocalError.
Proof.
  apply (@run1_untrusted_correction unit unit accel_options
           demo_update_function demo_residuals demo_J_dot demo_lm_solve
           demo_accel_solve demo_refresh demo_mark_stale demo_engine).
  - reflexivity.
  - unfold calc_accel_correction. rewrite eval_current_eq.
    cbv beta iota zeta. rewrite !eval_at_eq. cbv beta iota zeta.
    cbn [snd demo_accel_solve vscale map vsum fold_right demo_lm_solve
         apply_refresh demo_refresh demo_engine damping set_param_vals
         set_model set_jac].
    replace (0 ^ 2 + 0) with 0 by (simpl; lra).
    rewrite sqrt_0. unfold np_div.
    rewrite (proj2 (Reqb_true_iff 0 0) eq_refl), Rltb_irrefl. reflexivity.
Defined.

Lemma do_run_1_iterations_witness :
  match a_do_run_1 5 fresh_engine with
  | Ok None => False
  | Ok (Some e') =>
      _has_run e' = true /\
      (_num_iter fresh_engine < _num_iter e'
       /\ _num_iter e'
          <= Z.max (_num_iter fresh_engine + 1) (max_iter default_options))%Z /\
      a_check_terminate e' = Ok true
  | Raise _ => True
  end.
Proof.
  apply (@do_run_1_iterations unit unit default_options
           accepting_update_function demo_residuals demo_J_dot demo_lm_solve
           demo_accel_solve demo_refresh demo_mark_stale demo_cosine 5
           fresh_engine); [reflexivity | reflexivity | lia | simpl; lia].
Defined.

Lemma do_run_2_iterations_witness :
  match a_do_run_2 5 fresh_engine with
  | Ok None => False
  | Ok (Some e') =>
      _has_run e' = true /\
      (_num_iter fresh_engine < _num_iter e'
       /\ _num_iter e'
          <= Z.max (_num_iter fresh_engine + 1) (max_iter default_options))%Z /\
      a_check_terminate e' = Ok true
  | Raise _ => True
  end.
Proof.
  apply (@do_run_2_iterations unit unit default_options
           accepting_update_function demo_residuals demo_J_dot demo_lm_solve
           demo_accel_solve demo_refresh demo_refresh demo_mark_stale
           demo_cosine 5 fresh_engine);
    [reflexivity | reflexivity | lia | simpl; lia].
Defined.

Lemma run2_damping_witness :
  exists e1 d1 d2,
    a_run2_trials (apply_refresh (demo_refresh demo_engine) demo_engine)
    = Ok (e1, d1, d2, 0.5, 0.5) /\
    error e1 = 1 /\
    match a_run2 demo_engine with
    | Ok e' =>
        (find_best_step [error e1; 0.5; 0.5] = 1%nat ->
         damping e' = damping demo_engine) /\
        (find_best_step [error e1; 0.5; 0.5] = 2%nat ->
         damping e'
         = map (fun d => d / decrease_damp_factor default_options)
             (damping demo_engine))
    | Raise _ => True
    end.
Proof.
  assert (T : exists e1 d1 d2,
            a_run2_trials (apply_refresh (demo_refresh demo_engine) demo_engine)
            = Ok (e1, d1, d2, 0.5, 0.5) /\ error e1 = 1).
  { unfold run2_trials.
    rewrite find_LM_updates_plain by reflexivity. cbn [bind].
    rewrite find_LM_updates_plain by reflexivity. cbn [bind].
    rewrite !eval_at_eq. cbn [accepting_update_function fst snd].
    do 3 eexists. split; reflexivity. }
  destruct T as (e1 & d1 & d2 & E & He).
  exists e1, d1, d2. split; [exact E|]. split; [exact He|].
  assert (Hf : decrease_damp_factor default_options <> 0) by (simpl; lra).
  exact (@run2_damping unit unit default_options accepting_update_function
           demo_residuals demo_J_dot demo_lm_solve demo_accel_solve
           demo_refresh demo_refresh demo_mark_stale demo_cosine demo_engine
           Hf e1 d1 d2 0.5 0.5 E).
Defined.


Local Abbreviation a_run1 :=
  (_run1 default_options accepting_update_function demo_residuals demo_J_dot
     demo_lm_solve demo_accel_solve demo_refresh demo_mark_stale).

(** A step of zero length: the engine has not moved. *)
Lemma no_move_terminates (e : engine unit unit) (x : R) :
  _has_run e = true -> _last_vals e = [x] -> param_vals e = [x + 0] ->
  a_check_terminate e = Ok true.
Proof.
  intros Hr Hl Hp.
  rewrite (@check_terminate_without_costol unit unit default_options
             demo_cosine e Hr eq_refl).
  unfold delta_vals. rewrite Hl, Hp. cbn [vsub vscale map vadd forallb].
  assert (E : Rltb (Rabs (x + -1 * (x + 0))) (paramtol default_options) = true).
  { apply Rltb_true_iff. replace (x + -1 * (x + 0)) with 0 by lra.
    rewrite Rabs_R0. simpl. lra. }
  rewrite E. reflexivity.
Qed.

(** With the error function that returns 0.5, [do_run_1] takes one step
    from the fresh engine and stops. *)
Example do_run_1_one_step :
  exists e',
    a_do_run_1 5 fresh_engine = Ok (Some e') /\ _num_iter e' = 1%Z /\
    error e' = 0.5.
Proof.
  cbn [do_run_1].
  rewrite (@check_terminate_before_first_step unit unit default_options
             demo_cosine fresh_engine eq_refl).
  cbn [bind].
  assert (E1 : exists e1,
            a_run1 (set_has_run true fresh_engine) = Ok e1 /\
            _has_run e1 = true /\ _last_vals e1 = [1] /\
            param_vals e1 = [1 + 0] /\ _num_iter e1 = 0%Z /\ error e1 = 0.5).
  { unfold _run1, run1_first.
    rewrite find_LM_updates_plain by reflexivity. cbn [bind].
    rewrite eval_at_eq. cbn [accepting_update_function fst snd].
    cbv zeta.
    match goal with
    | |- context [Nat.eqb (find_best_step ?l) 1] =>
        assert (Eb : find_best_step l = 1%nat)
          by (cbn; rewrite Rltb_half_1; reflexivity);
        rewrite Eb
    end.
    cbn [Nat.eqb negb bind].
    eexists. split; [reflexivity|]. cbn. repeat split; reflexivity. }
  destruct E1 as (e1 & -> & Hr & Hl & Hp & Hn & He). cbn [bind].
  rewrite (@no_move_terminates _ 1); [| exact Hr | exact Hl | exact Hp].
  cbn [bind]. eexists. split; [reflexivity|]. cbn. rewrite Hn.
  split; [reflexivity | exact He].
Qed.


(** With the error function that returns 0.5, [_run2] accepts the first
    of its two trial steps and keeps the damping. *)
Example run2_keeps_damping :
  exists e', a_run2 demo_engine = Ok e' /\ damping e' = damping demo_engine.
Proof.
  assert (Hf : decrease_damp_factor default_options <> 0) by (simpl; lra).
  assert (T : exists e1 d1 d2,
            a_run2_trials (apply_refresh (demo_refresh demo_engine) demo_engine)
            = Ok (e1, d1, d2, 0.5, 0.5) /\ error e1 = 1 /\
            _has_run e1 = true /\ param_vals e1 = [1] /\ d1 = [0]).
  { unfold run2_trials.
    rewrite find_LM_updates_plain by reflexivity. cbn [bind].
    rewrite find_LM_updates_plain by reflexivity. cbn [bind].
    rewrite !eval_at_eq. cbn [accepting_update_function fst snd].
    do 3 eexists. split; [reflexivity|]. cbn. repeat split; reflexivity. }
  destruct T as (e1 & d1 & d2 & E & He & Hr & Hp & Hd).
  pose proof (@run2_trials_loop_state unit unit default_options
                accepting_update_function demo_residuals demo_J_dot
                demo_lm_solve demo_accel_solve _ _ _ _ _ _ E) as [_ Ed].
  assert (Eb : find_best_step [error e1; 0.5; 0.5] = 1%nat).
  { rewrite He. cbn. rewrite Rltb_half_1, Rltb_irrefl. reflexivity. }
  assert (R2 : exists e', a_run2 demo_engine = Ok e').
  { unfold _run2. rewrite E. cbn [bind]. rewrite Eb.
    rewrite eval_at_eq. cbn [accepting_update_function fst snd].
    rewrite exact_check_pass
      by (replace (0.5 - 0.5) with 0 by lra; rewrite Rabs_R0; lra).
    cbn [bind]. unfold do_internal_run.
    change (Z.to_nat (run_length default_options - 1)) with 4%nat.
    cbn [internal_loop].
    rewrite (@no_move_terminates _ 1);
      [| exact Hr | reflexivity | cbn; rewrite Hp, Hd; reflexivity].
    cbn [bind negb andb]. rewrite !andb_false_r. cbn [bind].
    eexists. reflexivity. }
  destruct R2 as (e' & E').
  exists e'. split; [exact E'|].
  pose proof (@run2_damping_cases unit unit default_options
                accepting_update_function demo_residuals demo_J_dot
                demo_lm_solve demo_accel_solve demo_refresh demo_refresh
                demo_mark_stale demo_cosine demo_engine
                Hf e1 d1 d2 0.5 0.5 E) as H.
  rewrite E' in H. apply H. exact Eb.
Qed.

End RunLoopsWitness.

(** ** The pixel budget, as bounds *)

Section PixelBudgetBounds.
Import LM.

(** X20.  When [get_num_px_jtj] returns [k] pixels, for at least one
    parameter and a non-negative [max_mem], a Jacobian of [k] by
    [nparams] 8-byte floats fits in [max_mem], and [k] is at least
    [min_redundant] times [nparams]. *)
Theorem num_px_within_budget (total n decimate : Z) (max_mem : Q)
    (min_red k : Z) :
  (0 < n)%Z -> (0 <= max_mem)%Q ->
  get_num_px_jtj total n decimate max_mem min_red = Ok k ->
  (inject_Z (8 * k * n) <= max_mem)%Q /\ (min_red * n <= k)%Z.
Proof.
  intros Hn Hm. unfold get_num_px_jtj.
  rewrite (proj2 (Z.eqb_neq n 0)) by lia.
  destruct (Z.eqb decimate 0); [discriminate|].
  rewrite (int_of_nonneg (budget_nonneg Hm Hn)).
  set (q := (max_mem / 8 / inject_Z n)%Q).
  pose proof (Qfloor_le q) as Hfl.
  set (fl := Qfloor q) in *. clearbody fl.
  destruct (min_red * n >? fl)%Z eqn:E; [discriminate|].
  intros H. injection H as Hk.
  assert (Hred : (min_red * n <= fl)%Z).
  { destruct (Z.gtb_spec (min_red * n) fl); [discriminate | assumption]. }
  assert (Hb : (min_red * n <= k <= fl)%Z).
  { revert Hk. generalize (total / decimate)%Z. intros d Hk. lia. }
  clear Hk. rename k into k'.
  split; [|lia].
  assert (Hkq : (inject_Z k' <= q)%Q).
  { apply Qle_trans with (inject_Z fl); [|exact Hfl].
    rewrite <- Zle_Qle. lia. }
  assert (Hnq : (0 < inject_Z n)%Q).
  { change (inject_Z 0 < inject_Z n)%Q. rewrite <- Zlt_Qlt. exact Hn. }
  assert (Eq : (q * inject_Z n * 8 == max_mem)%Q).
  { unfold q. field. intros H0. rewrite H0 in Hnq. discriminate. }
  rewrite <- Eq.
  rewrite !inject_Z_mult.
  setoid_replace (inject_Z 8 * inject_Z k' * inject_Z n)%Q
    with (inject_Z k' * inject_Z n * 8)%Q by ring.
  apply Qmult_le_compat_r; [|discriminate].
  apply Qmult_le_compat_r; [exact Hkq|]. apply Qlt_le_weak. exact Hnq.
Qed.

Lemma num_px_within_budget_witness :
  (inject_Z (8 * 41666666 * 3) <= 1000000000)%Q /\ (20 * 3 <= 41666666)%Z.
Proof.
  apply (@num_px_within_budget 1000000000 3 1 1000000000 20 41666666).
  - reflexivity.
  - discriminate.
  - vm_compute. reflexivity.
Defined.

End PixelBudgetBounds.

(** ** Clipping twice *)

Section ClipAgain.
Open Scope R_scope.
Import LM.

Variable St : Type.
Variable state_update : St -> list string -> list R -> St.
Variable state_error : St -> R.
Variable pad : nat -> Z.
Variable ishape : nat -> Z.
Variable rad_nms : list string.
Variable pos_nms : list string.

Local Abbreviation clip_values_ := (clip_values pad ishape rad_nms pos_nms).
Local Abbreviation update_function_ :=
  (update_function state_update state_error pad ishape rad_nms pos_nms).
Local Abbreviation is_pos_name_ := (is_pos_name pos_nms).
Local Abbreviation pos_lo_ := (pos_lo pad).
Local Abbreviation pos_hi_ := (pos_hi pad ishape).
Local Abbreviation clipped_value_ :=
  (clipped_value pad ishape rad_nms pos_nms).

(** A clip to a range that meets [[lo, hi]] keeps a value of [[lo, hi]]
    in [[lo, hi]]. *)
Lemma clip_keeps (x lo hi lo' hi' : R) :
  lo <= x <= hi -> lo' <= hi' -> lo' <= hi -> lo <= hi' ->
  lo <= clip x lo' hi' <= hi.
Proof.
  intros Hx H1 H2 H3. unfold clip, Rmin, Rmax.
  destruct (Rle_dec x lo'); destruct (Rle_dec _ hi'); lra.
Qed.

Lemma pos_range (a : nat) :
  (1 <= ishape a)%Z -> (0 <= pad a)%Z ->
  pos_lo_ a <= 1e-3 /\ 0.999 <= pos_hi_ a.
Proof.
  intros Hs Hp. apply IZR_le in Hs, Hp. unfold pos_lo, pos_hi, _MINDIST.
  split; lra.
Qed.

(** The value that the four clips leave lies in the range of each clip
    that applies to its name. *)
Lemma clipped_value_in_ranges (x : string) (v : R) :
  (forall a, (a < 3)%nat -> (1 <= ishape a)%Z /\ (0 <= pad a)%Z) ->
  let w := clipped_value_ x v in
  (name_in x rad_nms = true -> _MINRAD <= w <= _MAXRAD) /\
  (forall a, (a < 3)%nat -> is_pos_name_ a x = true ->
     pos_lo_ a <= w <= pos_hi_ a).
Proof.
  intros Himg.
  destruct (Himg 0%nat ltac:(lia)) as [Hs0 Hp0].
  destruct (Himg 1%nat ltac:(lia)) as [Hs1 Hp1].
  destruct (Himg 2%nat ltac:(lia)) as [Hs2 Hp2].
  destruct (pos_range Hs0 Hp0) as [L0 U0].
  destruct (pos_range Hs1 Hp1) as [L1 U1].
  destruct (pos_range Hs2 Hp2) as [L2 U2].
  assert (HR : _MINRAD = 1e-3 /\ _MAXRAD = 200) by (unfold _MINRAD, _MAXRAD; lra).
  destruct HR as [HR1 HR2].
  unfold clipped_value.
  set (v0 := if name_in x rad_nms then clip v _MINRAD _MAXRAD else v).
  set (v1 := if is_pos_name_ 0 x then clip v0 (pos_lo_ 0) (pos_hi_ 0) else v0).
  set (v2 := if is_pos_name_ 1 x then clip v1 (pos_lo_ 1) (pos_hi_ 1) else v1).
  set (v3 := if is_pos_name_ 2 x then clip v2 (pos_lo_ 2) (pos_hi_ 2) else v2).
  cbv zeta.
  assert (R0 : name_in x rad_nms = true -> _MINRAD <= v0 <= _MAXRAD).
  { intros E. unfold v0. rewrite E. apply clip_bounds. lra. }
  assert (R1 : name_in x rad_nms = true -> _MINRAD <= v1 <= _MAXRAD).
  { intros E. unfold v1. destruct (is_pos_name_ 0 x); [|auto].
    apply clip_keeps; [auto | lra | lra | lra]. }
  assert (P1 : is_pos_name_ 0 x = true -> pos_lo_ 0 <= v1 <= pos_hi_ 0).
  { intros E. unfold v1. rewrite E. apply clip_bounds. lra. }
  assert (R2 : name_in x rad_nms = true -> _MINRAD <= v2 <= _MAXRAD).
  { intros E. unfold v2. destruct (is_pos_name_ 1 x); [|auto].
    apply clip_keeps; [auto | lra | lra | lra]. }
  assert (P2 : is_pos_name_ 0 x = true -> pos_lo_ 0 <= v2 <= pos_hi_ 0).
  { intros E. unfold v2. destruct (is_pos_name_ 1 x); [|auto].
    apply clip_keeps; [auto | lra | lra | lra]. }
  assert (Q2 : is_pos_name_ 1 x = true -> pos_lo_ 1 <= v2 <= pos_hi_ 1).
  { intros E. unfold v2. rewrite E. apply clip_bounds. lra. }
  assert (R3 : name_in x rad_nms = true -> _MINRAD <= v3 <= _MAXRAD).
  { intros E. unfold v3. destruct (is_pos_name_ 2 x); [|auto].
    apply clip_keeps; [auto | lra | lra | lra]. }
  assert (P3 : is_pos_name_ 0 x = true -> pos_lo_ 0 <= v3 <= pos_hi_ 0).
  { intros E. unfold v3. destruct (is_pos_name_ 2 x); [|auto].
    apply clip_keeps; [auto | lra | lra | lra]. }
  assert (Q3 : is_pos_name_ 1 x = true -> pos_lo_ 1 <= v3 <= pos_hi_ 1).
  { intros E. unfold v3. destruct (is_pos_name_ 2 x); [|auto].
    apply clip_keeps; [auto | lra | lra | lra]. }
  assert (S3 : is_pos_name_ 2 x = true -> pos_lo_ 2 <= v3 <= pos_hi_ 2).
  { intros E. unfold v3. rewrite E. apply clip_bounds. lra. }
  split; [exact R3|].
  intros [|[|[|a]]] Ha E; [auto | auto | auto | lia].
Qed.

Lemma clipped_value_idempotent (x : string) (v : R) :
  (forall a, (a < 3)%nat -> (1 <= ishape a)%Z /\ (0 <= pad a)%Z) ->
  clipped_value_ x (clipped_value_ x v) = clipped_value_ x v.
Proof.
  intros Himg.
  destruct (clipped_value_in_ranges x v Himg) as [HR HP].
  set (w := clipped_value_ x v) in *.
  unfold clipped_value.
  assert (E0 : (if name_in x rad_nms then clip w _MINRAD _MAXRAD else w) = w).
  { destruct (name_in x rad_nms); [|reflexivity].
    apply clip_inside. auto. }
  rewrite E0.
  assert (E1 : (if is_pos_name_ 0 x then clip w (pos_lo_ 0) (pos_hi_ 0) else w) = w).
  { destruct (is_pos_name_ 0 x) eqn:E; [|reflexivity].
    apply clip_inside. apply HP; [lia | exact E]. }
  rewrite E1.
  assert (E2 : (if is_pos_name_ 1 x then clip w (pos_lo_ 1) (pos_hi_ 1) else w) = w).
  { destruct (is_pos_name_ 1 x) eqn:E; [|reflexivity].
    apply clip_inside. apply HP; [lia | exact E]. }
  rewrite E2.
  destruct (is_pos_name_ 2 x) eqn:E; [|reflexivity].
  apply clip_inside. apply HP; [lia | exact E].
Qed.

(** X21.  On an image of at least one pixel per axis with non-negative
    padding, the values that [LMParticles.update_function] leaves in the
    array it is passed are a fixed point of its clipping: called with
    them, it updates the state with exactly these values and leaves them
    as they are. *)
Theorem clipping_is_idempotent (param_names : list string) (st : St)
    (values : list R) :
  (forall a, (a < 3)%nat -> (1 <= ishape a)%Z /\ (0 <= pad a)%Z) ->
  List.length values = List.length param_names ->
  exists st' values' er,
    update_function state_update state_error pad ishape rad_nms pos_nms
      param_names st values
    = Ok (st', values', er) /\
    forall st2,
      update_function state_update state_error pad ishape rad_nms pos_nms
        param_names st2 values'
      = Ok (state_update st2 param_names values', values',
            state_error (state_update st2 param_names values')).
Proof.
  intros Himg Hlen.
  destruct (clip_values_spec pad ishape rad_nms pos_nms param_names values Hlen)
    as (v1 & E1 & L1 & N1).
  assert (Hlen1 : List.length v1 = List.length param_names) by lia.
  destruct (clip_values_spec pad ishape rad_nms pos_nms param_names v1 Hlen1)
    as (v2 & E2 & L2 & N2).
  assert (Ev : v2 = v1).
  { apply nth_error_ext. intros i.
    destruct (nth_error param_names i) as [x|] eqn:Ex.
    - destruct (nth_error values i) as [v|] eqn:Evi.
      + pose proof (N1 i x v Ex Evi) as H1.
        rewrite (N2 i x _ Ex H1), H1.
        rewrite clipped_value_idempotent by exact Himg. reflexivity.
      + apply nth_error_None in Evi.
        assert (i < List.length param_names)%nat
          by (apply nth_error_Some; rewrite Ex; discriminate).
        lia.
    - apply nth_error_None in Ex.
      rewrite (proj2 (nth_error_None v2 i)) by lia.
      rewrite (proj2 (nth_error_None v1 i)) by lia. reflexivity. }
  subst v2.
  unfold update_function. rewrite E1. cbn [bind].
  eexists _, v1, _. split; [reflexivity|].
  intros st2. rewrite E2. reflexivity.
Qed.

End ClipAgain.

Section ClipAgainWitness.
Open Scope R_scope.
Import LM.

Lemma clipping_is_idempotent_witness :
  exists st' values' er,
    update_function (fun (s : unit) _ _ => s) (fun _ => 0)
      demo_pad demo_ishape demo_rad_nms demo_pos_nms demo_param_names tt
      [70; -5; 3; 300]
    = Ok (st', values', er) /\
    forall st2,
      update_function (fun (s : unit) _ _ => s) (fun _ => 0)
        demo_pad demo_ishape demo_rad_nms demo_pos_nms demo_param_names st2
        values'
      = Ok (st2, values', 0).
Proof.
  apply (@clipping_is_idempotent unit (fun (s : unit) _ _ => s) (fun _ => 0)
           demo_pad demo_ishape demo_rad_nms demo_pos_nms demo_param_names tt
           [70; -5; 3; 300]).
  - intros a _. unfold demo_ishape, demo_pad. lia.
  - reflexivity.
Defined.

End ClipAgainWitness.

(** ** The damping vector *)

Section Damping.
Open Scope R_scope.
Import LM.

Lemma prefix_append (nm s : string) :
  String.prefix nm s = true <-> exists post, s = String.append nm post.
Proof.
  revert s. induction nm as [|c nm IH]; intros s; simpl.
  - split; [intros _; exists s; reflexivity | intros _; destruct s; reflexivity].
  - destruct s as [|c' s]; simpl.
    + split; [discriminate | intros (post & H); discriminate].
    + destruct (Ascii.ascii_dec c c') as [-> | Hc].
      * rewrite IH. split; intros (post & H); exists post.
        -- rewrite H. reflexivity.
        -- inversion H. reflexivity.
      * split; [discriminate | intros (post & H); inversion H; congruence].
Qed.

(** [contains nm s] holds exactly when [s] is [pre ++ nm ++ post]. *)
Lemma contains_spec (nm s : string) :
  contains nm s = true
  <-> exists pre post, s = String.append pre (String.append nm post).
Proof.
  induction s as [|c s IH].
  - cbn [contains]. destruct (String.prefix nm EmptyString) eqn:E.
    + apply prefix_append in E. destruct E as (post & E).
      split; [intros _; exists EmptyString, post; exact E | reflexivity].
    + split; [discriminate|]. intros (pre & post & H).
      destruct pre as [|c pre]; [|discriminate]. simpl in H.
      assert (String.prefix nm EmptyString = true)
        by (apply prefix_append; exists post; exact H).
      congruence.
  - cbn [contains]. destruct (String.prefix nm (String c s)) eqn:E.
    + apply prefix_append in E. destruct E as (post & E).
      split; [intros _; exists EmptyString, post; exact E | reflexivity].
    + rewrite IH. split.
      * intros (pre & post & H). exists (String c pre), post.
        rewrite H. reflexivity.
      * intros (pre & post & H). destruct pre as [|c' pre].
        -- simpl in H.
           assert (String.prefix nm (String c s) = true)
             by (apply prefix_append; exists post; exact H).
           congruence.
        -- inversion H. exists pre, post. reflexivity.
Qed.

(** The factor that the list gives a name: the product of the factors of
    the entries that occur in it, taken in order. *)
Lemma vectorize_damping_fold (params : list string)
    (increase_list : list (string * R)) (dv : list R) :
  List.length dv = List.length params ->
  fold_left
    (fun damp_vec nf =>
       let '(nm, fctr) := nf in
       map (fun pd => if contains nm (fst pd) then snd pd * fctr else snd pd)
         (combine params damp_vec))
    increase_list dv
  = map (fun pd =>
           fold_left (fun d nf => if contains (fst nf) (fst pd)
                                  then d * snd nf else d)
             increase_list (snd pd))
      (combine params dv).
Proof.
  revert dv. induction increase_list as [|[nm f] il IH]; intros dv Hl.
  - simpl. revert dv Hl. induction params as [|p ps IHp]; intros [|d dv] Hl;
      simpl in *; try discriminate; [reflexivity|].
    f_equal. apply IHp. lia.
  - cbn [fold_left]. rewrite IH.
    + clear IH. revert dv Hl.
      induction params as [|p ps IHp]; intros [|d dv] Hl;
        simpl in *; try discriminate; [reflexivity|].
      f_equal. apply IHp. lia.
    + rewrite length_map, length_combine. lia.
Qed.

(** X22.  [vectorize_damping] returns one entry per parameter: [damping]
    multiplied, in the order of [increase_list], by the factor of every
    entry whose name occurs in the parameter's name; a parameter that
    contains none of the names keeps [damping]. *)
Theorem vectorize_damping_entries (params : list string) (damping : R)
    (increase_list : list (string * R)) :
  List.length (vectorize_damping params damping increase_list)
  = List.length params
  /\ forall a p,
       nth_error params a = Some p ->
       nth_error (vectorize_damping params damping increase_list) a
       = Some (fold_left (fun d nf => if contains (fst nf) p
                                      then d * snd nf else d)
                 increase_list damping)
       /\ ((forall nm f, In (nm, f) increase_list -> contains nm p = false) ->
           nth_error (vectorize_damping params damping increase_list) a
           = Some damping).
Proof.
  unfold vectorize_damping.
  rewrite vectorize_damping_fold by (rewrite length_map; reflexivity).
  split.
  - rewrite length_map, length_combine, length_map. lia.
  - intros a p Hp.
    assert (E : nth_error
                  (map (fun pd =>
                          fold_left (fun d nf => if contains (fst nf) (fst pd)
                                                 then d * snd nf else d)
                            increase_list (snd pd))
                     (combine params (map (fun _ => 1 * damping) params))) a
                = Some (fold_left (fun d nf => if contains (fst nf) p
                                               then d * snd nf else d)
                          increase_list damping)).
    { rewrite nth_error_map, nth_error_combine, Hp, nth_error_map, Hp.
      simpl. rewrite Rmult_1_l. reflexivity. }
    split; [exact E|].
    intros Hno. rewrite E. f_equal.
    clear E. revert damping. induction increase_list as [|[nm f] il IH];
      intros damping; [reflexivity|].
    simpl. rewrite (Hno nm f) by (left; reflexivity).
    apply IH. intros nm' f' Hin. apply (Hno nm' f'). right. exact Hin.
Qed.

End Damping.

(** ** Halving a block *)

Section HalvingFacts.
Import LM.

Variable shuffle : list nat -> list nat.

Local Abbreviation halve_randomly_ := (halve_randomly shuffle).

Lemma nonzero_In (blk : list bool) (i : nat) :
  In i (nonzero blk) <-> (i < List.length blk)%nat /\ nth i blk false = true.
Proof.
  unfold nonzero. rewrite filter_In, in_seq. split; intros [H1 H2]; split; auto; lia.
Qed.

Lemma nonzero_NoDup (blk : list bool) : NoDup (nonzero blk).
Proof. unfold nonzero. apply NoDup_filter, seq_NoDup. Qed.

Lemma nth_set_true_at (inds : list nat) (n i : nat) :
  nth i (set_true_at inds n) false
  = ((i <? n)%nat && existsb (Nat.eqb i) inds)%bool.
Proof.
  unfold set_true_at.
  destruct (Nat.ltb_spec i n) as [Hi | Hi].
  - rewrite (nth_indep _ false (existsb (Nat.eqb 0) inds))
      by (rewrite length_map, length_seq; exact Hi).
    rewrite (map_nth (fun j => existsb (Nat.eqb j) inds)).
    rewrite seq_nth by exact Hi. reflexivity.
  - rewrite nth_overflow; [reflexivity|].
    rewrite length_map, length_seq. exact Hi.
Qed.

Lemma existsb_eqb_In (i : nat) (l : list nat) :
  existsb (Nat.eqb i) l = true <-> In i l.
Proof.
  rewrite existsb_exists. split.
  - intros (x & Hx & E). apply Nat.eqb_eq in E. subst. exact Hx.
  - intros H. exists i. split; [exact H | apply Nat.eqb_refl].
Qed.

Lemma nonzero_set_true_at (inds : list nat) (n : nat) :
  NoDup inds -> (forall i, In i inds -> (i < n)%nat) ->
  Permutation (nonzero (set_true_at inds n)) inds.
Proof.
  intros Hnd Hlt. apply NoDup_Permutation; [apply nonzero_NoDup | exact Hnd|].
  intros i. rewrite nonzero_In, nth_set_true_at.
  unfold set_true_at. rewrite length_map, length_seq. split.
  - intros [Hi H]. apply andb_true_iff in H. destruct H as [_ H].
    apply existsb_eqb_In. exact H.
  - intros H. split; [apply Hlt; exact H|].
    apply andb_true_iff. split.
    + apply Nat.ltb_lt. apply Hlt. exact H.
    + apply existsb_eqb_In. exact H.
Qed.

(** X23.  Provided the shuffle permutes the indices, the two blocks of
    [halve_randomly] have the shape of [blk], their element-wise or is
    [blk], their element-wise and is all [False], and of the [n] true
    entries the first block holds [n/2] (rounded down) and the second the
    remaining [n - n/2]. *)
Theorem halve_randomly_partition (blk : list bool) :
  Permutation (shuffle (nonzero blk)) (nonzero blk) ->
  let '(blk1, blk2) := halve_randomly_ blk in
  let n := List.length (nonzero blk) in
  List.length blk1 = List.length blk /\ List.length blk2 = List.length blk /\
  (forall i, (nth i blk1 false || nth i blk2 false)%bool = nth i blk false) /\
  (forall i, (nth i blk1 false && nth i blk2 false)%bool = false) /\
  List.length (nonzero blk1) = (n / 2)%nat /\
  List.length (nonzero blk2) = (n - n / 2)%nat.
Proof.
  intros Hperm. unfold halve_randomly.
  set (inds := shuffle (nonzero blk)) in *.
  set (h := (List.length inds / 2)%nat).
  assert (Hlen : List.length inds = List.length (nonzero blk))
    by (apply Permutation_length; exact Hperm).
  assert (Hnd : NoDup inds).
  { apply (Permutation_NoDup (Permutation_sym Hperm)). apply nonzero_NoDup. }
  assert (Hin : forall i, In i inds <->
                  (i < List.length blk)%nat /\ nth i blk false = true).
  { intros i. rewrite <- nonzero_In. split; apply Permutation_in;
      [exact Hperm | apply Permutation_sym; exact Hperm]. }
  assert (Hsplit : inds = firstn h inds ++ skipn h inds)
    by (symmetry; apply firstn_skipn).
  assert (Hh : (h <= List.length inds)%nat)
    by (unfold h; apply Nat.Div0.div_le_upper_bound; lia).
  assert (Hnd' : NoDup (firstn h inds ++ skipn h inds))
    by (rewrite <- Hsplit; exact Hnd).
  assert (Hin1 : forall i, In i (firstn h inds) -> In i inds)
    by (intros i Hi; rewrite Hsplit; apply in_or_app; left; exact Hi).
  assert (Hin2 : forall i, In i (skipn h inds) -> In i inds)
    by (intros i Hi; rewrite Hsplit; apply in_or_app; right; exact Hi).
  cbv zeta.
  split; [unfold set_true_at; rewrite length_map, length_seq; reflexivity|].
  split; [unfold set_true_at; rewrite length_map, length_seq; reflexivity|].
  split; [|split; [|split]].
  - intros i. rewrite !nth_set_true_at.
    destruct (Nat.ltb_spec i (List.length blk)) as [Hi | Hi]; simpl.
    + destruct (nth i blk false) eqn:Eb.
      * assert (Hi' : In i inds) by (apply Hin; auto).
        rewrite Hsplit in Hi'. apply in_app_or in Hi'.
        apply orb_true_iff. destruct Hi' as [H | H];
          [left | right]; apply existsb_eqb_In; exact H.
      * apply orb_false_iff. split.
        -- destruct (existsb (Nat.eqb i) (firstn h inds)) eqn:E; [|reflexivity].
           apply existsb_eqb_In, Hin1, Hin in E. destruct E. congruence.
        -- destruct (existsb (Nat.eqb i) (skipn h inds)) eqn:E; [|reflexivity].
           apply existsb_eqb_In, Hin2, Hin in E. destruct E. congruence.
    + rewrite nth_overflow by lia. reflexivity.
  - intros i. rewrite !nth_set_true_at.
    destruct (existsb (Nat.eqb i) (firstn h inds)) eqn:E1;
      [|rewrite andb_false_r; reflexivity].
    destruct (existsb (Nat.eqb i) (skipn h inds)) eqn:E2;
      [|rewrite !andb_false_r; reflexivity].
    apply existsb_eqb_In in E1, E2. exfalso.
    apply NoDup_app_remove_l in Hnd' as Hs.
    revert E1 E2. clear - Hnd'. revert Hnd'.
    generalize (firstn h inds) (skipn h inds). intros l1 l2 Hnd E1 E2.
    induction l1 as [|x l1 IH]; [contradiction|].
    simpl in Hnd. inversion Hnd as [|? ? Hx Hnd1]; subst.
    destruct E1 as [-> | E1].
    + apply Hx. apply in_or_app. right. exact E2.
    + apply IH; assumption.
  - assert (P : Permutation (nonzero (set_true_at (firstn h inds) (List.length blk)))
                  (firstn h inds)).
    { apply nonzero_set_true_at.
      - apply (NoDup_app_remove_r _ _ Hnd').
      - intros i Hi. apply Hin1, Hin in Hi. tauto. }
    rewrite (Permutation_length P), length_firstn, Nat.min_l by exact Hh.
    unfold h. rewrite Hlen. reflexivity.
  - assert (P : Permutation (nonzero (set_true_at (skipn h inds) (List.length blk)))
                  (skipn h inds)).
    { apply nonzero_set_true_at.
      - apply (NoDup_app_remove_l _ _ Hnd').
      - intros i Hi. apply Hin2, Hin in Hi. tauto. }
    rewrite (Permutation_length P), length_skipn. unfold h. rewrite Hlen.
    reflexivity.
Qed.

End HalvingFacts.

Section HalvingWitness.
Import LM.

Lemma halve_randomly_partition_witness :
  let '(blk1, blk2) := halve_randomly (@rev nat) [true; false; true; true] in
  let n := List.length (nonzero [true; false; true; true]) in
  List.length blk1 = List.length [true; false; true; true] /\
  List.length blk2 = List.length [true; false; true; true] /\
  (forall i, (nth i blk1 false || nth i blk2 false)%bool
             = nth i [true; false; true; true] false) /\
  (forall i, (nth i blk1 false && nth i blk2 false)%bool = false) /\
  List.length (nonzero blk1) = (n / 2)%nat /\
  List.length (nonzero blk2) = (n - n / 2)%nat.
Proof.
  apply (@halve_randomly_partition (@rev nat) [true; false; true; true]).
  apply Permutation_sym, Permutation_rev.
Defined.

End HalvingWitness.

(** ** The Broyden update *)

Section Secant.
Open Scope R_scope.
Import LM.

Lemma length_vadd (u v : list R) :
  List.length (vadd u v) = Nat.min (List.length u) (List.length v).
Proof.
  revert v. induction u as [|x u IH]; intros [|y v]; simpl; auto.
Qed.

Lemma length_vscale (c : R) (v : list R) :
  List.length (vscale c v) = List.length v.
Proof. apply length_map. Qed.

Lemma nth_vadd (u v : list R) (i : nat) :
  List.length u = List.length v ->
  nth i (vadd u v) 0 = nth i u 0 + nth i v 0.
Proof.
  revert v i. induction u as [|x u IH]; intros [|y v] i H; simpl in H;
    try discriminate.
  - destruct i; simpl; lra.
  - destruct i; simpl; [lra|]. apply IH. lia.
Qed.

Lemma nth_vscale (c : R) (v : list R) (i : nat) :
  nth i (vscale c v) 0 = c * nth i v 0.
Proof.
  unfold vscale. revert i. induction v as [|x v IH]; intros [|i]; simpl;
    try lra. apply IH.
Qed.

Lemma vec_eq (u v : list R) :
  List.length u = List.length v ->
  (forall i, (i < List.length u)%nat -> nth i u 0 = nth i v 0) -> u = v.
Proof. intros Hl H. apply (nth_ext u v 0 0 Hl H). Qed.

(** The combination of rows that [vec_mat] computes, and its entries. *)
Local Abbreviation combination d rws n :=
  (fold_right (fun dr acc => vadd (vscale (fst dr) (snd dr)) acc)
     (repeat 0 n) (combine d rws)).
Local Abbreviation entry_sum d rws i :=
  (fold_right (fun dr acc => fst dr * nth i (snd dr) 0 + acc) 0
     (combine d rws)).

Lemma length_combination (d : list R) (rws : list (list R)) (n : nat) :
  Forall (fun row => List.length row = n) rws ->
  List.length (combination d rws n) = n.
Proof.
  intros HF. revert d. induction HF as [|row rws Hr _ IH]; intros [|x d]; simpl;
    try apply repeat_length.
  rewrite length_vadd, length_vscale, Hr, IH. apply Nat.min_id.
Qed.

Lemma nth_combination (d : list R) (rws : list (list R)) (n i : nat) :
  Forall (fun row => List.length row = n) rws ->
  nth i (combination d rws n) 0 = entry_sum d rws i.
Proof.
  intros HF. revert d. induction HF as [|row rws Hr HF IH]; intros [|x d]; simpl;
    try (apply nth_repeat).
  rewrite nth_vadd, nth_vscale, IH; [reflexivity|].
  rewrite length_vscale, Hr. symmetry. apply length_combination. exact HF.
Qed.

Lemma entry_sum_scale (c : R) (d : list R) (rws : list (list R)) (i : nat) :
  entry_sum (map (fun x => x * c) d) rws i = c * entry_sum d rws i.
Proof.
  revert rws. induction d as [|x d IH]; intros [|row rws]; simpl; try lra.
  rewrite IH. lra.
Qed.

(** The rows after the loop of [_rank_1_J_update], seen from any vector
    [u]: the combination gains [dot u d] times the increment. *)
Lemma entry_sum_updated (u d delta : list R) (rws : list (list R)) (n i : nat) :
  List.length u = List.length d -> List.length d = List.length rws ->
  Forall (fun row => List.length row = n) rws -> List.length delta = n ->
  entry_sum u
    (map (fun dr => vadd (snd dr) (vscale (fst dr) delta)) (combine d rws)) i
  = entry_sum u rws i + dot u d * nth i delta 0.
Proof.
  intros H1 H2 HF Hd. revert u d H1 H2.
  induction HF as [|row rws Hr HF IH]; intros u d H1 H2.
  - destruct d; [|discriminate]. destruct u; [|discriminate].
    unfold dot. simpl. lra.
  - destruct d as [|y d]; [discriminate|]. destruct u as [|x u]; [discriminate|].
    simpl in H1, H2. simpl. rewrite IH by lia.
    rewrite nth_vadd by (rewrite length_vscale; lia).
    rewrite nth_vscale. unfold dot. simpl. lra.
Qed.

Lemma dot_scale_r (u : list R) (c : R) :
  dot u (map (fun x => x * c) u) = dot u u * c.
Proof.
  unfold dot. induction u as [|x u IH]; simpl; [lra|].
  unfold dot in IH. rewrite IH. lra.
Qed.

Lemma dot_self_nonneg (u : list R) : 0 <= dot u u.
Proof.
  unfold dot. induction u as [|x u IH]; simpl; [lra|]. nra.
Qed.

(** X24.  For arrays of matching shapes and a non-zero step,
    [update_Broyden_J] keeps the shape of [J] and leaves it satisfying the
    secant condition: the step [param_vals - _last_vals] contracted with
    the new [J] is the change of the residuals,
    [_last_residuals - calc_residuals()]. *)
Theorem broyden_update_secant (pv lv lr r : list R) (J : matrix) :
  List.length pv = List.length lv ->
  List.length (rows J) = List.length pv ->
  List.length lr = ncols J -> List.length r = ncols J ->
  Forall (fun row => List.length row = ncols J) (rows J) ->
  dot (vsub pv lv) (vsub pv lv) <> 0 ->
  exists J',
    update_Broyden_J pv lv lr r J = Ok J' /\
    ncols J' = ncols J /\
    List.length (rows J') = List.length (rows J) /\
    Forall (fun row => List.length row = ncols J) (rows J') /\
    vec_mat (vsub pv lv) J' = Ok (vsub lr r).
Proof.
  intros Hpl Hrows Hlr Hr HF Hnz.
  set (dv := vsub pv lv) in *.
  assert (Ldv : List.length dv = List.length (rows J)).
  { unfold dv, vsub. rewrite length_vadd, length_vscale. lia. }
  set (nrm := sqrt (dot dv dv)).
  assert (Hnn : nrm * nrm = dot dv dv) by (apply sqrt_sqrt, dot_self_nonneg).
  assert (Hn0 : nrm <> 0) by (intros E; rewrite E in Hnn; lra).
  unfold update_Broyden_J. fold dv. fold nrm.
  set (dir := map (fun x => x / nrm) dv).
  set (vals := map (fun x => x / nrm) (vsub lr r)).
  assert (Ldir : List.length dir = List.length (rows J))
    by (unfold dir; rewrite length_map; exact Ldv).
  unfold _rank_1_J_update, vec_mat. rewrite Ldir, Nat.eqb_refl. cbn [bind].
  set (delta := vsub vals (combination dir (rows J) (ncols J))).
  assert (Ldr : List.length (vsub lr r) = ncols J).
  { unfold vsub. rewrite length_vadd, length_vscale. lia. }
  assert (Ldelta : List.length delta = ncols J).
  { unfold delta, vsub. rewrite length_vadd, length_vscale.
    rewrite length_combination by exact HF.
    unfold vals. rewrite length_map, Ldr. apply Nat.min_id. }
  set (rows' := map (fun dr => vadd (snd dr) (vscale (fst dr) delta))
                  (combine dir (rows J))).
  assert (Lrows' : List.length rows' = List.length (rows J)).
  { unfold rows'. rewrite length_map, length_combine. lia. }
  assert (HF' : Forall (fun row => List.length row = ncols J) rows').
  { unfold rows'. apply Forall_forall. intros row Hin.
    apply in_map_iff in Hin. destruct Hin as ([x row0] & <- & Hin).
    apply in_combine_r in Hin. rewrite Forall_forall in HF.
    simpl. rewrite length_vadd, length_vscale, (HF row0 Hin), Ldelta.
    apply Nat.min_id. }
  eexists. split; [reflexivity|]. cbn [ncols rows].
  split; [reflexivity|]. split; [exact Lrows'|]. split; [exact HF'|].
  rewrite Ldv, <- Lrows', Nat.eqb_refl. f_equal.
  apply vec_eq.
  - rewrite length_combination by exact HF'. symmetry. exact Ldr.
  - intros i _. rewrite nth_combination by exact HF'.
    unfold rows'. rewrite (@entry_sum_updated dv dir delta (rows J) (ncols J) i);
      [| unfold dir; rewrite length_map; reflexivity | exact Ldir | exact HF
       | exact Ldelta].
    unfold delta. unfold vsub at 1.
    rewrite nth_vadd
      by (rewrite length_vscale, length_combination by exact HF;
          unfold vals; rewrite length_map; exact Ldr).
    rewrite nth_vscale, nth_combination by exact HF.
    unfold dir at 2.
    replace (map (fun x => x / nrm) dv) with (map (fun x => x * / nrm) dv)
      by reflexivity.
    rewrite entry_sum_scale.
    unfold dir. replace (map (fun x => x / nrm) dv)
      with (map (fun x => x * / nrm) dv) by reflexivity.
    rewrite dot_scale_r, <- Hnn.
    unfold vals.
    replace (map (fun x => x / nrm) (vsub lr r))
      with (vscale (/ nrm) (vsub lr r))
      by (unfold vscale; apply map_ext; intros; unfold Rdiv; lra).
    rewrite nth_vscale.
    set (S := entry_sum dv (rows J) i). set (t := nth i (vsub lr r) 0).
    field. exact Hn0.
Qed.

End Secant.

Section SecantWitness.
Open Scope R_scope.
Import LM.

Lemma broyden_update_secant_witness :
  exists J',
    update_Broyden_J [1] [0] [2] [1] (mk_matrix 1 [[0]]) = Ok J' /\
    ncols J' = ncols (mk_matrix 1 [[0]]) /\
    List.length (rows J') = List.length (rows (mk_matrix 1 [[0]])) /\
    Forall (fun row => List.length row = ncols (mk_matrix 1 [[0]])) (rows J') /\
    vec_mat (vsub [1] [0]) J' = Ok (vsub [2] [1]).
Proof.
  apply (@broyden_update_secant [1] [0] [2] [1] (mk_matrix 1 [[0]]));
    try reflexivity.
  - repeat constructor.
  - unfold dot, vsub, vscale. simpl. lra.
Defined.

End SecantWitness.

(** ** Axis orders and sampling grids *)

Section AxesAndGrids.
Open Scope R_scope.
Import PSF.

(** X25.  [xyz_to_zxy] and [zxy_to_xyz] are inverse to each other, and
    [xyz_to_zxy] turns an array of shape [(nx, ny, nz)] into one of shape
    [(nz, nx, ny)] whose entry [[z, x, y]] is the entry [[x, y, z]] of the
    argument. *)
Theorem axis_orders_round_trip (ar : ndarray3) :
  zxy_to_xyz (xyz_to_zxy ar) = ar /\ xyz_to_zxy (zxy_to_xyz ar) = ar /\
  (forall nx ny nz, nd_shape ar = (nx, ny, nz) ->
     nd_shape (xyz_to_zxy ar) = (nz, nx, ny) /\
     forall x y z, nd_at (xyz_to_zxy ar) z x y = nd_at ar x y z).
Proof.
  destruct ar as [[[n0 n1] n2] f].
  split; [reflexivity|]. split; [reflexivity|].
  intros nx ny nz H. inversion H; subst. split; reflexivity.
Qed.

Lemma round_near (x : R) : Rabs (IZR (round x) - x) <= 1 / 2.
Proof.
  pose proof (floor_spec x) as Hf. unfold round.
  destruct (Rltb (x - IZR (floor x)) (1 / 2)) eqn:E1.
  - apply Rltb_true_iff in E1. rewrite Rabs_left1 by lra. lra.
  - apply Rltb_false_iff in E1.
    assert (H1 : Rabs (IZR (floor x + 1) - x) <= 1 / 2).
    { rewrite plus_IZR. rewrite Rabs_right by lra. lra. }
    destruct (Rltb (1 / 2) (x - IZR (floor x))) eqn:E2; [exact H1|].
    apply Rltb_false_iff in E2.
    destruct (Z.even (floor x)); [|exact H1].
    rewrite Rabs_left1 by lra. lra.
Qed.

(** X26.  For positive [error], [k] and [sin(alpha)], where the code
    returns: the integer that [guess_psf_width] gives under [round=True]
    and the float it gives under [round=False] differ by at most 1; the
    float exceeds 1 and the integer is at least 1. *)
Theorem guess_psf_width_unrounded (error k alpha : R) :
  0 < error -> 0 < k -> 0 < sin alpha ->
  exists w wf,
    guess_psf_width error k alpha true = inl w /\
    guess_psf_width error k alpha false = inr wf /\
    Rabs (IZR w - wf) <= 1 /\ 1 < wf /\ (1 <= w)%Z.
Proof.
  intros He Hk Ha.
  pose proof (@psf_width_pos error k alpha He Hk Ha) as Hp.
  pose proof (round_near (psf_width error k alpha)) as H.
  assert (Hr : (0 <= round (psf_width error k alpha))%Z)
    by (apply round_nonneg; lra).
  unfold guess_psf_width. eexists _, _.
  split; [reflexivity|]. split; [reflexivity|].
  set (t := psf_width error k alpha) in *.
  split; [|split; [lra | lia]].
  rewrite plus_IZR, mult_IZR. set (z := IZR (round t)) in *.
  replace (z * 2 + 1 - (t * 2 + 1)) with (2 * (z - t)) by lra.
  rewrite Rabs_mult, (Rabs_right 2) by lra. lra.
Qed.

Lemma guess_psf_width_unrounded_witness :
  exists w wf,
    guess_psf_width 1e-3 1 1 true = inl w /\
    guess_psf_width 1e-3 1 1 false = inr wf /\
    Rabs (IZR w - wf) <= 1 /\ 1 < wf /\ (1 <= w)%Z.
Proof.
  apply (@guess_psf_width_unrounded 1e-3 1 1); try lra.
  apply sin_gt_0; [lra|]. pose proof PI_bounds. lra.
Defined.

Lemma length_arange_sym (r : Z) :
  List.length (arange_sym r) = Z.to_nat (2 * r + 1).
Proof. unfold arange_sym. rewrite length_map, length_seq. reflexivity. Qed.

Lemma nth_arange_sym (r : Z) (i : nat) :
  (i < Z.to_nat (2 * r + 1))%nat ->
  nth i (arange_sym r) 0 = IZR (- r + Z.of_nat i).
Proof.
  intros Hi. unfold arange_sym.
  rewrite (nth_indep _ 0 (IZR (- r + Z.of_nat 0)))
    by (rewrite length_map, length_seq; exact Hi).
  rewrite (map_nth (fun i => IZR (- r + Z.of_nat i))).
  rewrite seq_nth by exact Hi. reflexivity.
Qed.

Lemma arange_sym_parity (n : Z) :
  (1 <= n)%Z ->
  (0 <= (n - 1) / 2)%Z /\
  List.length (arange_sym ((n - 1) / 2))
  = Z.to_nat (if Z.odd n then n else n - 1).
Proof.
  intros Hn.
  assert (Hr : (0 <= (n - 1) / 2)%Z) by (apply Z.div_pos; lia).
  split; [exact Hr|]. rewrite length_arange_sym. f_equal.
  destruct (Z.odd n) eqn:E.
  - apply Z.odd_spec in E. destruct E as (m & ->).
    Z.div_mod_to_equations. lia.
  - rewrite <- Z.negb_even in E. apply negb_false_iff, Z.even_spec in E.
    destruct E as (m & ->). Z.div_mod_to_equations. lia.
Qed.

(** X27.  Along an axis of support size [n >= 1] the grid that
    [_update_rvecs] builds has [n] points when [n] is odd and [n - 1] when
    it is even, is 0 at its middle index, and is symmetric about it. *)
Theorem sampling_grid_sizes (n : Z) :
  (1 <= n)%Z ->
  let r := ((n - 1) / 2)%Z in
  let pts := arange_sym r in
  List.length pts = Z.to_nat (if Z.odd n then n else n - 1) /\
  nth (Z.to_nat r) pts 0 = 0 /\
  (forall i, (i < List.length pts)%nat ->
     nth (List.length pts - 1 - i) pts 0 = - nth i pts 0).
Proof.
  intros Hn r pts.
  destruct (arange_sym_parity Hn) as [Hr Hpar]. fold r in Hr, Hpar.
  assert (Hlen : List.length pts = Z.to_nat (2 * r + 1))
    by (apply length_arange_sym).
  split; [exact Hpar|]. split.
  - unfold pts. rewrite nth_arange_sym by lia.
    rewrite Z2Nat.id by exact Hr. f_equal. lia.
  - intros i Hi. rewrite Hlen in *. unfold pts.
    rewrite !nth_arange_sym by lia. rewrite <- opp_IZR. f_equal. lia.
Qed.

Lemma sampling_grid_sizes_witness :
  let r := ((4 - 1) / 2)%Z in
  let pts := arange_sym r in
  List.length pts = Z.to_nat (if Z.odd 4 then 4 else 4 - 1) /\
  nth (Z.to_nat r) pts 0 = 0 /\
  (forall i, (i < List.length pts)%nat ->
     nth (List.length pts - 1 - i) pts 0 = - nth i pts 0).
Proof. apply (@sampling_grid_sizes 4). lia. Defined.

(** X28.  For positive [error], [k] and [sin(alpha)],
    [_calc_support_size] returns [[shape[0], wid, wid]] with [wid] odd and
    at least 1, and the grids that [_update_rvecs] builds from it have
    [wid] points in x and in y, and [shape[0]] points in z ([shape[0] - 1]
    when [shape[0]] is even). *)
Theorem lens_support_grids (shape_0 : Z) (error alpha k : R) (rest : list R) :
  (1 <= shape_0)%Z -> 0 < error -> 0 < k -> 0 < sin alpha ->
  exists wid,
    _calc_support_size shape_0 error (alpha :: k :: rest)
    = Ok (shape_0, wid, wid) /\
    Z.odd wid = true /\ (1 <= wid)%Z /\
    let '(_, (zpts, xpts, ypts)) := _update_rvecs (shape_0, wid, wid) in
    List.length xpts = Z.to_nat wid /\ List.length ypts = Z.to_nat wid /\
    List.length zpts
    = Z.to_nat (if Z.odd shape_0 then shape_0 else shape_0 - 1).
Proof.
  intros Hs He Hk Ha.
  unfold _calc_support_size, guess_psf_width. cbn [index nth_error bind].
  set (wid := (round (psf_width error k alpha) * 2 + 1)%Z).
  assert (Hodd : Z.odd wid = true) by apply odd_double_succ.
  assert (Hw : (1 <= wid)%Z).
  { pose proof (@psf_width_pos error k alpha He Hk Ha) as Hp.
    pose proof (@round_nonneg (psf_width error k alpha) ltac:(lra)). unfold wid. lia. }
  exists wid. split; [reflexivity|]. split; [exact Hodd|]. split; [exact Hw|].
  unfold _update_rvecs.
  destruct (arange_sym_parity Hw) as [_ Lw]. rewrite Hodd in Lw.
  destruct (arange_sym_parity Hs) as [_ Ls].
  split; [exact Lw|]. split; [exact Lw | exact Ls].
Qed.

Lemma lens_support_grids_witness :
  exists wid,
    _calc_support_size 4 1e-3 [1; 1]
    = Ok (4%Z, wid, wid) /\
    Z.odd wid = true /\ (1 <= wid)%Z /\
    let '(_, (zpts, xpts, ypts)) := _update_rvecs (4%Z, wid, wid) in
    List.length xpts = Z.to_nat wid /\ List.length ypts = Z.to_nat wid /\
    List.length zpts = Z.to_nat (if Z.odd 4 then 4 else 4 - 1).
Proof.
  apply (@lens_support_grids 4 1e-3 1 1 []); try lra; [lia|].
  apply sin_gt_0; [lra|]. pose proof PI_bounds. lra.
Defined.

End AxesAndGrids.
